(** * Receipt extraction pipeline: a shallow embedding and its checked properties

    The development follows the Python sources of the receipt pipeline:

    - [services/receipt_parser.py]   : [ReceiptPostProcessor]
    - [services/ollama.py]           : [OllamaClient._merge_with_deterministic]
      and [OllamaClient._extract_json]
    - [services/deterministic_parser.py] : [DeterministicParser] and its regular
      expressions, interpreted by a small backtracking matcher
    - [services/image_prep.py]       : [ReceiptImagePipeline.process] and the
      stages it runs

    Conventions of the embedding.

    - Python floats are read as exact rationals ([Q]); [round(x, n)] is
      rounding to [n] decimals, ties to even.  The code computes on doubles:
      a statement whose truth depends on their rounding error is made for
      the inputs on which both readings give the same result (amounts in
      whole cents away from a tolerance, confidences of two decimals).
    - Python [str] is read as [string]; the text model is ASCII, on which
      [str.lower], [str.strip] and the regular-expression classes are
      written out and on which NFD accent stripping changes nothing.
    - A [dict] with a fixed set of keys is a record whose fields are options
      ([None] for an absent key or a Python [None]).
    - Logging is an effect on an explicit log. *)

From Stdlib Require Import ZArith QArith Qabs Qround Qminmax.
From Stdlib Require Import List String Ascii Bool Arith Lia Lqa Permutation Sorted.
Import ListNotations.

Set Implicit Arguments.

(** ** Numbers *)

Module Num.

Open Scope Q_scope.

Definition Qlt_bool (a b : Q) : bool := negb (Qle_bool b a).

(** Nearest integer, ties to the even neighbour (Python's [round]). *)
Definition round_half_even (q : Q) : Z :=
  let f := Qfloor q in
  match Qcompare (q - inject_Z f) (1 # 2) with
  | Lt => f
  | Gt => (f + 1)%Z
  | Eq => if Z.even f then f else (f + 1)%Z
  end.

(** [round(q, nd)] *)
Definition round (q : Q) (nd : nat) : Q :=
  inject_Z (round_half_even (q * inject_Z (10 ^ Z.of_nat nd))) / inject_Z (10 ^ Z.of_nat nd).

(** A value with at most two decimals, as [round(_, 2)] leaves it. *)
Definition is_cents (q : Q) : bool := Qeq_bool (round q 2) q.

End Num.

(** ** Text: the [str] methods the sources call, on ASCII text *)

Module Text.

Open Scope char_scope.
Open Scope nat_scope.

Definition chars (s : string) : list ascii := list_ascii_of_string s.
Definition str (l : list ascii) : string := string_of_list_ascii l.

Definition code (c : ascii) : nat := nat_of_ascii c.

Definition in_range (lo hi : ascii) (c : ascii) : bool :=
  (code lo <=? code c) && (code c <=? code hi).

Definition is_digit (c : ascii) : bool := in_range "0" "9" c.
Definition is_upper (c : ascii) : bool := in_range "A" "Z" c.
Definition is_lower (c : ascii) : bool := in_range "a" "z" c.
Definition is_alpha (c : ascii) : bool := is_upper c || is_lower c.

(** [\w] *)
Definition is_word (c : ascii) : bool := is_alpha c || is_digit c || Ascii.eqb c "_".

(** [str.isspace] and [\s]: tab, line feed, vertical tab, form feed,
    carriage return, the four separators 0x1c-0x1f, and space. *)
Definition is_space (c : ascii) : bool :=
  let n := code c in
  ((9 <=? n) && (n <=? 13)) || ((28 <=? n) && (n <=? 31)) || (n =? 32).

Definition lower_char (c : ascii) : ascii :=
  if is_upper c then ascii_of_nat (code c + 32) else c.

Definition upper_char (c : ascii) : ascii :=
  if is_lower c then ascii_of_nat (code c - 32) else c.

(** [s.lower()] *)
Definition lower (s : string) : string := str (map lower_char (chars s)).

Fixpoint lstrip_chars (l : list ascii) : list ascii :=
  match l with
  | c :: l' => if is_space c then lstrip_chars l' else l
  | [] => []
  end.

(** [s.strip()] *)
Definition strip (s : string) : string :=
  str (rev (lstrip_chars (rev (lstrip_chars (chars s))))).

(** [s.split(sep)] for a one-character separator. *)
Fixpoint split_chars (sep : ascii) (l : list ascii) (cur : list ascii) : list (list ascii) :=
  match l with
  | [] => [rev cur]
  | c :: l' =>
      if Ascii.eqb c sep then rev cur :: split_chars sep l' []
      else split_chars sep l' (c :: cur)
  end.

Definition split (sep : ascii) (s : string) : list string :=
  map str (split_chars sep (chars s) []).

Fixpoint is_prefix (p l : list ascii) : bool :=
  match p, l with
  | [], _ => true
  | a :: p', b :: l' => Ascii.eqb a b && is_prefix p' l'
  | _ :: _, [] => false
  end.

Fixpoint contains_chars (needle l : list ascii) : bool :=
  is_prefix needle l ||
  match l with
  | [] => false
  | _ :: l' => contains_chars needle l'
  end.

(** [needle in s] *)
Definition contains (needle s : string) : bool :=
  contains_chars (chars needle) (chars s).

(** [sep.join(parts)] *)
Fixpoint join (sep : string) (parts : list string) : string :=
  match parts with
  | [] => EmptyString
  | [p] => p
  | p :: rest => (p ++ sep ++ join sep rest)%string
  end.

(** The line feed, and a text given line by line. *)
Definition NL : string := String "010" EmptyString.

Definition unlines (lines : list string) : string := join NL lines.

(** [s.replace(a, b)] for single characters. *)
Definition replace_char (a b : ascii) (s : string) : string :=
  str (map (fun c => if Ascii.eqb c a then b else c) (chars s)).

(** [s.isupper()]: some cased character, and no lower-case one. *)
Definition isupper (s : string) : bool :=
  existsb is_upper (chars s) && negb (existsb is_lower (chars s)).

(** [s.title()]: a letter after a letter is lowered, any other letter is
    raised. *)
Fixpoint title_chars (prev_cased : bool) (l : list ascii) : list ascii :=
  match l with
  | [] => []
  | c :: l' =>
      (if is_alpha c
       then (if prev_cased then lower_char c else upper_char c)
       else c) :: title_chars (is_alpha c) l'
  end.

Definition title (s : string) : string := str (title_chars false (chars s)).

(** [int(s)] on a string of decimal digits. *)
Definition digit_val (c : ascii) : Z := Z.of_nat (code c - 48).

Definition int_of_digits (l : list ascii) : Z :=
  fold_left (fun acc c => (acc * 10 + digit_val c)%Z) l 0%Z.

(** Decimal digits of a natural number, most significant first. *)
Fixpoint digits_fuel (fuel : nat) (n : nat) (acc : list ascii) : list ascii :=
  match fuel with
  | 0 => acc
  | S fuel' =>
      let d := ascii_of_nat (48 + n mod 10) in
      if n <? 10 then d :: acc else digits_fuel fuel' (n / 10) (d :: acc)
  end.

Definition digits_of_nat (n : nat) : list ascii := digits_fuel (S n) n [].

(** [f"{n:0{w}d}"] for a non-negative [n]. *)
Definition fmt_0d (w : nat) (n : Z) : string :=
  let ds := digits_of_nat (Z.to_nat n) in
  str (repeat "0" (w - List.length ds) ++ ds).

(** A list of characters with no white space at either end, and one with
    no line feed. *)
Definition trimmed (l : list ascii) : Prop :=
  lstrip_chars l = l /\ lstrip_chars (rev l) = rev l.

Definition no_nl (l : list ascii) : Prop := Forall (fun c => c <> "010"%char) l.

End Text.

(** ** Regular expressions: the subset of Python's [re] the sources use,
    with its leftmost, first-alternative, greedy backtracking order *)

Module Regex.

Import Text.
Open Scope char_scope.
Open Scope nat_scope.

(** One member of a character class. *)
Inductive citem : Type :=
| One (c : ascii)
| Range (lo hi : ascii)
| Digit
| Space
| Word
| Dot.

(** A set of characters: [[...]] or [[^...]], under IGNORECASE or not. *)
Record cclass : Type := mkClass {
  negated : bool;
  items   : list citem;
  icase   : bool
}.

Definition item_ok (it : citem) (x : ascii) : bool :=
  match it with
  | One c => Ascii.eqb x c
  | Range lo hi => in_range lo hi x
  | Digit => is_digit x
  | Space => is_space x
  | Word => is_word x
  | Dot => negb (Ascii.eqb x "010")
  end.

Definition class_ok (cl : cclass) (x : ascii) : bool :=
  xorb (negated cl)
       (existsb (fun it =>
                   item_ok it x ||
                   (icase cl && (item_ok it (lower_char x) || item_ok it (upper_char x))))
                (items cl)).

Inductive re : Type :=
| Eps
| Chr (cl : cclass)
| Seq (a b : re)
| Alt (a b : re)
| Star (a : re)
| Bol
| Eol
| WordB
| Grp (n : nat) (a : re)
| NegLook (a : re).

Definition Opt (a : re) : re := Alt a Eps.
Definition Plus (a : re) : re := Seq a (Star a).

Fixpoint times (n : nat) (a : re) : re :=
  match n with
  | 0 => Eps
  | S n' => Seq a (times n' a)
  end.

Fixpoint upto (n : nat) (a : re) : re :=
  match n with
  | 0 => Eps
  | S n' => Opt (Seq a (upto n' a))
  end.

(** [a{lo,hi}] *)
Definition Rep (lo hi : nat) (a : re) : re := Seq (times lo a) (upto (hi - lo) a).

(** A position in the subject: the character before it, the characters from
    it on, and its index. *)
Record cursor : Type := mkCursor {
  before : option ascii;
  rest   : list ascii;
  pos    : nat
}.

(** Group number, start and end of its last participation. *)
Definition captures : Type := list (nat * (nat * nat)).

Definition answer : Type := (cursor * captures)%type.

Definition at_word_boundary (c : cursor) : bool :=
  let l := match before c with Some x => is_word x | None => false end in
  let r := match rest c with x :: _ => is_word x | [] => false end in
  xorb l r.

(** [$] without MULTILINE: the end, or just before a final line feed. *)
Definition at_end (c : cursor) : bool :=
  match rest c with
  | [] => true
  | [x] => Ascii.eqb x "010"
  | _ => false
  end.

(** Backtracking matcher in continuation-passing style: [k] is what must
    still match after [r]; the first success in priority order is returned. *)
Fixpoint run (r : re) (c : cursor) (cs : captures)
             (k : cursor -> captures -> option answer) {struct r} : option answer :=
  match r with
  | Eps => k c cs
  | Chr cl =>
      match rest c with
      | x :: xs => if class_ok cl x then k (mkCursor (Some x) xs (S (pos c))) cs else None
      | [] => None
      end
  | Seq a b => run a c cs (fun c' cs' => run b c' cs' k)
  | Alt a b =>
      match run a c cs k with
      | Some res => Some res
      | None => run b c cs k
      end
  | Star a =>
      (fix loop (fuel : nat) (c : cursor) (cs : captures) {struct fuel} : option answer :=
         match fuel with
         | 0 => k c cs
         | S fuel' =>
             match run a c cs (fun c' cs' =>
                                 if pos c <? pos c' then loop fuel' c' cs' else None) with
             | Some res => Some res
             | None => k c cs
             end
         end) (List.length (rest c)) c cs
  | Bol => if pos c =? 0 then k c cs else None
  | Eol => if at_end c then k c cs else None
  | WordB => if at_word_boundary c then k c cs else None
  | Grp n a => run a c cs (fun c' cs' => k c' ((n, (pos c, pos c')) :: cs'))
  | NegLook a =>
      match run a c cs (fun c' cs' => Some (c', cs')) with
      | Some _ => None
      | None => k c cs
      end
  end.

(** A match object: span and groups. *)
Record mobj : Type := mkMatch {
  m_start : nat;
  m_end   : nat;
  m_caps  : captures
}.

(** [pattern.match] at a cursor. *)
Definition match_at (r : re) (c : cursor) : option mobj :=
  match run r c [] (fun c' cs' => Some (c', cs')) with
  | Some (c', cs') => Some (mkMatch (pos c) (pos c') cs')
  | None => None
  end.

(** Leftmost match at or after a cursor. *)
Fixpoint scan (r : re) (prev : option ascii) (l : list ascii) (i : nat) : option mobj :=
  match match_at r (mkCursor prev l i) with
  | Some m => Some m
  | None =>
      match l with
      | [] => None
      | x :: l' => scan r (Some x) l' (S i)
      end
  end.

(** The cursor at index [i] of [l]. *)
Fixpoint cursor_at (prev : option ascii) (l : list ascii) (base i : nat) : cursor :=
  match i, l with
  | S i', x :: l' => cursor_at (Some x) l' (S base) i'
  | _, _ => mkCursor prev l base
  end.

Definition scan_from (r : re) (l : list ascii) (i : nat) : option mobj :=
  let c := cursor_at None l 0 i in
  scan r (before c) (rest c) (pos c).

(** [pattern.search(s)] *)
Definition search (r : re) (s : string) : option mobj := scan r None (chars s) 0.

(** [bool(pattern.search(s))] *)
Definition found (r : re) (s : string) : bool :=
  match search r s with Some _ => true | None => false end.

(** [pattern.match(s)] *)
Definition match_ (r : re) (s : string) : option mobj :=
  match_at r (mkCursor None (chars s) 0).

(** [pattern.finditer(s)]: successive non-overlapping matches; an empty
    match moves the scan one character on. *)
Fixpoint finditer_fuel (fuel : nat) (r : re) (l : list ascii) (i : nat) : list mobj :=
  match fuel with
  | 0 => []
  | S fuel' =>
      if List.length l <? i then []
      else
        match scan_from r l i with
        | None => []
        | Some m =>
            m :: finditer_fuel fuel' r l
                   (if m_end m =? m_start m then S (m_end m) else m_end m)
        end
  end.

Definition finditer (r : re) (s : string) : list mobj :=
  finditer_fuel (S (String.length s)) r (chars s) 0.

Definition slice (l : list ascii) (a b : nat) : list ascii :=
  firstn (b - a) (skipn a l).

(** [m.group(0)] *)
Definition group0 (s : string) (m : mobj) : string :=
  str (slice (chars s) (m_start m) (m_end m)).

Fixpoint lookup (n : nat) (cs : captures) : option (nat * nat) :=
  match cs with
  | [] => None
  | (g, span) :: cs' => if g =? n then Some span else lookup n cs'
  end.

(** [m.group(n)], [None] when the group took no part in the match. *)
Definition group (s : string) (m : mobj) (n : nat) : option string :=
  match lookup n (m_caps m) with
  | Some (a, b) => Some (str (slice (chars s) a b))
  | None => None
  end.

(** [re.findall] for a pattern without groups. *)
Definition findall (r : re) (s : string) : list string :=
  map (group0 s) (finditer r s).

(** [re.sub(pattern, "", s)] for a pattern anchored at the start: the one
    match, if any, is cut off. *)
Definition sub_prefix (r : re) (s : string) : string :=
  match match_ r s with
  | Some m => str (skipn (m_end m) (chars s))
  | None => s
  end.

(** [re.sub(pattern, repl, s)] for a replacement without back-references
    and a pattern that matches no empty text: what lies between the matches
    is kept. *)
Fixpoint sub_from (l : list ascii) (i : nat) (ms : list mobj) (repl : list ascii)
  : list ascii :=
  match ms with
  | [] => skipn i l
  | m :: ms' => slice l i (m_start m) ++ repl ++ sub_from l (m_end m) ms' repl
  end.

Definition sub (r : re) (repl s : string) : string :=
  str (sub_from (chars s) 0 (finditer r s) (chars repl)).

(** *** Reading a pattern *)

Record flags : Type := mkFlags {
  IGNORECASE : bool;
  VERBOSE    : bool
}.

Definition no_flags : flags := mkFlags false false.
Definition ignorecase : flags := mkFlags true false.

Definition single (fl : flags) (it : citem) : re :=
  Chr (mkClass false [it] (IGNORECASE fl)).

(** The class item an escaped character stands for. *)
Definition escape_item (e : ascii) : citem :=
  if Ascii.eqb e "d" then Digit
  else if Ascii.eqb e "s" then Space
  else if Ascii.eqb e "w" then Word
  else if Ascii.eqb e "t" then One "009"
  else if Ascii.eqb e "n" then One "010"
  else One e.

(** The members of a class, up to the closing bracket. *)
Fixpoint parse_items (l : list ascii) (acc : list citem) : option (list citem * list ascii) :=
  match l with
  | [] => None
  | "]" :: l' => Some (rev acc, l')
  | "\" :: e :: l' => parse_items l' (escape_item e :: acc)
  | a :: "-" :: b :: l' =>
      if Ascii.eqb b "]" then Some (rev (One "-" :: One a :: acc), l')
      else parse_items l' (Range a b :: acc)
  | a :: l' => parse_items l' (One a :: acc)
  end.

Definition parse_class (fl : flags) (l : list ascii) : option (re * list ascii) :=
  let '(neg, l) := match l with
                   | "^" :: l' => (true, l')
                   | _ => (false, l)
                   end in
  match parse_items l [] with
  | Some (its, l') => Some (Chr (mkClass neg its (IGNORECASE fl)), l')
  | None => None
  end.

Fixpoint take_digits (l : list ascii) (acc : list ascii) : list ascii * list ascii :=
  match l with
  | c :: l' => if is_digit c then take_digits l' (c :: acc) else (rev acc, l)
  | [] => (rev acc, [])
  end.

Definition nat_of_digits (ds : list ascii) : nat := Z.to_nat (int_of_digits ds).

(** A quantifier after an atom, if there is one. *)
Definition parse_quant (a : re) (l : list ascii) : option (re * list ascii) :=
  match l with
  | "*" :: l' => Some (Star a, l')
  | "+" :: l' => Some (Plus a, l')
  | "?" :: l' => Some (Opt a, l')
  | "{" :: l' =>
      let '(lo, l1) := take_digits l' [] in
      match l1 with
      | "}" :: l2 => Some (times (nat_of_digits lo) a, l2)
      | "," :: l2 =>
          let '(hi, l3) := take_digits l2 [] in
          match l3 with
          | "}" :: l4 => Some (Rep (nat_of_digits lo) (nat_of_digits hi) a, l4)
          | _ => None
          end
      | _ => None
      end
  | _ => Some (a, l)
  end.

(** Under VERBOSE, white space and [#] comments between tokens are dropped. *)
Fixpoint skip_comment (l : list ascii) : list ascii :=
  match l with
  | [] => []
  | c :: l' => if Ascii.eqb c "010" then l' else skip_comment l'
  end.

Fixpoint skip_blank (fuel : nat) (l : list ascii) : list ascii :=
  match fuel with
  | 0 => l
  | S fuel' =>
      match l with
      | c :: l' =>
          if is_space c then skip_blank fuel' l'
          else if Ascii.eqb c "#" then skip_blank fuel' (skip_comment l')
          else l
      | [] => []
      end
  end.

Definition tokens (fl : flags) (l : list ascii) : list ascii :=
  if VERBOSE fl then skip_blank (List.length l) l else l.

(** Alternation, sequence and atom; [g] is the number the next capturing
    group gets. *)
Fixpoint parse_alt (fuel : nat) (fl : flags) (l : list ascii) (g : nat)
  : option (re * list ascii * nat) :=
  match fuel with
  | 0 => None
  | S fuel' =>
      match parse_seq fuel' fl l g with
      | Some (a, "|" :: l1, g1) =>
          match parse_alt fuel' fl l1 g1 with
          | Some (b, l2, g2) => Some (Alt a b, l2, g2)
          | None => None
          end
      | other => other
      end
  end
with parse_seq (fuel : nat) (fl : flags) (l : list ascii) (g : nat)
  : option (re * list ascii * nat) :=
  match fuel with
  | 0 => None
  | S fuel' =>
      match tokens fl l with
      | [] => Some (Eps, [], g)
      | "|" :: l' => Some (Eps, "|" :: l', g)
      | ")" :: l' => Some (Eps, ")" :: l', g)
      | l0 =>
          match parse_atom fuel' fl l0 g with
          | Some (a, l1, g1) =>
              match parse_quant a (tokens fl l1) with
              | Some (a', l2) =>
                  match parse_seq fuel' fl l2 g1 with
                  | Some (Eps, l3, g3) => Some (a', l3, g3)
                  | Some (b, l3, g3) => Some (Seq a' b, l3, g3)
                  | None => None
                  end
              | None => None
              end
          | None => None
          end
      end
  end
with parse_atom (fuel : nat) (fl : flags) (l : list ascii) (g : nat)
  : option (re * list ascii * nat) :=
  match fuel with
  | 0 => None
  | S fuel' =>
      match l with
      | "(" :: "?" :: ":" :: l' =>
          match parse_alt fuel' fl l' g with
          | Some (a, ")" :: l1, g1) => Some (a, l1, g1)
          | _ => None
          end
      | "(" :: "?" :: "!" :: l' =>
          match parse_alt fuel' fl l' g with
          | Some (a, ")" :: l1, g1) => Some (NegLook a, l1, g1)
          | _ => None
          end
      | "(" :: l' =>
          match parse_alt fuel' fl l' (S g) with
          | Some (a, ")" :: l1, g1) => Some (Grp g a, l1, g1)
          | _ => None
          end
      | "[" :: l' =>
          match parse_class fl l' with
          | Some (a, l1) => Some (a, l1, g)
          | None => None
          end
      | "\" :: "b" :: l' => Some (WordB, l', g)
      | "\" :: e :: l' => Some (single fl (escape_item e), l', g)
      | "^" :: l' => Some (Bol, l', g)
      | "$" :: l' => Some (Eol, l', g)
      | "." :: l' => Some (single fl Dot, l', g)
      | c :: l' => Some (single fl (One c), l', g)
      | [] => None
      end
  end.

(** A pattern that matches nothing, for a text that is not a pattern. *)
Definition never : re := Chr (mkClass false [] false).

(** [re.compile(pattern, flags)] *)
Definition compile (fl : flags) (pattern : string) : re :=
  let l := chars pattern in
  match parse_alt (3 * List.length l + 3) fl l 1 with
  | Some (r, [], _) => r
  | _ => never
  end.

(** *** What a match is: the paths the matcher may take *)

Definition step : Type := cursor -> captures -> cursor -> captures -> Prop.

(** Zero or more rounds of [R], one after the other. *)
Inductive rounds (R : step) : step :=
| rounds_none c cs : rounds R c cs c cs
| rounds_more c cs c1 cs1 c2 cs2 :
    R c cs c1 cs1 -> rounds R c1 cs1 c2 cs2 -> rounds R c cs c2 cs2.

(** [spans r c cs c' cs']: [r] can match from cursor [c] to cursor [c'],
    taking the captures from [cs] to [cs'].  A negative look-ahead is read
    as no constraint: the relation says what a match looks like, not that
    the matcher finds it. *)
Fixpoint spans (r : re) (c : cursor) (cs : captures) (c' : cursor) (cs' : captures)
  {struct r} : Prop :=
  match r with
  | Eps => c' = c /\ cs' = cs
  | Chr cl =>
      exists x xs,
        rest c = x :: xs /\ class_ok cl x = true
        /\ c' = mkCursor (Some x) xs (S (pos c)) /\ cs' = cs
  | Seq a b => exists c1 cs1, spans a c cs c1 cs1 /\ spans b c1 cs1 c' cs'
  | Alt a b => spans a c cs c' cs' \/ spans b c cs c' cs'
  | Star a => rounds (spans a) c cs c' cs'
  | Bol => pos c = 0 /\ c' = c /\ cs' = cs
  | Eol => at_end c = true /\ c' = c /\ cs' = cs
  | WordB => at_word_boundary c = true /\ c' = c /\ cs' = cs
  | Grp n a => exists cs1, spans a c cs c' cs1 /\ cs' = (n, (pos c, pos c')) :: cs1
  | NegLook a => c' = c /\ cs' = cs
  end.

(** The cursor stands at its position in the subject [l]. *)
Definition stands (l : list ascii) (c : cursor) : Prop :=
  pos c <= List.length l /\ rest c = skipn (pos c) l.

(** The pattern has no capturing group. *)
Fixpoint groupless (r : re) : bool :=
  match r with
  | Seq a b | Alt a b => groupless a && groupless b
  | Star a | NegLook a => groupless a
  | Grp _ _ => false
  | _ => true
  end.

(** The matcher is sound for [r]: what it returns went along a path of [r]. *)
Definition sound (r : re) : Prop :=
  forall c cs k res,
    run r c cs k = Some res ->
    exists c' cs', spans r c cs c' cs' /\ k c' cs' = Some res.

(** Between two cursors the piece [w] of the subject is consumed. *)
Definition consumes (c c' : cursor) (w : list ascii) : Prop :=
  rest c = (w ++ rest c')%list /\ pos c' = pos c + List.length w.

(** The texts a pattern can consume, assertions left aside. *)
Inductive repeated (L : list ascii -> Prop) : list ascii -> Prop :=
| repeated_none : repeated L []
| repeated_more w1 w2 : L w1 -> repeated L w2 -> repeated L (w1 ++ w2).

Fixpoint lang (r : re) (w : list ascii) {struct r} : Prop :=
  match r with
  | Eps | Bol | Eol | WordB | NegLook _ => w = []
  | Chr cl => exists x, w = [x] /\ class_ok cl x = true
  | Seq a b => exists w1 w2, w = (w1 ++ w2)%list /\ lang a w1 /\ lang b w2
  | Alt a b => lang a w \/ lang b w
  | Star a => repeated (lang a) w
  | Grp _ a => lang a w
  end.

(** All the characters, and those of a class. *)
Definition all_ascii : list ascii := map ascii_of_nat (seq 0 256).

Definition class_members (cl : cclass) : list ascii := filter (class_ok cl) all_ascii.

End Regex.

Module RegexExact.

Import Text Regex.
Open Scope char_scope.
Open Scope nat_scope.

(** *** What a match is, look-aheads included *)

(** Zero or more moves of [R], one after the other. *)
Inductive hops (R : cursor -> cursor -> Prop) : cursor -> cursor -> Prop :=
| hops_none c : hops R c c
| hops_more c c1 c2 : R c c1 -> hops R c1 c2 -> hops R c c2.

(** [reach r c c']: [r] matches from cursor [c] to cursor [c'].  A negative
    look-ahead holds where its pattern matches nowhere from the cursor. *)
Fixpoint reach (r : re) (c c' : cursor) {struct r} : Prop :=
  match r with
  | Eps => c' = c
  | Chr cl =>
      exists x xs,
        rest c = x :: xs /\ class_ok cl x = true
        /\ c' = mkCursor (Some x) xs (S (pos c))
  | Seq a b => exists c1, reach a c c1 /\ reach b c1 c'
  | Alt a b => reach a c c' \/ reach b c c'
  | Star a => hops (reach a) c c'
  | Bol => pos c = 0 /\ c' = c
  | Eol => at_end c = true /\ c' = c
  | WordB => at_word_boundary c = true /\ c' = c
  | Grp _ a => reach a c c'
  | NegLook a => c' = c /\ ~ (exists c1, reach a c c1)
  end.

(** The pattern matches at the cursor. *)
Definition matches_at (r : re) (c : cursor) : Prop := exists c', reach r c c'.

(** [A] holds at the cursor or at a later one of the subject. *)
Fixpoint somewhere (A : cursor -> Prop) (prev : option ascii) (l : list ascii) (i : nat)
  : Prop :=
  A (mkCursor prev l i)
  \/ match l with
     | x :: l' => somewhere A (Some x) l' (S i)
     | [] => False
     end.

(** The text ahead decides whether the pattern matches at a cursor. *)
Definition decides (f : list ascii -> bool) (r : re) : Prop :=
  forall c, matches_at r c <-> f (rest c) = true.

(** A pattern decided by the text ahead when it comes right after a letter,
    a digit or an underscore. *)
Definition decides_after_word (f : list ascii -> bool) (r : re) : Prop :=
  forall c x, before c = Some x -> is_word x = true ->
    (matches_at r c <-> f (rest c) = true).

(** What follows a pattern decides with it. *)
Definition tracks (F : (list ascii -> bool) -> list ascii -> bool) (r : re) : Prop :=
  forall q g, decides g q -> decides (F g) (Seq r q).

(** [g] holds of the text or of what is left of it further on. *)
Fixpoint anywhere (g : list ascii -> bool) (l : list ascii) : bool :=
  g l || match l with
         | _ :: l' => anywhere g l'
         | [] => false
         end.

End RegexExact.

(** ** The [logging] effect: an explicit logger that is only written to *)

Module Logging.

Inductive level : Type := DEBUG | INFO | WARNING | ERROR.

Definition logger : Type := list (level * string).

(** A computation that may write to the logger. *)
Definition M (A : Type) : Type := logger -> A * logger.

Definition ret (A : Type) (a : A) : M A := fun l => (a, l).

Definition bind (A B : Type) (c : M A) (k : A -> M B) : M B :=
  fun l => let (a, l') := c l in k a l'.

Definition log (lv : level) (msg : string) : M unit :=
  fun l => (tt, (l ++ [(lv, msg)])%list).

Notation "x <- c ;; k" := (bind c (fun x => k))
  (at level 61, c at next level, right associativity).
Notation "c ;;; k" := (bind c (fun _ => k))
  (at level 61, right associativity).

End Logging.

(** ** [services/deterministic_parser.py] *)

Module DeterministicParser.

Import Num Text Regex Logging.
Open Scope char_scope.
Open Scope string_scope.
Open Scope Q_scope.

(** *** Amount extraction *)

Definition AMOUNT_RE : re :=
  Eval vm_compute in
  compile (mkFlags true true) "
    (?:^|[\s:=\t])          # start of line or whitespace/delimiter
    -?                       # optional negative sign
    \$?                      # optional dollar sign
    (\d{1,6}[.,]\d{2})       # the amount: digits + decimal (comma or period)
    (?:\s*(?:CAD|USD|$))?    # optional currency suffix
    ".

(** The bare number at the end of a line, second try of [_parse_amount]. *)
Definition BARE_AMOUNT_RE : re :=
  Eval vm_compute in compile no_flags "(\d{1,6}[.,]\d{2})\s*$".

(** The amount grammar in the words of the specification: the start of the
    line or a delimiter, an optional sign, an optional currency glyph, one
    to six integer digits, a comma or a period, exactly two fractional
    digits, and an optional currency suffix; the number is group 1. *)
Definition one_of (its : list citem) : re := Chr (mkClass false its true).

Fixpoint in_sequence (l : list re) : re :=
  match l with
  | [] => Eps
  | [a] => a
  | a :: l' => Seq a (in_sequence l')
  end.

Definition letters (s : string) : re :=
  in_sequence (map (fun c => one_of [One c]) (chars s)).

Definition AMOUNT_GRAMMAR : re :=
  in_sequence
    [ Alt Bol (one_of [Space; One ":"%char; One "="%char; One "009"%char]);
      Opt (one_of [One "-"%char]);
      Opt (one_of [One "$"%char]);
      Grp 1 (in_sequence [ Rep 1 6 (one_of [Digit]);
                           one_of [One "."%char; One ","%char];
                           times 2 (one_of [Digit]) ]);
      Opt (in_sequence [ Star (one_of [Space]);
                         Alt (letters "CAD") (Alt (letters "USD") Eol) ]) ].

(** [float(s)] for digits with at most one decimal point. *)
Definition float (s : string) : Q :=
  let l := chars s in
  let frac := match split_chars "."%char l [] with
              | [_; f] => List.length f
              | _ => 0%nat
              end in
  Qmake (int_of_digits (filter is_digit l)) (Pos.of_nat (10 ^ frac)).

Definition _parse_amount (s : string) : option Q :=
  let raw :=
    match search AMOUNT_RE s with
    | None =>
        match search BARE_AMOUNT_RE s with
        | None => None
        | Some m2 => group s m2 1
        end
    | Some m => group s m 1
    end in
  match raw with
  | None => None
  | Some raw => Some (round (float (replace_char ","%char "."%char raw)) 2)
  end.

(** NFD decomposition followed by the removal of combining marks, on UTF-8
    text: an accented Latin-1 letter (bytes [C3 80]-[C3 BF]) becomes its base
    letter, a combining mark (U+0300-U+036F) disappears, ASCII is left as it
    is. *)
Definition base_letter (b : nat) : option ascii :=
  (if (128 <=? b) && (b <=? 133) then Some "A"%char
  else if b =? 135 then Some "C"%char
  else if (136 <=? b) && (b <=? 139) then Some "E"%char
  else if (140 <=? b) && (b <=? 143) then Some "I"%char
  else if b =? 145 then Some "N"%char
  else if (146 <=? b) && (b <=? 150) then Some "O"%char
  else if (153 <=? b) && (b <=? 156) then Some "U"%char
  else if b =? 157 then Some "Y"%char
  else if (160 <=? b) && (b <=? 165) then Some "a"%char
  else if b =? 167 then Some "c"%char
  else if (168 <=? b) && (b <=? 171) then Some "e"%char
  else if (172 <=? b) && (b <=? 175) then Some "i"%char
  else if b =? 177 then Some "n"%char
  else if (178 <=? b) && (b <=? 182) then Some "o"%char
  else if (185 <=? b) && (b <=? 188) then Some "u"%char
  else if (b =? 189) || (b =? 191) then Some "y"%char
  else None)%nat.

Fixpoint strip_accents_chars (l : list ascii) : list ascii :=
  match l with
  | [] => []
  | c :: l' =>
      match l' with
      | d :: l'' =>
          if (code c =? 195)%nat then
            match base_letter (code d) with
            | Some x => x :: strip_accents_chars l''
            | None => c :: strip_accents_chars l'
            end
          else if (((code c =? 204) && (128 <=? code d) && (code d <=? 191))
                   || ((code c =? 205) && (128 <=? code d) && (code d <=? 175)))%nat
          then strip_accents_chars l''
          else c :: strip_accents_chars l'
      | [] => [c]
      end
  end.

Definition _strip_accents (s : string) : string := str (strip_accents_chars (chars s)).

(** *** Keyword patterns: (field name, pattern, priority) *)

Definition LABEL_PATTERNS : list (string * string * Z) :=
  [ ("total",   "total\s*(amount|a\s*payer|du|paid|due)?",                 10%Z);
    ("total",   "montant\s*(total|du|a\s*payer|dû)",                       10%Z);
    ("total",   "amount\s*(due|paid|charged|total)",                       10%Z);
    ("total",   "balance\s*(due|forward|totale?)?",                        8%Z);
    ("total",   "solde\s*(du|total|a\s*payer)?",                           8%Z);
    ("total",   "grand\s*total",                                           12%Z);
    ("total",   "total\s*(current\s*charges?|charges?\s*including\s*tax)", 9%Z);
    ("total",   "total\s*taxes?\s*(on|including)",                         2%Z);
    ("pre_tax", "sub\s*total",                                             8%Z);
    ("pre_tax", "sous[\s-]total",                                          8%Z);
    ("pre_tax", "before\s*tax",                                            8%Z);
    ("pre_tax", "net\s*(amount|total)?",                                   6%Z);
    ("pre_tax", "netto",                                                   6%Z);
    ("pre_tax", "monthly\s*charges?",                                      4%Z);
    ("gst",     "(gst|tps)\s*(included|in\s*this\s*bill|on\s*charges?)?",  10%Z);
    ("gst",     "(gst|tps)\s*@?\s*5\s*%?",                                 10%Z);
    ("gst",     "federal\s*tax",                                           6%Z);
    ("qst",     "(qst|tvq)\s*(included|in\s*this\s*bill|telecom)?",        10%Z);
    ("qst",     "(qst|tvq)\s*@?\s*9[.,]?975?\s*%?",                        10%Z);
    ("qst",     "provincial\s*tax",                                        6%Z);
    ("pst",     "pst\s*(@|tax)?",                                          8%Z);
    ("pst",     "rst\s*(@|tax)?",                                          6%Z);
    ("hst",     "hst\s*(tax|@)?",                                          8%Z) ].

Definition _COMPILED : list (string * re * Z) :=
  Eval vm_compute in
  map (fun '(field, pat, priority) => (field, compile ignorecase pat, priority))
      LABEL_PATTERNS.

(** *** Date patterns *)

Definition _DATE_CONFIRM : re :=
  Eval vm_compute in
  compile ignorecase
    ("(^bill\s*date|^invoice\s*date|^date\s*de\s*facturation|"
     ++ "^transaction|^purchased|^date\s*d'achat|"
     ++ "^date\b(?!\s*d'expir|\s*limite|\s*de\s*retour))").

Definition _DATE_REJECT : re :=
  Eval vm_compute in
  compile ignorecase
    ("(next|expir|valid\s*until|return|best\s*before|due\s*date|"
     ++ "prochaine|renouvellement|void\s*after|print)").

Definition FRENCH_MONTHS : list (string * Z) :=
  [ ("janvier", 1); ("fevrier", 2); ("février", 2); ("mars", 3);
    ("avril", 4); ("mai", 5); ("juin", 6); ("juillet", 7);
    ("aout", 8); ("août", 8); ("septembre", 9); ("octobre", 10);
    ("novembre", 11); ("decembre", 12); ("décembre", 12);
    ("janv", 1); ("févr", 2); ("fevr", 2); ("juil", 7); ("sept", 9) ]%Z.

Definition ENG_MONTHS : list (string * Z) :=
  [ ("january", 1); ("february", 2); ("march", 3); ("april", 4);
    ("may", 5); ("june", 6); ("july", 7); ("august", 8);
    ("september", 9); ("october", 10); ("november", 11); ("december", 12);
    ("jan", 1); ("feb", 2); ("mar", 3); ("apr", 4); ("jun", 6);
    ("jul", 7); ("aug", 8); ("sep", 9); ("oct", 10); ("nov", 11); ("dec", 12) ]%Z.

(** [{**FRENCH_MONTHS, **ENG_MONTHS}]: the two tables share no key. *)
Definition ALL_MONTHS : list (string * Z) := (FRENCH_MONTHS ++ ENG_MONTHS)%list.

Definition keys (A : Type) (d : list (string * A)) : list string := map fst d.

Definition DATE_FORMATS : list re :=
  Eval vm_compute in
  [ compile no_flags "\b(\d{4}[-/]\d{2}[-/]\d{2})\b";
    compile no_flags "\b(\d{1,2}[-/\.]\d{1,2}[-/\.]\d{4})\b";
    compile ignorecase
      ("\b(\d{1,2}\s+(?:" ++ join "|" (keys ALL_MONTHS) ++ ")\w*\.?\s*,?\s*\d{4})\b");
    compile ignorecase
      ("\b((?:" ++ join "|" (keys ENG_MONTHS) ++ ")\w*\.?\s+\d{1,2}\s*,?\s*\d{4})\b");
    compile ignorecase
      ("\b((?:le\s+)?\d{1,2}\s+(?:" ++ join "|" (keys FRENCH_MONTHS)
       ++ ")\w*\.?\s*,?\s*\d{4})\b") ].

Definition LE_PREFIX_RE : re := Eval vm_compute in compile no_flags "^le\s+".
Definition ISO_RE : re := Eval vm_compute in compile no_flags "^(\d{4})[-/](\d{2})[-/](\d{2})$".
Definition DMY_RE : re :=
  Eval vm_compute in compile no_flags "^(\d{1,2})[-/\.](\d{1,2})[-/\.](\d{4})$".
Definition NUMBER_RE : re := Eval vm_compute in compile no_flags "\d+".

(** [m.group(n)] of a group that took part in the match. *)
Definition grp (s : string) (m : mobj) (n : nat) : string :=
  match group s m n with Some g => g | None => "" end.

Definition int (s : string) : Z := int_of_digits (chars s).

Definition _parse_iso_date (s : string) : option string :=
  let s := lower (strip s) in
  let s := sub_prefix LE_PREFIX_RE s in
  match match_ ISO_RE s with
  | Some m => Some (grp s m 1 ++ "-" ++ grp s m 2 ++ "-" ++ grp s m 3)
  | None =>
      match match_ DMY_RE s with
      | Some m =>
          let a := int (grp s m 1) in
          let b := int (grp s m 2) in
          let y := int (grp s m 3) in
          if (12 <? a)%Z
          then Some (fmt_0d 4 y ++ "-" ++ fmt_0d 2 b ++ "-" ++ fmt_0d 2 a)
          else Some (fmt_0d 4 y ++ "-" ++ fmt_0d 2 a ++ "-" ++ fmt_0d 2 b)
      | None =>
          let numbers := findall NUMBER_RE s in
          let year := find (fun n => (String.length n =? 4)%nat) numbers in
          let days :=
            filter (fun n => negb (match year with
                                   | Some y => String.eqb n y
                                   | None => false
                                   end)
                             && (1 <=? int n)%Z && (int n <=? 31)%Z) numbers in
          match find (fun '(name, _) => contains name s) ALL_MONTHS with
          | Some (_, num) =>
              match year, days with
              | Some year, d :: _ =>
                  Some (year ++ "-" ++ fmt_0d 2 num ++ "-" ++ fmt_0d 2 (int d))
              | _, _ => None
              end
          | None => None
          end
      end
  end.

(** [datetime.strptime(iso, "%Y-%m-%d")]: the directive patterns of the
    standard library, the whole string consumed, and a day that exists. *)
Definition STRPTIME_RE : re :=
  Eval vm_compute in
  compile ignorecase
    "(\d\d\d\d)-(1[0-2]|0[1-9]|[1-9])-(3[0-1]|[1-2]\d|0[1-9]|[1-9]| [1-9])".

Definition is_leap (y : Z) : bool :=
  ((y mod 4 =? 0) && negb (y mod 100 =? 0) || (y mod 400 =? 0))%Z.

Definition days_in_month (y m : Z) : Z :=
  (if m =? 2 then (if is_leap y then 29 else 28)
   else if (m =? 4) || (m =? 6) || (m =? 9) || (m =? 11) then 30
   else 31)%Z.

Definition strptime (iso : string) : option (Z * Z * Z) :=
  match match_ STRPTIME_RE iso with
  | Some m =>
      let y := int (grp iso m 1) in
      let mo := int (grp iso m 2) in
      let d := int (strip (grp iso m 3)) in
      if (m_end m =? String.length iso)%nat && (1 <=? y)%Z && (d <=? days_in_month y mo)%Z
      then Some (y, mo, d)
      else None
  | None => None
  end.

Definition _valid_iso (iso : string) : bool :=
  match strptime iso with
  | Some (year, _, _) => ((2000 <=? year) && (year <=? 2035))%Z
  | None => false
  end.

(** *** Known vendors *)

Definition KNOWN_VENDORS : list (string * string) :=
  [ ("home depot", "Home Depot"); ("rona", "Rona"); ("canadian tire", "Canadian Tire");
    ("home hardware", "Home Hardware"); ("lowes", "Lowes"); ("lowe's", "Lowes");
    ("iga", "IGA"); ("metro", "Metro"); ("maxi", "Maxi"); ("super c", "Super C");
    ("loblaws", "Loblaws"); ("provigo", "Provigo"); ("walmart", "Walmart");
    ("costco", "Costco"); ("dollarama", "Dollarama"); ("giant tiger", "Giant Tiger");
    ("pharmaprix", "Pharmaprix"); ("shoppers", "Shoppers Drug Mart");
    ("jean coutu", "Jean Coutu"); ("uniprix", "Uniprix"); ("brunet", "Brunet");
    ("tim hortons", "Tim Hortons"); ("starbucks", "Starbucks");
    ("mcdonald", "McDonald's"); ("subway", "Subway"); ("a&w", "A&W");
    ("burger king", "Burger King"); ("pizza hut", "Pizza Hut");
    ("domino", "Domino's"); ("bk", "Burger King");
    ("virgin plus", "Virgin Plus"); ("virgin mobile", "Virgin Plus");
    ("bell", "Bell"); ("rogers", "Rogers"); ("telus", "Telus");
    ("videotron", "Videotron"); ("vidéotron", "Videotron");
    ("fido", "Fido"); ("koodo", "Koodo"); ("fizz", "Fizz");
    ("hydro-québec", "Hydro-Quebec"); ("hydro-quebec", "Hydro-Quebec");
    ("hydro québec", "Hydro-Quebec"); ("enbridge", "Enbridge");
    ("gaz metro", "Energir"); ("energir", "Energir");
    ("saq", "SAQ"); ("ikea", "IKEA"); ("best buy", "Best Buy");
    ("staples", "Staples"); ("winners", "Winners"); ("homesense", "HomeSense");
    ("simons", "Simons"); ("reitmans", "Reitmans");
    ("ville de montreal", "Ville de Montreal");
    ("ville de québec", "Ville de Quebec");
    ("gouvernement du québec", "Gouvernement du Quebec");
    ("revenu québec", "Revenu Quebec"); ("cra", "Canada Revenue Agency");
    ("service canada", "Service Canada");
    ("amazon", "Amazon"); ("apple", "Apple"); ("google", "Google");
    ("microsoft", "Microsoft"); ("adobe", "Adobe");
    ("ebay", "eBay"); ("paypal", "PayPal");
    ("etsy", "Etsy"); ("shopify", "Shopify") ].

Definition DOMAIN_VENDORS : list (string * string) :=
  [ ("virginplus.ca", "Virgin Plus"); ("virginmobile.ca", "Virgin Plus");
    ("bell.ca", "Bell"); ("bell.net", "Bell");
    ("rogers.com", "Rogers"); ("fido.ca", "Fido");
    ("telus.com", "Telus"); ("koodo.com", "Koodo");
    ("videotron.com", "Videotron"); ("videotron.ca", "Videotron");
    ("hydroquebec.com", "Hydro-Quebec");
    ("amazon.ca", "Amazon"); ("amazon.com", "Amazon");
    ("homedepot.ca", "Home Depot"); ("homedepot.com", "Home Depot");
    ("canadiantire.ca", "Canadian Tire");
    ("walmart.ca", "Walmart"); ("walmart.com", "Walmart");
    ("costco.ca", "Costco"); ("costco.com", "Costco");
    ("iga.net", "IGA"); ("metro.ca", "Metro");
    ("pharmaprix.ca", "Pharmaprix"); ("shoppersdrugmart.ca", "Shoppers Drug Mart");
    ("jeancoutu.com", "Jean Coutu");
    ("saq.com", "SAQ"); ("ikea.com", "IKEA");
    ("staples.ca", "Staples"); ("bestbuy.ca", "Best Buy");
    ("rona.ca", "Rona"); ("lowes.ca", "Lowes");
    ("ville.montreal.qc.ca", "Ville de Montreal");
    ("montreal.ca", "Ville de Montreal");
    ("revenuquebec.ca", "Revenu Quebec");
    ("canada.ca", "Government of Canada");
    ("ebay.ca", "eBay"); ("ebay.com", "eBay");
    ("paypal.com", "PayPal"); ("paypal.ca", "PayPal");
    ("etsy.com", "Etsy") ].

(** *** The parser's result dict *)

Record result : Type := mkResult {
  total   : option Q;
  gst     : option Q;
  qst     : option Q;
  pst     : option Q;
  hst     : option Q;
  pre_tax : option Q;
  date    : option string;
  vendor  : option string
}.

Definition empty_result : result :=
  mkResult None None None None None None None None.

(** [result.get(field)] for an amount field. *)
Definition get (r : result) (field : string) : option Q :=
  if String.eqb field "total" then total r
  else if String.eqb field "gst" then gst r
  else if String.eqb field "qst" then qst r
  else if String.eqb field "pst" then pst r
  else if String.eqb field "hst" then hst r
  else if String.eqb field "pre_tax" then pre_tax r
  else None.

(** [result[field] = v] for an amount field. *)
Definition set (r : result) (field : string) (v : option Q) : result :=
  if String.eqb field "total"
  then mkResult v (gst r) (qst r) (pst r) (hst r) (pre_tax r) (date r) (vendor r)
  else if String.eqb field "gst"
  then mkResult (total r) v (qst r) (pst r) (hst r) (pre_tax r) (date r) (vendor r)
  else if String.eqb field "qst"
  then mkResult (total r) (gst r) v (pst r) (hst r) (pre_tax r) (date r) (vendor r)
  else if String.eqb field "pst"
  then mkResult (total r) (gst r) (qst r) v (hst r) (pre_tax r) (date r) (vendor r)
  else if String.eqb field "hst"
  then mkResult (total r) (gst r) (qst r) (pst r) v (pre_tax r) (date r) (vendor r)
  else if String.eqb field "pre_tax"
  then mkResult (total r) (gst r) (qst r) (pst r) (hst r) v (date r) (vendor r)
  else r.

Definition set_date (r : result) (v : option string) : result :=
  mkResult (total r) (gst r) (qst r) (pst r) (hst r) (pre_tax r) v (vendor r).

Definition set_vendor (r : result) (v : option string) : result :=
  mkResult (total r) (gst r) (qst r) (pst r) (hst r) (pre_tax r) (date r) v.

(** Truth value of an optional float. *)
Definition truthy (v : option Q) : bool :=
  match v with
  | Some q => negb (Qeq_bool q 0)
  | None => false
  end.

Definition is_some (A : Type) (o : option A) : bool :=
  match o with Some _ => true | None => false end.

(** [list(enumerate(l))] *)
Fixpoint enumerate_from (A : Type) (i : Z) (l : list A) : list (Z * A) :=
  match l with
  | [] => []
  | x :: l' => (i, x) :: enumerate_from (i + 1)%Z l'
  end.

Definition enumerate (A : Type) (l : list A) : list (Z * A) := enumerate_from 0%Z l.

(** *** Main parser *)

Definition _clean_lines (text : string) : list string :=
  filter (fun line => negb (String.eqb line ""))
         (map strip (split "010"%char text)).

(** What [_clean_lines] keeps of a line. *)
Definition clean (line : string) : Prop :=
  line <> "" /\ strip line = line /\ no_nl (chars line).

Definition MARKETPLACE_SIGNALS : list (re * string) :=
  Eval vm_compute in
  map (fun '(pattern, canonical) => (compile no_flags pattern, canonical))
    [ ("ebay\.c|order\s+from\s+ebay|ebay\s+order|sold\s+on\s+ebay", "eBay");
      ("amazon\.c|fulfilled\s+by\s+amazon|sold\s+by.*amazon", "Amazon");
      ("paypal\.c|payment\s+via\s+paypal|paypal\s+receipt", "PayPal");
      ("etsy\.c|etsy\s+order|etsy\s+receipt", "Etsy") ].

Definition _BUYER_LABELS : re :=
  Eval vm_compute in
  compile ignorecase
    ("^(ship\s*to|bill\s*to|sold\s*to|deliver\s*to|buyer|customer|"
     ++ "livrer\s*(a|à)|factur[eé]\s*(a|à)|acheteur|nom\s*du\s*client)\s*[:\-]?\s*$").

Definition _BUYER_INLINE : re :=
  Eval vm_compute in
  compile ignorecase
    ("^(ship\s*to|bill\s*to|sold\s*to|deliver\s*to|buyer|customer"
     ++ "|livrer|factur[eé]|acheteur)\s*[:\-]").

Definition NUMERIC_LINE_RE : re := Eval vm_compute in compile no_flags "^[\d\s\-\(\)\+\.]+$".
Definition STREET_NUMBER_RE : re := Eval vm_compute in compile no_flags "^\d+\s+\w".
Definition METADATA_RE : re :=
  Eval vm_compute in
  compile ignorecase "(receipt|reçu|facture|invoice|bill|date|tel:|www\.|http)".

(** The loop over [lines[:8]]; [skip_next] is set after a buyer label. *)
Fixpoint first_line_heuristic (skip_next : bool) (lines : list string) : M (option string) :=
  match lines with
  | [] => ret None
  | line :: lines' =>
      let stripped := _strip_accents (strip line) in
      if skip_next then
        log DEBUG ("Skipping buyer name line: '" ++ stripped ++ "'") ;;;
        first_line_heuristic false lines'
      else if is_some (match_ _BUYER_LABELS stripped) then
        first_line_heuristic true lines'
      else if is_some (match_ _BUYER_INLINE stripped) then
        log DEBUG ("Skipping inline buyer line: '" ++ stripped ++ "'") ;;;
        first_line_heuristic false lines'
      else if is_some (match_ NUMERIC_LINE_RE stripped) then
        first_line_heuristic false lines'
      else if is_some (match_ STREET_NUMBER_RE stripped) then
        first_line_heuristic false lines'
      else if (String.length stripped <? 3)%nat then
        first_line_heuristic false lines'
      else if found METADATA_RE stripped then
        first_line_heuristic false lines'
      else
        log DEBUG ("Vendor from first-line heuristic: '" ++ stripped ++ "'") ;;;
        ret (Some (if isupper stripped then title stripped else stripped))
  end.

Definition _extract_vendor (lines : list string) (full_text : string) : M (option string) :=
  match find (fun '(domain, _) => contains domain (lower full_text)) DOMAIN_VENDORS with
  | Some (domain, vendor) =>
      log DEBUG ("Vendor from domain '" ++ domain ++ "': " ++ vendor) ;;;
      ret (Some vendor)
  | None =>
      let top_text := lower (join " " (firstn 10 lines)) in
      let top_text := _strip_accents top_text in
      match find (fun '(key, _) => contains (_strip_accents key) top_text) KNOWN_VENDORS with
      | Some (key, canonical) =>
          log DEBUG ("Vendor from known list '" ++ key ++ "': " ++ canonical) ;;;
          ret (Some canonical)
      | None =>
          let full_lower := _strip_accents (lower full_text) in
          match find (fun '(pattern, _) => found pattern full_lower) MARKETPLACE_SIGNALS with
          | Some (_, canonical) =>
              log DEBUG ("Marketplace detected via text signal: " ++ canonical) ;;;
              ret (Some canonical)
          | None => first_line_heuristic false (firstn 8 lines)
          end
      end
  end.

(** A date candidate: (iso, score, line index). *)
Definition candidate : Type := (string * Z * Z)%type.

Definition CLOCK_RE : re := Eval vm_compute in compile no_flags "\d{1,2}:\d{2}".

Definition score_of (total_lines : Z) (idx : Z) (line stripped : string) : Z :=
  let score := 0%Z in
  let score := if found _DATE_CONFIRM stripped then (score + 10)%Z else score in
  let score := if found CLOCK_RE line then (score + 5)%Z else score in
  let score := if Qlt_bool (inject_Z idx) (inject_Z total_lines * 0.4)
               then (score + 2)%Z else score in
  score.

(** The candidates one line contributes. *)
Definition line_candidates (total_lines : Z) (idx : Z) (line : string) : list candidate :=
  let line_lower := lower line in
  let stripped := _strip_accents line_lower in
  if found _DATE_REJECT stripped then []
  else
    flat_map (fun pattern =>
      flat_map (fun m =>
        match _parse_iso_date (grp line m 1) with
        | Some iso =>
            if _valid_iso iso
            then [(iso, score_of total_lines idx line stripped, idx)]
            else []
        | None => []
        end) (finditer pattern line)) DATE_FORMATS.

Definition date_candidates (lines : list string) : list candidate :=
  let total_lines := Z.max (Z.of_nat (List.length lines)) 1 in
  flat_map (fun '(idx, line) => line_candidates total_lines idx line) (enumerate lines).

(** The sort key [(-x[1], x[2])] and its order. *)
Definition sort_key (x : candidate) : Z * Z :=
  let '(_, score, idx) := x in ((- score)%Z, idx).

Definition key_le (a b : Z * Z) : bool :=
  ((fst a <? fst b) || ((fst a =? fst b) && (snd a <=? snd b)))%Z.

(** [list.sort(key=...)]: stable. *)
Fixpoint insert (x : candidate) (l : list candidate) : list candidate :=
  match l with
  | [] => [x]
  | y :: l' =>
      if key_le (sort_key x) (sort_key y) then x :: y :: l'
      else y :: insert x l'
  end.

Definition sort (l : list candidate) : list candidate := fold_right insert [] l.

Definition str_int (n : Z) : string := fmt_0d 0 n.

Definition repr_candidate (x : candidate) : string :=
  let '(iso, score, idx) := x in
  "('" ++ iso ++ "', " ++ str_int score ++ ", " ++ str_int idx ++ ")".

Definition repr_candidates (l : list candidate) : string :=
  "[" ++ join ", " (map repr_candidate l) ++ "]".

Definition _extract_date (lines : list string) : M (option string) :=
  let candidates := date_candidates lines in
  match sort candidates with
  | [] => ret None
  | best :: others =>
      (match others with
       | [] => ret tt
       | _ :: _ =>
           log DEBUG ("Date candidates: " ++ repr_candidates (best :: others)
                      ++ " → chose " ++ fst (fst best))
       end) ;;;
      ret (Some (fst (fst best)))
  end.

(** An amount anchor: (amount, priority, line index). *)
Definition anchor : Type := (Q * Z * Z)%type.

Definition amount (a : anchor) : Q := fst (fst a).
Definition priority (a : anchor) : Z := snd (fst a).
Definition line_idx (a : anchor) : Z := snd a.

(** [found.setdefault(field, []).append(a)] *)
Fixpoint setdefault_append (found : list (string * list anchor)) (field : string) (a : anchor)
  : list (string * list anchor) :=
  match found with
  | [] => [(field, [a])]
  | (f, l) :: rest =>
      if String.eqb f field then (f, (l ++ [a])%list) :: rest
      else (f, l) :: setdefault_append rest field a
  end.

(** The body of the loop over the compiled patterns: one rule tried on one
    line, whose accent-stripped lower-case form is [clean]. *)
Definition scan_rule (idx : Z) (line clean : string)
           (found : list (string * list anchor)) (rule : string * re * Z)
  : list (string * list anchor) :=
  let '(field, pattern, priority) := rule in
  if negb (Regex.found pattern clean) then found
  else
    match _parse_amount line with
    | Some amount =>
        if negb (Qeq_bool amount 0) && Qlt_bool 0 amount
        then setdefault_append found field (amount, priority, idx)
        else found
    | None => found
    end.

(** The body of the loop over the lines. *)
Definition scan_line (idx : Z) (line : string) (found : list (string * list anchor))
  : list (string * list anchor) :=
  let clean := _strip_accents (strip (lower line)) in
  fold_left (scan_rule idx line clean) _COMPILED found.

(** The [found] dict of [_extract_amounts]: every anchor, per field. *)
Definition anchors (lines : list string) : list (string * list anchor) :=
  fold_left (fun found '(idx, line) => scan_line idx line found) (enumerate lines) [].

(** [max(l, key=...)]: the first element no later one beats. *)
Definition py_max (A : Type) (gt : A -> A -> bool) (x : A) (l : list A) : A :=
  fold_left (fun best y => if gt y best then y else best) l x.

Definition key_taxes_gt (a b : anchor) : bool :=
  ((priority b <? priority a)
   || ((priority a =? priority b) && (- line_idx b <? - line_idx a)))%Z.

Definition resolve (field : string) (matches : list anchor) : option Q :=
  match matches with
  | [] => None
  | m0 :: ms =>
      if String.eqb field "total" then
        let best_priority := py_max Z.gtb (priority m0) (map priority ms) in
        let best_matches := filter (fun m => (priority m =? best_priority)%Z) matches in
        match best_matches with
        | [] => None
        | b0 :: bs =>
            let best := py_max (fun a b => (line_idx b <? line_idx a)%Z) b0 bs in
            Some (amount best)
        end
      else
        let best := py_max key_taxes_gt m0 ms in
        Some (amount best)
  end.

Definition _extract_amounts (lines : list string) : list (string * Q) :=
  flat_map (fun '(field, matches) =>
              match resolve field matches with
              | Some v => [(field, v)]
              | None => []
              end) (anchors lines).

(** How an f-string prints a float with at most two decimals that is not
    negative. *)
Definition float_str (q : Q) : string :=
  let c := round_half_even (q * 100) in
  let frac := (c mod 100)%Z in
  str_int (c / 100)%Z ++ "."
  ++ (if (frac mod 10 =? 0)%Z then str_int (frac / 10)%Z else fmt_0d 2 frac).

Definition show_float (v : option Q) : string :=
  match v with Some q => float_str q | None => "None" end.

Definition show_str (v : option string) : string :=
  match v with Some s => s | None => "None" end.

Definition parse (text : string) : M result :=
  let lines := _clean_lines text in
  let result := empty_result in
  vendor_ <- _extract_vendor lines text ;;
  let result := set_vendor result vendor_ in
  date_ <- _extract_date lines ;;
  let result := set_date result date_ in
  let amounts := _extract_amounts lines in
  let result := fold_left (fun r '(field, value) => set r field (Some value))
                          amounts result in
  let total_ := get result "total" in
  let result :=
    if truthy total_ then
      fold_left (fun r tax =>
                   let v := get r tax in
                   if truthy v && Qle_bool (match total_ with Some t => t | None => 0 end)
                                           (match v with Some x => x | None => 0 end)
                   then set r tax None
                   else r)
                ["gst"; "qst"; "pst"; "hst"] result
    else result in
  log INFO ("Deterministic: vendor=" ++ show_str (vendor result)
            ++ " date=" ++ show_str (date result)
            ++ " total=" ++ show_float (total result)
            ++ " gst=" ++ show_float (gst result)
            ++ " qst=" ++ show_float (qst result)
            ++ " pst=" ++ show_float (pst result)
            ++ " hst=" ++ show_float (hst result)
            ++ " pre_tax=" ++ show_float (pre_tax result)) ;;;
  ret result.

(** *** Vocabulary for stating what the parser resolves *)

(** The anchors of a [found] dict, as (field, anchor) pairs. *)
Definition entries (found : list (string * list anchor)) : list (string * anchor) :=
  flat_map (fun '(f, ms) => map (fun m => (f, m)) ms) found.

(** The anchor [a] of [field] is a label match of the lines: its line
    carries a label of the field with the anchor's priority, and the amount
    parsed from that line is positive. *)
Definition label_match (lines : list string) (field : string) (a : anchor) : Prop :=
  exists line pattern,
    (0 <= line_idx a)%Z
    /\ nth_error lines (Z.to_nat (line_idx a)) = Some line
    /\ In (field, pattern, priority a) _COMPILED
    /\ Regex.found pattern (_strip_accents (strip (lower line))) = true
    /\ _parse_amount line = Some (amount a)
    /\ 0 < amount a.

(** The head of a list of candidates is below every element, in the order
    of the sort key. *)
Definition head_least (l : list candidate) : Prop :=
  match l with
  | [] => True
  | b :: _ => forall y, In y l -> key_le (sort_key b) (sort_key y) = true
  end.

(** The line carries a label of the not-a-transaction-date vocabulary. *)
Definition rejected (line : string) : bool :=
  Regex.found _DATE_REJECT (_strip_accents (lower line)).

(** The date [iso] stands on the line: one of the layouts matches there, the
    matched text parses to [iso], and [iso] is a day that exists, between
    2000 and 2035. *)
Definition date_on_line (line iso : string) : Prop :=
  exists pattern m,
    In pattern DATE_FORMATS
    /\ In m (finditer pattern line)
    /\ _parse_iso_date (grp line m 1) = Some iso
    /\ _valid_iso iso = true.

(** The score of a date on line [idx] of [lines]. *)
Definition line_score (lines : list string) (idx : Z) (line : string) : Z :=
  score_of (Z.max (Z.of_nat (List.length lines)) 1) idx line (_strip_accents (lower line)).

(** Every field of the dict has anchors, and appears once. *)
Definition well_formed (found : list (string * list anchor)) : Prop :=
  NoDup (map fst found) /\ forall f l, In (f, l) found -> l <> [].

(** What one label rule adds for one line. *)
Definition rule_adds (idx : Z) (line : string) (rule : string * re * Z)
           (x : string * anchor) : Prop :=
  let '(field, pattern, priority) := rule in
  exists amount,
    x = (field, (amount, priority, idx))
    /\ Regex.found pattern (_strip_accents (strip (lower line))) = true
    /\ _parse_amount line = Some amount
    /\ 0 < amount.

(** [amounts.get(field)] *)
Definition amounts_get (field : string) (amounts : list (string * Q)) : option Q :=
  fold_left (fun acc '(f, v) => if String.eqb f field then Some v else acc) amounts None.

(** What the sanity pass of [parse] leaves of a tax value [v] beside the
    total [t]. *)
Definition sane_tax (t v : option Q) : option Q :=
  if truthy t && truthy v
     && Qle_bool (match t with Some x => x | None => 0 end)
                 (match v with Some x => x | None => 0 end)
  then None else v.

Definition AMOUNT_FIELDS : list string :=
  ["total"; "pre_tax"; "gst"; "qst"; "pst"; "hst"].

Definition TAX_FIELDS : list string := ["gst"; "qst"; "pst"; "hst"].

(** *** The amounts of the grammar, as text *)

(** The number of the amount grammar: one to six digits, a period or a
    comma, two digits. *)
Definition NUMBER (ic : bool) : re :=
  Seq (Rep 1 6 (Chr (mkClass false [Digit] ic)))
      (Seq (Chr (mkClass false [One "."%char; One ","%char] ic))
           (times 2 (Chr (mkClass false [Digit] ic)))).

(** The amount [v] is written in [s]: somewhere in [s] stand one to six
    digits, a period or a comma and two digits, and [v] is that number. *)
Definition written (s : string) (v : Q) : Prop :=
  exists pre ds sep e1 e2 post,
    chars s = (pre ++ ds ++ sep :: e1 :: e2 :: post)%list
    /\ (1 <= List.length ds <= 6)%nat
    /\ Forall (fun c => is_digit c = true) ds
    /\ (sep = "."%char \/ sep = ","%char)
    /\ is_digit e1 = true /\ is_digit e2 = true
    /\ (v == inject_Z (int_of_digits ds) + inject_Z (int_of_digits [e1; e2]) / 100)%Q.

(** [w] is a number of the grammar, and a piece of [l]. *)
Definition number_text (l w : list ascii) : Prop :=
  exists pre ds sep e1 e2 post,
    w = (ds ++ [sep; e1; e2])%list
    /\ l = (pre ++ w ++ post)%list
    /\ (1 <= List.length ds <= 6)%nat
    /\ Forall (fun x => is_digit x = true) ds
    /\ (sep = "."%char \/ sep = ","%char)
    /\ is_digit e1 = true /\ is_digit e2 = true.

(** *** Dates, as text *)

(** The directive patterns of [strptime] for [%Y], [%m] and [%d]. *)
Definition DIRECTIVE_Y : re := Eval vm_compute in compile ignorecase "\d\d\d\d".
Definition DIRECTIVE_m : re := Eval vm_compute in compile ignorecase "1[0-2]|0[1-9]|[1-9]".
Definition DIRECTIVE_d : re :=
  Eval vm_compute in compile ignorecase "3[0-1]|[1-2]\d|0[1-9]|[1-9]| [1-9]".
Definition HYPHEN : re := Eval vm_compute in compile ignorecase "-".

(** [iso] reads year-month-day, the year of four digits, and names a day
    that exists, from 2000 to 2035. *)
Definition calendar_day (iso : string) : Prop :=
  exists wy wm wd : list ascii,
    chars iso = (wy ++ "-"%char :: wm ++ "-"%char :: wd)%list
    /\ List.length wy = 4%nat
    /\ (1 <= List.length wm <= 2)%nat
    /\ (1 <= List.length wd <= 2)%nat
    /\ (2000 <= int_of_digits wy <= 2035)%Z
    /\ (1 <= int_of_digits wm <= 12)%Z
    /\ (1 <= int (strip (str wd)) <= days_in_month (int_of_digits wy) (int_of_digits wm))%Z.

End DeterministicParser.

(** ** The vocabularies of the date rules, as plain text

    [_DATE_REJECT], [_DATE_CONFIRM] and the clock pattern of
    [_extract_date], said without patterns: which words a line has to carry. *)

Module DateLabels.

Import Text Regex.
Open Scope char_scope.
Open Scope string_scope.

(** The text [l] opens with the word [w], in upper or lower case; what
    follows the word. *)
Fixpoint word_at (w l : list ascii) : option (list ascii) :=
  match w, l with
  | [], _ => Some l
  | a :: w', x :: l' => if Ascii.eqb (lower_char x) a then word_at w' l' else None
  | _ :: _, [] => None
  end.

(** The words [ws] follow one another from [l] on, each after white space
    or none; what follows the last. *)
Fixpoint words_at (ws : list string) (l : list ascii) : option (list ascii) :=
  match ws with
  | [] => Some l
  | w :: ws' =>
      match word_at (chars w) (lstrip_chars l) with
      | Some l' => words_at ws' l'
      | None => None
      end
  end.

Definition is_some {A : Type} (o : option A) : bool :=
  match o with Some _ => true | None => false end.

(** The text opens with the label: its first word at once, the others
    after white space or none. *)
Definition label_at (label : list string) (l : list ascii) : bool :=
  match label with
  | [] => true
  | w :: ws =>
      match word_at (chars w) l with
      | Some l' => is_some (words_at ws l')
      | None => false
      end
  end.

(** The label stands somewhere in the text. *)
Fixpoint label_in (label : list string) (l : list ascii) : bool :=
  label_at label l
  || match l with
     | _ :: l' => label_in label l'
     | [] => false
     end.

(** The labels of a date that is not the transaction's: next bill, expiry,
    validity, return, best before, due date, renewal, void after, print. *)
Definition NOT_TRANSACTION_LABELS : list (list string) :=
  [ ["next"]; ["expir"]; ["valid"; "until"]; ["return"]; ["best"; "before"];
    ["due"; "date"]; ["prochaine"]; ["renouvellement"]; ["void"; "after"];
    ["print"] ].

(** The line, lower-cased and without accents, carries one of them. *)
Definition names_other_date (stripped : string) : bool :=
  existsb (fun label => label_in label (chars stripped)) NOT_TRANSACTION_LABELS.

(** The labels that confirm the date of the transaction, when the line
    opens with them. *)
Definition TRANSACTION_LABELS : list (list string) :=
  [ ["bill"; "date"]; ["invoice"; "date"]; ["date"; "de"; "facturation"];
    ["transaction"]; ["purchased"]; ["date"; "d'achat"] ].

(** What may not follow a bare "date". *)
Definition OTHER_DATE_WORDS : list (list string) :=
  [ ["d'expir"]; ["limite"]; ["de"; "retour"] ].

(** The line opens with the word "date" on its own: no letter, digit or
    underscore right after it, and none of the words of another date. *)
Definition bare_date (l : list ascii) : bool :=
  match word_at (chars "date") l with
  | Some l' =>
      negb (match l' with x :: _ => is_word x | [] => false end)
      && negb (existsb (fun ws => is_some (words_at ws l')) OTHER_DATE_WORDS)
  | None => false
  end.

(** The line, lower-cased and without accents, opens with a label of the
    transaction date. *)
Definition opens_with_label (stripped : string) : bool :=
  existsb (fun label => label_at label (chars stripped)) TRANSACTION_LABELS
  || bare_date (chars stripped).

(** A digit, a colon and two digits open the text. *)
Definition time_at (l : list ascii) : bool :=
  match l with
  | d1 :: c :: d2 :: d3 :: _ =>
      is_digit d1 && Ascii.eqb c ":" && is_digit d2 && is_digit d3
  | _ => false
  end.

(** A clock time stands on the line. *)
Fixpoint has_clock_chars (l : list ascii) : bool :=
  time_at l
  || match l with
     | _ :: l' => has_clock_chars l'
     | [] => false
     end.

Definition has_clock (line : string) : bool := has_clock_chars (chars line).

(** A clock time opens the text: a digit or two, a colon, two digits. *)
Definition clock_at (l : list ascii) : bool :=
  time_at l
  || match l with
     | d :: l' => is_digit d && time_at l'
     | [] => false
     end.

(** *** The patterns the vocabularies stand for *)

Definition letter (a : ascii) : re := single ignorecase (One a).

Definition blanks : re := Star (single ignorecase Space).

Fixpoint chain (rs : list re) : re :=
  match rs with
  | [] => Eps
  | [r] => r
  | r :: rs' => Seq r (chain rs')
  end.

Fixpoint alternatives (rs : list re) : re :=
  match rs with
  | [] => never
  | [r] => r
  | r :: rs' => Alt r (alternatives rs')
  end.

Definition word_tokens (w : string) : list re := map letter (chars w).

Fixpoint words_tokens (ws : list string) : list re :=
  match ws with
  | [] => []
  | w :: ws' => blanks :: (word_tokens w ++ words_tokens ws')%list
  end.

Definition label_tokens (label : list string) : list re :=
  match label with
  | [] => []
  | w :: ws => (word_tokens w ++ words_tokens ws)%list
  end.

(** A word of a vocabulary: not empty, no capital letter, no white space. *)
Definition plain_char (a : ascii) : bool := negb (is_upper a) && negb (is_space a).

Definition plain_word (w : string) : bool :=
  match chars w with
  | [] => false
  | l => forallb plain_char l
  end.

End DateLabels.

(** ** [services/receipt_parser.py] *)

Module ReceiptPostProcessor.

Import Num.
Open Scope Q_scope.
Open Scope string_scope.

(** The receipt dict, restricted to the keys the validator reads. *)
Record receipt : Type := mkReceipt {
  vendor     : option string;
  date       : option string;
  total      : option Q;
  pre_tax    : option Q;
  gst        : option Q;
  pst        : option Q;
  hst        : option Q;
  qst        : option Q;
  confidence : option Q
}.

Definition set_pre_tax (d : receipt) (v : option Q) : receipt :=
  mkReceipt (vendor d) (date d) (total d) v (gst d) (pst d) (hst d) (qst d) (confidence d).

Definition set_total (d : receipt) (v : option Q) : receipt :=
  mkReceipt (vendor d) (date d) v (pre_tax d) (gst d) (pst d) (hst d) (qst d) (confidence d).

(** Truth value of [data.get(key)] for a string field. *)
Definition truthy_str (v : option string) : bool :=
  match v with
  | Some s => negb (String.eqb s "")
  | None => false
  end.

Definition MATH_TOLERANCE : Q := 0.15.
Definition MAX_TAX_RATIO : Q := 0.50.

(** [max(0.0, float(v or 0))] *)
Definition _to_float (v : option Q) : Q :=
  Qmax 0 (match v with Some q => q | None => 0 end).

(** Every amount of the record is a whole number of cents, as [_sanitize]
    and the deterministic parser leave them. *)
Definition amounts_in_cents (d : receipt) : bool :=
  is_cents (_to_float (total d)) && is_cents (_to_float (pre_tax d))
  && is_cents (_to_float (gst d)) && is_cents (_to_float (pst d))
  && is_cents (_to_float (hst d)) && is_cents (_to_float (qst d)).

(** Every amount of the record is below [bound]. *)
Definition amounts_below (bound : Q) (d : receipt) : bool :=
  Qlt_bool (_to_float (total d)) bound && Qlt_bool (_to_float (pre_tax d)) bound
  && Qlt_bool (_to_float (gst d)) bound && Qlt_bool (_to_float (pst d)) bound
  && Qlt_bool (_to_float (hst d)) bound && Qlt_bool (_to_float (qst d)) bound.

(** The confidence is there, lies between 0 and 1 and has at most two
    decimals, as [_sanitize] and the callers that build a record leave it. *)
Definition confidence_in_hundredths (d : receipt) : bool :=
  match confidence d with
  | Some c => is_cents c && Qle_bool 0 c && Qle_bool c 1
  | None => false
  end.

(** [warnings.append(w)] *)
Definition append (warnings : list string) (w : string) : list string :=
  (warnings ++ [w])%list.

Section Formatting.

(** How Python prints a float in an f-string: [{x}] and [{x:.2f}]. *)
Variable float_str : Q -> string.
Variable float_fmt2 : Q -> string.

(** The floats are read as exact rationals.  On whole-cent amounts the
    computation on doubles takes the same branches, except when [diff] is
    one of the two thresholds itself: there the doubles decide by their
    rounding error, which the rationals do not have. *)
Definition _validate_math (data : receipt) (warnings : list string)
  : receipt * list string :=
  let total_ := _to_float (total data) in
  let pre_tax_ := _to_float (pre_tax data) in
  let gst_ := _to_float (gst data) in
  let pst_ := _to_float (pst data) in
  let hst_ := _to_float (hst data) in
  let qst_ := _to_float (qst data) in
  let tax_sum := round (gst_ + pst_ + hst_ + qst_) 2 in
  let '(data, warnings) :=
    if Qlt_bool 0 total_ && Qlt_bool 0 pre_tax_ then
      let computed := round (pre_tax_ + tax_sum) 2 in
      let diff := Qabs (computed - total_) in
      if Qle_bool diff MATH_TOLERANCE then (data, warnings)
      else if Qle_bool diff 2.0 then
        let new_pre_tax := round (total_ - tax_sum) 2 in
        (set_pre_tax data (Some new_pre_tax),
         append warnings ("MATH_ADJUSTED_PRETAX:" ++ float_str pre_tax_ ++ "→"
                            ++ float_str new_pre_tax))
      else
        (data,
         append warnings ("MATH_MISMATCH:pre_tax=" ++ float_str pre_tax_ ++ "+tax="
                            ++ float_fmt2 tax_sum ++ "≠total=" ++ float_str total_
                            ++ " (diff=" ++ float_fmt2 diff ++ ")"))
    else if Qlt_bool 0 total_ && Qeq_bool pre_tax_ 0 && Qlt_bool 0 tax_sum then
      let inferred := round (total_ - tax_sum) 2 in
      if Qlt_bool 0 inferred && Qlt_bool inferred total_ then
        (set_pre_tax data (Some inferred),
         append warnings ("MATH_INFERRED_PRETAX:" ++ float_str inferred))
      else (data, warnings)
    else if Qlt_bool 0 pre_tax_ && Qeq_bool total_ 0 then
      let new_total := round (pre_tax_ + tax_sum) 2 in
      (set_total data (Some new_total),
       append warnings ("MATH_INFERRED_TOTAL:" ++ float_str new_total))
    else (data, warnings) in
  if Qle_bool (_to_float (total data)) 0
  then (data, append warnings "MATH_MISSING_TOTAL")
  else (data, warnings).

End Formatting.

(** The [penalties] dict, in insertion order. *)
Definition penalties : list (string * Q) :=
  [ ("DATE_MISSING",       0.15);
    ("DATE_PARSE_FAILED",  0.10);
    ("MATH_MISMATCH",      0.20);
    ("MATH_MISSING_TOTAL", 0.25);
    ("OCR_UNPARSEABLE",    0.15);
    ("TAX_SANITY",         0.10) ].

(** The inner loop: the first key the warning starts with is charged, then
    [break]. *)
Fixpoint charge (base : Q) (warning : string) (items : list (string * Q)) : Q :=
  match items with
  | [] => base
  | (key, penalty) :: rest =>
      if String.prefix key warning then base - penalty
      else charge base warning rest
  end.

(** The floats are read as exact rationals.  When the confidence has at
    most two decimals every intermediate value is a multiple of 0.01, far
    from the ties of the third decimal, and the doubles round to the same
    result; for other confidences they need not.  The [None] of the record
    is the absent key, which [get] replaces by 0.5. *)
Definition _adjust_confidence (data : receipt) (warnings : list string) : Q :=
  let base := match confidence data with Some c => c | None => 0.5 end in
  let base := fold_left (fun b warning => charge b warning penalties) warnings base in
  let base := if truthy_str (vendor data) then base + 0.05 else base in
  let base := if truthy_str (date data) then base + 0.05 else base in
  let base := if Qlt_bool 0 (_to_float (total data)) then base + 0.05 else base in
  let base := if existsb (fun t => Qlt_bool 0 (_to_float t))
                         [gst data; hst data; qst data]
              then base + 0.05 else base in
  round (Qmax 0.0 (Qmin 1.0 base)) 3.

(** Vocabulary for stating what the confidence is. *)

Definition base_score (data : receipt) : Q :=
  match confidence data with Some c => c | None => 0.5 end.

(** How many warnings carry the code [key]. *)
Definition occurrences (key : string) (warnings : list string) : nat :=
  List.length (filter (String.prefix key) warnings).

(** What the categories cost one warning. *)
Definition hits (w : string) : Q :=
  fold_right (fun '(key, penalty) acc =>
                penalty * (if String.prefix key w then 1 else 0) + acc)
             0 penalties.

(** Every category charged once per warning that carries its code. *)
Definition penalty_total (warnings : list string) : Q :=
  fold_right (fun '(key, penalty) acc =>
                penalty * inject_Z (Z.of_nat (occurrences key warnings)) + acc)
             0 penalties.

Definition bonus (b : bool) : Q := if b then 0.05 else 0.

Definition positive (v : option Q) : bool := Qlt_bool 0 (_to_float v).

Definition any_tax (data : receipt) : bool :=
  existsb positive [gst data; pst data; hst data; qst data].

(** The PST is the only tax of the record. *)
Definition pst_alone (data : receipt) : bool :=
  positive (pst data)
  && negb (positive (gst data) || positive (hst data) || positive (qst data)).

Definition bonuses (data : receipt) : Q :=
  bonus (truthy_str (vendor data)) + bonus (truthy_str (date data))
  + bonus (positive (total data)) + bonus (any_tax data).

(** The confidence in the words of the specification: a category of
    warnings costs its penalty once however many warnings carry it, and any
    of the four taxes earns the tax bonus. *)
Definition confidence_as_specified (data : receipt) (warnings : list string) : Q :=
  let base := base_score data in
  let base := fold_left (fun b '(key, penalty) =>
                           if existsb (String.prefix key) warnings
                           then b - penalty else b)
                        penalties base in
  Qmax 0 (Qmin 1 (base + bonuses data)).

(** *** Tax sanity *)

(** [data.get(field)] and [data[field] = v] for an amount field. *)
Definition get (d : receipt) (field : string) : option Q :=
  if String.eqb field "total" then total d
  else if String.eqb field "gst" then gst d
  else if String.eqb field "qst" then qst d
  else if String.eqb field "pst" then pst d
  else if String.eqb field "hst" then hst d
  else if String.eqb field "pre_tax" then pre_tax d
  else None.

Definition set (d : receipt) (field : string) (v : option Q) : receipt :=
  if String.eqb field "total"
  then mkReceipt (vendor d) (date d) v (pre_tax d) (gst d) (pst d) (hst d) (qst d) (confidence d)
  else if String.eqb field "gst"
  then mkReceipt (vendor d) (date d) (total d) (pre_tax d) v (pst d) (hst d) (qst d) (confidence d)
  else if String.eqb field "qst"
  then mkReceipt (vendor d) (date d) (total d) (pre_tax d) (gst d) (pst d) (hst d) v (confidence d)
  else if String.eqb field "pst"
  then mkReceipt (vendor d) (date d) (total d) (pre_tax d) (gst d) v (hst d) (qst d) (confidence d)
  else if String.eqb field "hst"
  then mkReceipt (vendor d) (date d) (total d) (pre_tax d) (gst d) (pst d) v (qst d) (confidence d)
  else if String.eqb field "pre_tax"
  then mkReceipt (vendor d) (date d) (total d) v (gst d) (pst d) (hst d) (qst d) (confidence d)
  else d.

Definition FIELDS : list string := ["total"; "pre_tax"; "gst"; "pst"; "hst"; "qst"].

(** The taxes, in the order [_sanitize_tax_values] visits them. *)
Definition TAXES : list string := ["gst"; "pst"; "hst"; "qst"].

Section TaxSanity.

Variable float_fmt2 : Q -> string.

(** One turn of the loop of [_sanitize_tax_values]. *)
Definition sanitize_step (total_ : Q) (acc : receipt * list string) (field : string)
  : receipt * list string :=
  let '(data, warnings) := acc in
  let val := _to_float (get data field) in
  if Qle_bool val 0 then (data, warnings)
  else if Qlt_bool 0 total_ && Qle_bool total_ val then
    (set data field (Some 0.0),
     append warnings ("TAX_SANITY_ZEROED:" ++ field ++ "=" ++ float_fmt2 val
                      ++ "≥total=" ++ float_fmt2 total_))
  else if Qlt_bool 0 total_ && Qlt_bool (MAX_TAX_RATIO * total_) val then
    (set data field (Some 0.0),
     append warnings ("TAX_SANITY_CAPPED:" ++ field ++ "=" ++ float_fmt2 val
                      ++ ">50%_of_" ++ float_fmt2 total_))
  else (data, warnings).

Definition _sanitize_tax_values (data : receipt) (warnings : list string)
  : receipt * list string :=
  let total_ := _to_float (total data) in
  fold_left (sanitize_step total_) TAXES (data, warnings).

End TaxSanity.

(** The bonuses as [_adjust_confidence] counts them. *)
Definition counted_bonuses (data : receipt) : Q :=
  bonus (truthy_str (vendor data)) + bonus (truthy_str (date data))
  + bonus (positive (total data))
  + bonus (existsb (fun t => Qlt_bool 0 (_to_float t)) [gst data; hst data; qst data]).

(** [_math_valid] of [process]: no warning starts with MATH_MISMATCH. *)
Definition math_valid (warnings : list string) : bool :=
  negb (existsb (String.prefix "MATH_MISMATCH") warnings).

(** *** Vendor from a domain name *)

Import Text Logging.
Open Scope Q_scope.
Open Scope string_scope.

(** Domain name to canonical vendor name, in the order of the source. *)
Definition DOMAIN_VENDOR_MAP : list (string * string) :=
  [
    ("virginplus.ca", "Virgin Plus");
    ("virginmobile.ca", "Virgin Plus");
    ("bell.ca", "Bell");
    ("rogers.com", "Rogers");
    ("fido.ca", "Fido");
    ("telus.com", "TELUS");
    ("koodo", "Koodo");
    ("videotron.com", "Vidéotron");
    ("hydroquebec.com", "Hydro-Québec");
    ("hydro.qc.ca", "Hydro-Québec");
    ("hydro.on.ca", "Hydro One");
    ("enbridge.com", "Enbridge Gas");
    ("amazon.ca", "Amazon");
    ("amazon.com", "Amazon");
    ("paypal.com", "PayPal");
    ("homedepot.ca", "Home Depot");
    ("canadiantire.ca", "Canadian Tire");
    ("ikea.com", "IKEA");
    ("costco.ca", "Costco");
    ("walmart.ca", "Walmart");
    ("bestbuy.ca", "Best Buy");
    ("staples.ca", "Staples");
    ("dollarama.com", "Dollarama");
    ("rona.ca", "Rona");
    ("lowes.ca", "Lowe's");
    ("saq.com", "SAQ");
    ("metro.ca", "Metro");
    ("iga.net", "IGA");
    ("maxi.ca", "Maxi");
    ("provigo.ca", "Provigo");
    ("jeancoutu.com", "Jean Coutu");
    ("pharmaprix.ca", "Pharmaprix");
    ("shoppersdrugmart.ca", "Shoppers Drug Mart");
    ("timhortons.com", "Tim Hortons");
    ("mcdonalds.com", "McDonald's");
    ("subway.com", "Subway") ].

(** [sorted(items, key=lambda x: -len(x[0]))]: longest domain first, and
    stable. *)
Fixpoint insert_by_len (x : string * string) (l : list (string * string))
  : list (string * string) :=
  match l with
  | [] => [x]
  | y :: l' =>
      if (String.length (fst y) <=? String.length (fst x))%nat then x :: y :: l'
      else y :: insert_by_len x l'
  end.

Definition sorted_by_len (l : list (string * string)) : list (string * string) :=
  fold_right insert_by_len [] l.

Fixpoint first_domain (text_lower : string) (l : list (string * string))
  : M (option string) :=
  match l with
  | [] => ret None
  | (domain, vendor_) :: l' =>
      if contains domain text_lower
      then
        log INFO ("Vendor inferred from domain '" ++ domain ++ "': '" ++ vendor_ ++ "'") ;;;
        ret (Some vendor_)
      else first_domain text_lower l'
  end.

Definition _infer_vendor_from_domain (text : string) : M (option string) :=
  let text_lower := lower text in
  first_domain text_lower (sorted_by_len DOMAIN_VENDOR_MAP).

(** The domain occurs in the text, whatever the case of the text. *)
Definition names_domain (text domain : string) : bool := contains domain (lower text).

(** A table with the longest domains first. *)
Definition longest_first (l : list (string * string)) : Prop :=
  StronglySorted (fun x y => (String.length (fst y) <= String.length (fst x))%nat) l.

(** [r] is, of the entries of [l] whose domain satisfies [p], a longest
    one, and the first of the longest. *)
Definition first_longest (p : string -> bool) (l : list (string * string))
                         (r : option (string * string)) : Prop :=
  match r with
  | Some x =>
      p (fst x) = true
      /\ exists l1 l2,
           l = (l1 ++ x :: l2)%list
           /\ (forall y, In y l1 -> p (fst y) = true ->
                 (String.length (fst y) < String.length (fst x))%nat)
           /\ (forall y, In y l2 -> p (fst y) = true ->
                 (String.length (fst y) <= String.length (fst x))%nat)
  | None => forall y, In y l -> p (fst y) = false
  end.

End ReceiptPostProcessor.

(** ** [services/ollama.py]: the merge of the model's answer with the
    deterministic pre-scan *)

Module OllamaClient.

Import Num Text Logging.
Import ReceiptPostProcessor.
Module DP := DeterministicParser.
Open Scope string_scope.
Open Scope Q_scope.

(** [merged.get(field)] and [merged[field] = v] for an amount field. *)
Definition get (d : receipt) (field : string) : option Q :=
  if String.eqb field "total" then total d
  else if String.eqb field "gst" then gst d
  else if String.eqb field "qst" then qst d
  else if String.eqb field "pst" then pst d
  else if String.eqb field "hst" then hst d
  else if String.eqb field "pre_tax" then pre_tax d
  else None.

Definition set (d : receipt) (field : string) (v : option Q) : receipt :=
  if String.eqb field "total"
  then mkReceipt (vendor d) (date d) v (pre_tax d) (gst d) (pst d) (hst d) (qst d) (confidence d)
  else if String.eqb field "gst"
  then mkReceipt (vendor d) (date d) (total d) (pre_tax d) v (pst d) (hst d) (qst d) (confidence d)
  else if String.eqb field "qst"
  then mkReceipt (vendor d) (date d) (total d) (pre_tax d) (gst d) (pst d) (hst d) v (confidence d)
  else if String.eqb field "pst"
  then mkReceipt (vendor d) (date d) (total d) (pre_tax d) (gst d) v (hst d) (qst d) (confidence d)
  else if String.eqb field "hst"
  then mkReceipt (vendor d) (date d) (total d) (pre_tax d) (gst d) (pst d) v (qst d) (confidence d)
  else if String.eqb field "pre_tax"
  then mkReceipt (vendor d) (date d) (total d) v (gst d) (pst d) (hst d) (qst d) (confidence d)
  else d.

Definition set_vendor (d : receipt) (v : option string) : receipt :=
  mkReceipt v (date d) (total d) (pre_tax d) (gst d) (pst d) (hst d) (qst d) (confidence d).

Definition set_date (d : receipt) (v : option string) : receipt :=
  mkReceipt (vendor d) v (total d) (pre_tax d) (gst d) (pst d) (hst d) (qst d) (confidence d).

(** What one turn of the loop over the tax and pre-tax fields does to
    [merged]. *)
Definition fill_step (det : DP.result) (merged : receipt) (field : string) : receipt :=
  if DP.is_some (DP.get det field) && negb (DP.truthy (get merged field))
  then set merged field (DP.get det field)
  else merged.

(** The loop over the tax and pre-tax fields. *)
Fixpoint fill_loop (fields : list string) (det : DP.result) (merged : receipt) : M receipt :=
  match fields with
  | [] => ret merged
  | field :: fields' =>
      if DP.is_some (DP.get det field) && negb (DP.truthy (get merged field)) then
        let merged := set merged field (DP.get det field) in
        log INFO ("Det override: " ++ field ++ "=" ++ DP.show_float (DP.get det field)) ;;;
        fill_loop fields' det merged
      else fill_loop fields' det merged
  end.

Definition _merge_with_deterministic (llm : receipt) (det : DP.result) : M receipt :=
  let merged := llm in
  merged <- fill_loop ["gst"; "qst"; "pst"; "hst"; "pre_tax"] det merged ;;
  let det_total := DP.get det "total" in
  let llm_total := if DP.truthy (get merged "total")
                   then match get merged "total" with Some t => t | None => 0.0 end
                   else 0.0 in
  let det_total_ := match det_total with Some t => t | None => 0 end in
  merged <-
    (if DP.truthy det_total && negb (Qeq_bool llm_total 0)
        && Qlt_bool 1.00 (Qabs (det_total_ - llm_total))
     then
       log INFO ("Total: LLM=" ++ DP.float_str llm_total ++ " vs det="
                 ++ DP.float_str det_total_ ++ " — using det") ;;;
       ret (set merged "total" det_total)
     else if DP.truthy det_total && Qeq_bool llm_total 0
     then ret (set merged "total" det_total)
     else ret merged) ;;
  let merged :=
    if truthy_str (DP.vendor det) && negb (truthy_str (vendor merged))
    then set_vendor merged (DP.vendor det) else merged in
  let merged :=
    if truthy_str (DP.date det) && negb (truthy_str (date merged))
    then set_date merged (DP.date det) else merged in
  ret merged.

(** The value a tax or pre-tax field ends with: the deterministic one when
    it is there and the model's is empty, the model's otherwise. *)
Definition filled (llm_v det_v : option Q) : option Q :=
  if DP.is_some det_v && negb (DP.truthy llm_v) then det_v else llm_v.

(** The total the merge ends with. *)
Definition merged_total (llm_v det_v : option Q) : option Q :=
  let d := match det_v with Some t => t | None => 0 end in
  let l := match llm_v with Some t => t | None => 0 end in
  if DP.truthy det_v && DP.truthy llm_v && Qlt_bool 1.00 (Qabs (d - l)) then det_v
  else if DP.truthy det_v && negb (DP.truthy llm_v) then det_v
  else llm_v.

(** The vendor or date the merge ends with. *)
Definition merged_text (llm_v det_v : option string) : option string :=
  if truthy_str det_v && negb (truthy_str llm_v) then det_v else llm_v.

(** *** JSON extraction *)

Import Regex.
Open Scope string_scope.
Open Scope Q_scope.

Definition FENCE_RE : re := Eval vm_compute in compile no_flags "```(?:json)?".

Fixpoint lstrip_char (c : ascii) (l : list ascii) : list ascii :=
  match l with
  | x :: l' => if Ascii.eqb x c then lstrip_char c l' else l
  | [] => []
  end.

(** [s.rstrip(c)] for a single character. *)
Definition rstrip (c : ascii) (s : string) : string :=
  str (rev (lstrip_char c (rev (chars s)))).

(** [s.find(c)] for a single character; [None] is Python's [-1]. *)
Fixpoint str_find (c : ascii) (l : list ascii) : option nat :=
  match l with
  | [] => None
  | x :: l' =>
      if Ascii.eqb x c then Some 0%nat
      else match str_find c l' with
           | Some i => Some (S i)
           | None => None
           end
  end.

(** The loop over [enumerate(text[start:], start)]: the index after the
    brace that brings [depth] back to zero, if the loop breaks. *)
Fixpoint match_brace (l : list ascii) (i : nat) (depth : Z) : option nat :=
  match l with
  | [] => None
  | ch :: l' =>
      if Ascii.eqb ch "{" then match_brace l' (S i) (depth + 1)%Z
      else if Ascii.eqb ch "}" then
        let depth := (depth - 1)%Z in
        if (depth =? 0)%Z then Some (S i) else match_brace l' (S i) depth
      else match_brace l' (S i) depth
  end.

(** The answer of the model without its code fences. *)
Definition unfenced (text : string) : string :=
  strip (rstrip "`" (strip (sub FENCE_RE "" (strip text)))).

Section Json.

(** [json.loads]; [None] stands for [JSONDecodeError]. *)
Variable J : Type.
Variable json_loads : string -> option J.

Definition _extract_json (text : string) : option J :=
  let text := unfenced text in
  match json_loads text with
  | Some j => Some j
  | None =>
      match str_find "{" (chars text) with
      | Some start =>
          let end_ :=
            match match_brace (skipn start (chars text)) start 0 with
            | Some e => Z.of_nat e
            | None => (-1)%Z
            end in
          if (Z.of_nat start <? end_)%Z
          then json_loads (str (slice (chars text) start (Z.to_nat end_)))
          else None
      | None => None
      end
  end.

End Json.

(** Opening braces minus closing braces. *)
Fixpoint depth_of (w : list ascii) : Z :=
  match w with
  | [] => 0
  | c :: w' =>
      ((if Ascii.eqb c "{" then 1 else if Ascii.eqb c "}" then -1 else 0) + depth_of w')%Z
  end.

(** [w] opens with a brace that no proper prefix of [w] closes. *)
Definition open_brace (w : list ascii) : Prop :=
  (exists w', w = "{"%char :: w')
  /\ forall u u', w = (u ++ u')%list -> u <> [] -> u' <> [] -> (0 < depth_of u)%Z.

(** [w] runs from a brace to the brace that closes it. *)
Definition brace_block (w : list ascii) : Prop :=
  open_brace w /\ depth_of w = 0%Z.

End OllamaClient.

(** ** [services/image_prep.py]: [ReceiptImagePipeline] *)

Module ReceiptImagePipeline.

Import Num Text Logging.
Open Scope string_scope.
Open Scope Z_scope.

Definition bytes : Type := list Byte.byte.

(** A raised Python exception: its class and its message. *)
Record exn : Type := mkExn {
  exn_class : string;
  exn_msg   : string
}.

Inductive outcome (A : Type) : Type :=
| Ok (a : A)
| Raise (e : exn).

Arguments Raise {A} e.

(** A computation that writes to the logger and may raise. *)
Definition E (A : Type) : Type := logger -> outcome A * logger.

Definition pure (A : Type) (a : A) : E A := fun l => (Ok a, l).

Definition raise (A : Type) (e : exn) : E A := fun l => (Raise e, l).

Arguments raise {A} e.

Definition then_ (A B : Type) (c : E A) (k : A -> E B) : E B :=
  fun l =>
    match c l with
    | (Ok a, l') => k a l'
    | (Raise e, l') => (Raise e, l')
    end.

(** [try: c  except Exception as e: handler(e)] *)
Definition try_except (A : Type) (c : E A) (handler : exn -> E A) : E A :=
  fun l =>
    match c l with
    | (Ok a, l') => (Ok a, l')
    | (Raise e, l') => handler e l'
    end.

(** A call into a library: it may raise and writes nothing. *)
Definition call (A : Type) (o : outcome A) : E A := fun l => (o, l).

Definition say (lv : level) (msg : string) : E unit :=
  fun l => (Ok tt, (l ++ [(lv, msg)])%list).

Notation "x <~ c ;; k" := (then_ c (fun x => k))
  (at level 61, c at next level, right associativity).
Notation "c ~~> k" := (then_ c (fun _ => k))
  (at level 61, right associativity).

(** The part of Pillow the pipeline calls.  Attribute reads ([size],
    [mode], [format]) cannot raise; every operation can. *)
Record Pillow : Type := mkPillow {
  image            : Type;
  Image_open       : bytes -> outcome image;
  load             : image -> outcome unit;
  format           : image -> option string;
  size             : image -> Z * Z;
  mode             : image -> string;
  _getexif         : image -> outcome (option (list (Z * Z)));
  rotate           : image -> Z -> outcome image;
  convert          : image -> string -> outcome image;
  resize           : image -> Z * Z -> outcome image;
  autocontrast     : image -> Q -> outcome image;
  enhance_contrast : image -> Q -> outcome image;
  unsharp_mask     : image -> Q -> Z -> Z -> outcome image;
  median_filter    : image -> Z -> outcome image;
  histogram        : image -> outcome (list Z);
  point_threshold  : image -> Z -> outcome image;
  expand           : image -> Z -> Z -> outcome image;
  save_jpeg        : image -> Z -> outcome bytes
}.

Definition MIN_LONG_EDGE : Z := 1400.
Definition MAX_LONG_EDGE : Z := 3000.
Definition JPEG_QUALITY : Z := 88.
Definition PADDING_PX : Z := 20.

(** The key of ["Orientation"] in [ExifTags.TAGS]. *)
Definition ORIENTATION_TAG : Z := 274.

Definition str_int (n : Z) : string := fmt_0d 0 n.

Definition show_size (s : Z * Z) : string :=
  "(" ++ str_int (fst s) ++ ", " ++ str_int (snd s) ++ ")".

(** [f"{q:.1f}"] and [f"{q:.0%}"] for a non-negative [q]. *)
Definition fmt_1f (q : Q) : string :=
  let t := round_half_even (q * 10)%Q in
  str_int (t / 10) ++ "." ++ str_int (t mod 10).

Definition fmt_percent (q : Q) : string :=
  str_int (round_half_even (q * 100)%Q) ++ "%".

Fixpoint lookup (k : Z) (d : list (Z * Z)) : option Z :=
  match d with
  | [] => None
  | (k', v) :: d' => if k' =? k then Some v else lookup k d'
  end.

(** [sum(histogram[a:b])] *)
Definition sum_slice (h : list Z) (a b : nat) : Z :=
  fold_left Z.add (firstn (b - a) (skipn a h)) 0.

Definition ZeroDivisionError : exn := mkExn "ZeroDivisionError" "division by zero".
Definition IndexError : exn := mkExn "IndexError" "list index out of range".

(** The state of the loop of [_otsu_threshold]. *)
Record otsu_state : Type := mkOtsu {
  sum_bg    : Q;
  w_bg      : Z;
  max_var   : Q;
  threshold : Z
}.

Fixpoint otsu_loop (ts : list Z) (h : list Z) (total sum_all : Z) (st : otsu_state)
  : otsu_state :=
  match ts with
  | [] => st
  | t :: ts' =>
      let ht := nth (Z.to_nat t) h 0 in
      let w_bg_ := w_bg st + ht in
      if w_bg_ =? 0 then otsu_loop ts' h total sum_all (mkOtsu (sum_bg st) w_bg_ (max_var st) (threshold st))
      else
        let w_fg := total - w_bg_ in
        if w_fg =? 0 then mkOtsu (sum_bg st) w_bg_ (max_var st) (threshold st)
        else
          let sum_bg_ := (sum_bg st + inject_Z (t * ht))%Q in
          let mean_bg := (sum_bg_ / inject_Z w_bg_)%Q in
          let mean_fg := ((inject_Z sum_all - sum_bg_) / inject_Z w_fg)%Q in
          let var := (inject_Z w_bg_ * inject_Z w_fg
                      * ((mean_bg - mean_fg) * (mean_bg - mean_fg)))%Q in
          if Qlt_bool (max_var st) var
          then otsu_loop ts' h total sum_all (mkOtsu sum_bg_ w_bg_ var t)
          else otsu_loop ts' h total sum_all (mkOtsu sum_bg_ w_bg_ (max_var st) (threshold st))
  end.

Definition range256 : list Z := map Z.of_nat (seq 0 256).

(** The variances are compared as exact rationals.  On doubles, levels of
    equal or nearly equal variance are told apart by rounding error, so
    which of them is returned is not what this definition is used for. *)
Definition _otsu_threshold (h : list Z) (total : Z) : E Z :=
  if (List.length h <? 256)%nat then raise IndexError
  else
    let sum_all := fold_left Z.add (map (fun i => i * nth (Z.to_nat i) h 0) range256) 0 in
    pure (threshold (otsu_loop range256 h total sum_all (mkOtsu 0%Q 0 0%Q 128))).

(** *** The quantities of Otsu's method, for a histogram [h] *)

(** Number of pixels, and sum of the grey levels of the pixels, at the
    levels below [n]. *)
Definition weight_below (h : list Z) (n : nat) : Z :=
  fold_left Z.add (map (fun i => nth i h 0) (seq 0 n)) 0.

Definition mass_below (h : list Z) (n : nat) : Z :=
  fold_left Z.add (map (fun i => Z.of_nat i * nth i h 0) (seq 0 n)) 0.

(** Between-class variance (times the square of the number of pixels) of
    the split after level [t]. *)
Definition between_class_variance (h : list Z) (total : Z) (t : nat) : Q :=
  let w_bg := weight_below h (S t) in
  let w_fg := total - w_bg in
  let mean_bg := (inject_Z (mass_below h (S t)) / inject_Z w_bg)%Q in
  let mean_fg :=
    ((inject_Z (mass_below h 256) - inject_Z (mass_below h (S t))) / inject_Z w_fg)%Q in
  (inject_Z w_bg * inject_Z w_fg * ((mean_bg - mean_fg) * (mean_bg - mean_fg)))%Q.

(** The loop looks at level [t]: the background is not empty, and the
    foreground was not empty at any level up to [t]. *)
Definition reached (h : list Z) (total : Z) (t : nat) : Prop :=
  (t < 256)%nat
  /\ weight_below h (S t) <> 0
  /\ forall i, (i <= t)%nat -> weight_below h (S i) <> 0 -> weight_below h (S i) <> total.

(** The best split among the reached levels below [n]. *)
Definition otsu_best (h : list Z) (total : Z) (n : nat) (st : otsu_state) : Prop :=
  let var := between_class_variance h total in
  (threshold st = 128 /\ (max_var st == 0)%Q
   /\ forall i, (i < n)%nat -> reached h total i -> (var i <= 0)%Q)
  \/ (exists b : nat,
        threshold st = Z.of_nat b /\ reached h total b
        /\ (max_var st == var b)%Q /\ (0 < var b)%Q
        /\ forall i, (i < n)%nat -> reached h total i ->
             (var i <= var b)%Q /\ ((i < b)%nat -> (var i < var b)%Q)).

(** What holds before the loop looks at level [n]. *)
Definition otsu_inv (h : list Z) (total : Z) (n : nat) (st : otsu_state) : Prop :=
  w_bg st = weight_below h n
  /\ (sum_bg st == inject_Z (mass_below h n))%Q
  /\ (forall i, (i < n)%nat -> weight_below h (S i) <> 0 -> weight_below h (S i) <> total)
  /\ (forall b, threshold st = Z.of_nat b -> (0 < max_var st)%Q -> (b < n)%nat)
  /\ otsu_best h total n st.


Section Pipeline.

Variable P : Pillow.

Let img : Type := image P.

Definition _load (raw : bytes) : E (option img * string) :=
  try_except
    (im <~ call (Image_open P raw) ;;
     let fmt := match format P im with Some f => f | None => "UNKNOWN" end in
     call (load P im) ~~>
     pure (Some im, fmt))
    (fun e =>
       say ERROR ("Image load failed: " ++ exn_msg e) ~~>
       pure (None, "")).

Definition _fix_exif_rotation (im : img) : E img :=
  try_except
    (exif <~ call (_getexif P im) ;;
     match exif with
     | None => pure im
     | Some exif =>
         match lookup ORIENTATION_TAG exif with
         | Some orientation =>
             match lookup orientation [(3, 180); (6, 270); (8, 90)] with
             | Some angle => call (rotate P im angle)
             | None => pure im
             end
         | None => pure im
         end
     end)
    (fun _ => pure im).

Definition _to_rgb (im : img) : E img :=
  if negb (String.eqb (mode P im) "RGB" || String.eqb (mode P im) "L")
  then call (convert P im "RGB")
  else pure im.

(** [int(side * scale)] with [scale = edge / long_edge]. *)
Definition scaled (side edge long_edge : Z) : Z :=
  Qfloor (inject_Z side * (inject_Z edge / inject_Z long_edge))%Q.

Definition _upscale_if_needed (im : img) : E img :=
  let long_edge := Z.max (fst (size P im)) (snd (size P im)) in
  if long_edge <? MIN_LONG_EDGE then
    if long_edge =? 0 then raise ZeroDivisionError
    else
      let new_w := scaled (fst (size P im)) MIN_LONG_EDGE long_edge in
      let new_h := scaled (snd (size P im)) MIN_LONG_EDGE long_edge in
      im' <~ call (resize P im (new_w, new_h)) ;;
      say DEBUG ("Upscaled " ++ fmt_1f (inject_Z MIN_LONG_EDGE / inject_Z long_edge)%Q
                 ++ "x to " ++ show_size (size P im')) ~~>
      pure im'
  else pure im.

Definition _downscale_if_needed (im : img) : E img :=
  let long_edge := Z.max (fst (size P im)) (snd (size P im)) in
  if MAX_LONG_EDGE <? long_edge then
    let new_w := scaled (fst (size P im)) MAX_LONG_EDGE long_edge in
    let new_h := scaled (snd (size P im)) MAX_LONG_EDGE long_edge in
    im' <~ call (resize P im (new_w, new_h)) ;;
    say DEBUG ("Downscaled to " ++ show_size (size P im')) ~~>
    pure im'
  else pure im.

Definition _convert_greyscale (im : img) : E img := call (convert P im "L").

Definition _local_contrast (im : img) : E img :=
  base <~ call (autocontrast P im 0.5%Q) ;;
  call (enhance_contrast P base 1.6%Q).

Definition _sharpen (im : img) : E img := call (unsharp_mask P im 1.2%Q 160 2).

Definition _denoise (im : img) : E img := call (median_filter P im 3).

Definition _adaptive_threshold_if_low_contrast (im : img) : E img :=
  h <~ call (histogram P im) ;;
  let total_pixels := fold_left Z.add h 0 in
  if total_pixels =? 0 then pure im
  else
    let grey_zone := (inject_Z (sum_slice h 80 180) / inject_Z total_pixels)%Q in
    if Qlt_bool 0.70%Q grey_zone then
      say DEBUG ("Low contrast image (" ++ fmt_percent grey_zone
                 ++ " grey), applying binarization") ~~>
      t <~ _otsu_threshold h total_pixels ;;
      call (point_threshold P im t)
    else if Qlt_bool 0.45%Q grey_zone then call (autocontrast P im 1%Q)
    else pure im.

Definition _add_padding (im : img) : E img := call (expand P im PADDING_PX 255).

Definition _back_to_rgb (im : img) : E img := call (convert P im "RGB").

Definition process (raw_bytes : bytes) : E bytes :=
  loaded <~ _load raw_bytes ;;
  match fst loaded with
  | None =>
      say WARNING "Could not decode image, returning original bytes" ~~>
      pure raw_bytes
  | Some im =>
      let original_size := size P im in
      im <~ _fix_exif_rotation im ;;
      im <~ _to_rgb im ;;
      im <~ _upscale_if_needed im ;;
      im <~ _downscale_if_needed im ;;
      im <~ _convert_greyscale im ;;
      im <~ _local_contrast im ;;
      im <~ _sharpen im ;;
      im <~ _denoise im ;;
      im <~ _adaptive_threshold_if_low_contrast im ;;
      im <~ _add_padding im ;;
      im <~ _back_to_rgb im ;;
      result <~ call (save_jpeg P im JPEG_QUALITY) ;;
      say DEBUG ("Image preprocessed: " ++ show_size original_size ++ " → "
                 ++ show_size (size P im) ++ ", "
                 ++ str_int (Z.of_nat (List.length raw_bytes) / 1024) ++ "KB → "
                 ++ str_int (Z.of_nat (List.length result) / 1024) ++ "KB") ~~>
      pure result
  end.

End Pipeline.

(** A small Pillow for running the pipeline: an image is its size and mode,
    the two leading bytes of the input are the width and the next two the
    height (big-endian), pixels are not kept.  As in Pillow, [resize] needs
    both sides of the new size to be at least one pixel. *)
Record pic : Type := mkPic {
  pic_w    : Z;
  pic_h    : Z;
  pic_mode : string
}.

Definition UnidentifiedImageError : exn :=
  mkExn "UnidentifiedImageError" "cannot identify image file".

Definition byte_val (b : Byte.byte) : Z := Z.of_N (Byte.to_N b).

Definition sized_open (raw : bytes) : outcome pic :=
  match raw with
  | w1 :: w0 :: h1 :: h0 :: _ =>
      let w := byte_val w1 * 256 + byte_val w0 in
      let h := byte_val h1 * 256 + byte_val h0 in
      if (0 <? w) && (0 <? h) then Ok (mkPic w h "RGB")
      else Raise UnidentifiedImageError
  | _ => Raise UnidentifiedImageError
  end.

Definition sized_resize (im : pic) (s : Z * Z) : outcome pic :=
  if (fst s <? 1) || (snd s <? 1)
  then Raise (mkExn "ValueError" "height and width must be > 0")
  else Ok (mkPic (fst s) (snd s) (pic_mode im)).

Definition SizedPillow : Pillow :=
  mkPillow
    sized_open
    (fun _ => Ok tt)
    (fun _ => Some "PNG")
    (fun im => (pic_w im, pic_h im))
    pic_mode
    (fun _ => Ok None)
    (fun im angle => if (angle =? 180) then Ok im else Ok (mkPic (pic_h im) (pic_w im) (pic_mode im)))
    (fun im m => Ok (mkPic (pic_w im) (pic_h im) m))
    sized_resize
    (fun im _ => Ok im)
    (fun im _ => Ok im)
    (fun im _ _ _ => Ok im)
    (fun im _ => Ok im)
    (fun im => Ok (repeat 0 255 ++ [pic_w im * pic_h im])%list)
    (fun im _ => Ok im)
    (fun im border _ => Ok (mkPic (pic_w im + 2 * border) (pic_h im + 2 * border) (pic_mode im)))
    (fun im _ => Ok [Byte.xff; Byte.xd8; Byte.xff; Byte.xd9]).

End ReceiptImagePipeline.

(** * Properties *)

Unset Implicit Arguments.

(** ** Rounding *)

Module NumFacts.

Import Num.
Open Scope Q_scope.

Lemma Qlt_bool_iff (a b : Q) : Qlt_bool a b = true <-> a < b.
Proof.
  unfold Qlt_bool. rewrite negb_true_iff.
  split; intro H.
  - apply Qnot_le_lt. intro L. apply Qle_bool_iff in L. congruence.
  - destruct (Qle_bool b a) eqn:E; [|reflexivity].
    apply Qle_bool_iff in E. exfalso. apply (Qlt_not_le _ _ H E).
Qed.

Lemma Qlt_bool_false_iff (a b : Q) : Qlt_bool a b = false <-> b <= a.
Proof.
  unfold Qlt_bool. rewrite negb_false_iff. apply Qle_bool_iff.
Qed.

Lemma Qle_bool_false_iff (a b : Q) : Qle_bool a b = false <-> b < a.
Proof.
  split; intro H.
  - apply Qnot_le_lt. intro L. apply Qle_bool_iff in L. congruence.
  - destruct (Qle_bool a b) eqn:E; [|reflexivity].
    apply Qle_bool_iff in E. exfalso. apply (Qlt_not_le _ _ H E).
Qed.

Lemma Qeq_bool_false_iff (a b : Q) : Qeq_bool a b = false <-> ~ a == b.
Proof.
  split; intro H.
  - intro E. apply Qeq_bool_iff in E. congruence.
  - destruct (Qeq_bool a b) eqn:E; [|reflexivity].
    apply Qeq_bool_iff in E. contradiction.
Qed.

Lemma round_half_even_comp (q q' : Q) :
  q == q' -> round_half_even q = round_half_even q'.
Proof.
  intro H. unfold round_half_even.
  rewrite (Qfloor_comp _ _ H).
  assert (E : q - inject_Z (Qfloor q') == q' - inject_Z (Qfloor q')) by (rewrite H; reflexivity).
  rewrite (Qcompare_comp _ _ E _ _ (Qeq_refl (1 # 2))).
  reflexivity.
Qed.

Lemma round_half_even_inject (z : Z) : round_half_even (inject_Z z) = z.
Proof.
  unfold round_half_even. rewrite Qfloor_Z.
  assert (L : Qcompare (inject_Z z - inject_Z z) (1 # 2) = Lt).
  { assert (H : inject_Z z - inject_Z z < 1 # 2) by (ring_simplify (inject_Z z - inject_Z z); reflexivity).
    exact (proj1 (Qlt_alt _ _) H). }
  rewrite L. reflexivity.
Qed.

Lemma round_comp (q q' : Q) (nd : nat) : q == q' -> round q nd == round q' nd.
Proof.
  intro H. unfold round.
  rewrite (round_half_even_comp (q * inject_Z (10 ^ Z.of_nat nd))
                                 (q' * inject_Z (10 ^ Z.of_nat nd))).
  - reflexivity.
  - rewrite H. reflexivity.
Qed.

(** The value [z / 10^nd] is left as it is. *)
Lemma round_grid (z : Z) (nd : nat) :
  round (inject_Z z / inject_Z (10 ^ Z.of_nat nd)) nd == inject_Z z / inject_Z (10 ^ Z.of_nat nd).
Proof.
  unfold round.
  assert (P10 : ~ inject_Z (10 ^ Z.of_nat nd) == 0).
  { intro E. unfold Qeq in E. simpl in E.
    assert (0 < 10 ^ Z.of_nat nd)%Z by (apply Z.pow_pos_nonneg; lia). lia. }
  rewrite (round_half_even_comp _ (inject_Z z)).
  - rewrite round_half_even_inject. reflexivity.
  - field. exact P10.
Qed.

(** Rounding is idempotent. *)
Lemma round_round (q : Q) (nd : nat) : round (round q nd) nd == round q nd.
Proof.
  unfold round at 2 3. apply round_grid.
Qed.

Lemma is_cents_round (q : Q) : is_cents (round q 2) = true.
Proof.
  unfold is_cents. apply Qeq_bool_iff. apply round_round.
Qed.

Lemma is_cents_eq (q : Q) : is_cents q = true -> round q 2 == q.
Proof.
  unfold is_cents. intro H. apply Qeq_bool_iff in H. exact H.
Qed.

(** A whole number of cents is [z / 100]. *)
Lemma is_cents_grid (q : Q) :
  is_cents q = true -> exists z : Z, q == inject_Z z / inject_Z (10 ^ Z.of_nat 2).
Proof.
  intro H. apply is_cents_eq in H.
  exists (round_half_even (q * inject_Z (10 ^ Z.of_nat 2))).
  rewrite <- H at 1. reflexivity.
Qed.

Lemma grid_is_cents (q : Q) (z : Z) :
  q == inject_Z z / inject_Z (10 ^ Z.of_nat 2) -> round q 2 == q.
Proof.
  intro H. rewrite (round_comp _ _ 2 H). rewrite round_grid. symmetry. exact H.
Qed.

Lemma round_plus (a b : Q) :
  is_cents a = true -> is_cents b = true -> round (a + b) 2 == a + b.
Proof.
  intros Ha Hb.
  destruct (is_cents_grid _ Ha) as [za Ea], (is_cents_grid _ Hb) as [zb Eb].
  apply (grid_is_cents _ (za + zb)%Z).
  rewrite Ea, Eb. rewrite inject_Z_plus. field.
  intro E. unfold Qeq in E. simpl in E. lia.
Qed.

Lemma round_minus (a b : Q) :
  is_cents a = true -> is_cents b = true -> round (a - b) 2 == a - b.
Proof.
  intros Ha Hb.
  destruct (is_cents_grid _ Ha) as [za Ea], (is_cents_grid _ Hb) as [zb Eb].
  apply (grid_is_cents _ (za - zb)%Z).
  rewrite Ea, Eb. unfold Z.sub. rewrite inject_Z_plus, inject_Z_opp. field.
  intro E. unfold Qeq in E. simpl in E. lia.
Qed.

Lemma is_cents_plus (a b : Q) :
  is_cents a = true -> is_cents b = true -> is_cents (a + b) = true.
Proof.
  intros Ha Hb. unfold is_cents. apply Qeq_bool_iff. apply round_plus; assumption.
Qed.

Lemma is_cents_minus (a b : Q) :
  is_cents a = true -> is_cents b = true -> is_cents (a - b) = true.
Proof.
  intros Ha Hb. unfold is_cents. apply Qeq_bool_iff. apply round_minus; assumption.
Qed.

Lemma is_cents_comp (a b : Q) : a == b -> is_cents a = true -> is_cents b = true.
Proof.
  intros E H. apply is_cents_eq in H. unfold is_cents. apply Qeq_bool_iff.
  rewrite <- (round_comp _ _ 2 E). rewrite H. exact E.
Qed.

(** Rounding stays between two integers that enclose the value. *)
Lemma round_half_even_between (q : Q) (lo hi : Z) :
  inject_Z lo <= q -> q <= inject_Z hi ->
  (lo <= round_half_even q <= hi)%Z.
Proof.
  intros Hlo Hhi.
  assert (F1 : (lo <= Qfloor q)%Z).
  { rewrite <- (Qfloor_Z lo). apply Qfloor_resp_le. exact Hlo. }
  assert (F2 : (Qfloor q <= hi)%Z).
  { rewrite <- (Qfloor_Z hi). apply Qfloor_resp_le. exact Hhi. }
  pose proof (Qfloor_le q) as F3.
  unfold round_half_even.
  destruct (Qcompare_spec (q - inject_Z (Qfloor q)) (1 # 2)) as [E|L|G].
  - destruct (Z.even (Qfloor q)); [lia|].
    destruct (Z.eq_dec (Qfloor q) hi) as [Eh|Nh]; [|lia].
    exfalso. rewrite Eh in E. lra.
  - lia.
  - destruct (Z.eq_dec (Qfloor q) hi) as [Eh|Nh]; [|lia].
    exfalso. rewrite Eh in G. lra.
Qed.

Lemma round_unit_interval (q : Q) (nd : nat) :
  0 <= q -> q <= 1 -> 0 <= round q nd /\ round q nd <= 1.
Proof.
  intros H0 H1.
  assert (P10 : (0 < 10 ^ Z.of_nat nd)%Z) by (apply Z.pow_pos_nonneg; lia).
  assert (Q10 : 0 < inject_Z (10 ^ Z.of_nat nd)).
  { unfold Qlt. simpl. lia. }
  destruct (round_half_even_between (q * inject_Z (10 ^ Z.of_nat nd)) 0 (10 ^ Z.of_nat nd))
    as [B0 B1].
  - apply Qmult_le_0_compat; [exact H0|apply Qlt_le_weak; exact Q10].
  - setoid_replace (inject_Z (10 ^ Z.of_nat nd)) with (1 * inject_Z (10 ^ Z.of_nat nd)) at 2 by ring.
    apply Qmult_le_compat_r; [exact H1|apply Qlt_le_weak; exact Q10].
  - unfold round. split.
    + apply Qle_shift_div_l; [exact Q10|].
      rewrite Qmult_0_l. change 0 with (inject_Z 0). rewrite <- Zle_Qle. exact B0.
    + apply Qle_shift_div_r; [exact Q10|].
      rewrite Qmult_1_l. rewrite <- Zle_Qle. exact B1.
Qed.

End NumFacts.

(** ** [ReceiptPostProcessor] *)

Module PostProcessorFacts.

Import Num NumFacts ReceiptPostProcessor.
Open Scope string_scope.
Open Scope Q_scope.

Lemma _to_float_nonneg (v : option Q) : 0 <= _to_float v.
Proof. unfold _to_float. apply Q.le_max_l. Qed.

Lemma tax_sum_cents (d : receipt) :
  amounts_in_cents d = true ->
  is_cents (_to_float (gst d) + _to_float (pst d) + _to_float (hst d) + _to_float (qst d)) = true.
Proof.
  unfold amounts_in_cents. rewrite !andb_true_iff.
  intros [[[[[cT cP] cG] cPs] cH] cQ].
  apply is_cents_plus; [apply is_cents_plus; [apply is_cents_plus|]|]; assumption.
Qed.

(** Two codes that both start a warning: one starts the other. *)
Lemma prefix_exclusive (k1 k2 w : string) :
  String.prefix k1 w = true -> String.prefix k2 w = true ->
  String.prefix k1 k2 = true \/ String.prefix k2 k1 = true.
Proof.
  revert k2 w. induction k1 as [|a k1 IH]; intros k2 w H1 H2.
  - left. destruct k2; reflexivity.
  - destruct k2 as [|b k2]; [right; reflexivity|].
    destruct w as [|c w]; [discriminate|].
    simpl in H1, H2 |- *.
    destruct (ascii_dec a c) as [E1|]; [|discriminate].
    destruct (ascii_dec b c) as [E2|]; [|discriminate].
    subst. destruct (ascii_dec c c) as [_|N]; [|contradiction].
    apply (IH k2 w); assumption.
Qed.

Ltac clash H1 H2 :=
  exfalso; destruct (prefix_exclusive _ _ _ H1 H2) as [X|X];
  vm_compute in X; discriminate X.

Lemma charge_hits (b : Q) (w : string) : charge b w penalties == b - hits w.
Proof.
  unfold hits, penalties. cbn [charge fold_right].
  destruct (String.prefix "DATE_MISSING" w) eqn:H1;
  destruct (String.prefix "DATE_PARSE_FAILED" w) eqn:H2; try (clash H1 H2);
  destruct (String.prefix "MATH_MISMATCH" w) eqn:H3; try (clash H1 H3); try (clash H2 H3);
  destruct (String.prefix "MATH_MISSING_TOTAL" w) eqn:H4;
    try (clash H1 H4); try (clash H2 H4); try (clash H3 H4);
  destruct (String.prefix "OCR_UNPARSEABLE" w) eqn:H5;
    try (clash H1 H5); try (clash H2 H5); try (clash H3 H5); try (clash H4 H5);
  destruct (String.prefix "TAX_SANITY" w) eqn:H6;
    try (clash H1 H6); try (clash H2 H6); try (clash H3 H6); try (clash H4 H6);
    try (clash H5 H6);
  ring.
Qed.

Lemma occurrences_cons (key w : string) (ws : list string) :
  inject_Z (Z.of_nat (occurrences key (w :: ws)))
  == (if String.prefix key w then 1 else 0) + inject_Z (Z.of_nat (occurrences key ws)).
Proof.
  unfold occurrences. cbn [filter].
  destruct (String.prefix key w).
  - cbn [List.length]. rewrite Nat2Z.inj_succ. unfold Z.succ.
    rewrite inject_Z_plus. ring.
  - ring.
Qed.

Lemma penalty_total_cons (w : string) (ws : list string) :
  penalty_total (w :: ws) == hits w + penalty_total ws.
Proof.
  unfold penalty_total, hits, penalties. cbn [fold_right].
  rewrite !occurrences_cons. ring.
Qed.

Lemma penalty_total_nil : penalty_total [] == 0.
Proof. vm_compute. reflexivity. Qed.

Lemma fold_charge (ws : list string) (b : Q) :
  fold_left (fun b warning => charge b warning penalties) ws b == b - penalty_total ws.
Proof.
  revert b. induction ws as [|w ws IH]; intro b.
  - cbn [fold_left]. rewrite penalty_total_nil. ring.
  - cbn [fold_left]. rewrite IH. rewrite charge_hits. rewrite penalty_total_cons. ring.
Qed.

Lemma tax_bonus_agrees (d : receipt) :
  pst_alone d = false ->
  existsb (fun t => Qlt_bool 0 (_to_float t)) [gst d; hst d; qst d] = any_tax d.
Proof.
  unfold pst_alone, any_tax, positive. cbn [existsb].
  destruct (Qlt_bool 0 (_to_float (gst d))), (Qlt_bool 0 (_to_float (pst d))),
           (Qlt_bool 0 (_to_float (hst d))), (Qlt_bool 0 (_to_float (qst d)));
    cbn; congruence.
Qed.

Lemma clamp_comp (a b : Q) : a == b -> Qmax 0.0 (Qmin 1.0 a) == Qmax 0 (Qmin 1 b).
Proof.
  intro E. apply Q.max_compat; [reflexivity|]. apply Q.min_compat; [reflexivity|exact E].
Qed.

Lemma clamp_range (a : Q) : 0 <= Qmax 0 (Qmin 1 a) /\ Qmax 0 (Qmin 1 a) <= 1.
Proof.
  split.
  - apply Q.le_max_l.
  - apply Q.max_lub; [lra|apply Q.le_min_l].
Qed.

(** [_validate_math] on a record whose amounts are whole cents, case by
    case, the rationals compared as they are. *)
Lemma validate_math_exact
  (float_str float_fmt2 : Q -> string) (d : receipt) (ws : list string) :
  amounts_in_cents d = true ->
  let T := _to_float (total d) in
  let P := _to_float (pre_tax d) in
  let S := _to_float (gst d) + _to_float (pst d) + _to_float (hst d) + _to_float (qst d) in
  let out := _validate_math float_str float_fmt2 d ws in
  (0 < T -> 0 < P ->
     (Qabs (P + S - T) <= 0.15 -> out = (d, ws))
     /\ (0.15 < Qabs (P + S - T) -> Qabs (P + S - T) <= 2.00 ->
         exists p w, out = (set_pre_tax d (Some p), (ws ++ [w])%list)
                     /\ p == T - S
                     /\ String.prefix "MATH_ADJUSTED_PRETAX" w = true)
     /\ (2.00 < Qabs (P + S - T) ->
         exists w, out = (d, (ws ++ [w])%list)
                   /\ String.prefix "MATH_MISMATCH" w = true))
  /\ (0 < T -> P == 0 ->
        (0 < T - S /\ T - S < T ->
         exists p w, out = (set_pre_tax d (Some p), (ws ++ [w])%list)
                     /\ p == T - S
                     /\ String.prefix "MATH_INFERRED_PRETAX" w = true)
        /\ (~ (0 < T - S /\ T - S < T) -> out = (d, ws)))
  /\ (T == 0 -> 0 < P ->
        exists t w, out = (set_total d (Some t), (ws ++ [w])%list)
                    /\ t == P + S
                    /\ String.prefix "MATH_INFERRED_TOTAL" w = true).
Proof.
  intros Hc T P S out.
  pose proof (tax_sum_cents d Hc) as cS.
  pose proof (is_cents_eq _ cS) as ES. fold S in ES, cS.
  unfold amounts_in_cents in Hc. rewrite !andb_true_iff in Hc.
  destruct Hc as [[[[[cT cP] _] _] _] _]. fold T in cT. fold P in cP.
  assert (cR : is_cents (round S 2) = true) by apply is_cents_round.
  assert (EC : round (P + round S 2) 2 == P + S).
  { rewrite (round_plus _ _ cP cR). rewrite ES. reflexivity. }
  assert (ED : round (T - round S 2) 2 == T - S).
  { rewrite (round_minus _ _ cT cR). rewrite ES. reflexivity. }
  assert (EA : Qabs (round (P + round S 2) 2 - T) == Qabs (P + S - T)).
  { rewrite EC. reflexivity. }
  subst out. unfold _validate_math, MATH_TOLERANCE, append. fold T P S.
  split; [|split].
  - intros HT HP.
    assert (bT : Qlt_bool 0 T = true) by (apply Qlt_bool_iff; exact HT).
    assert (bP : Qlt_bool 0 P = true) by (apply Qlt_bool_iff; exact HP).
    assert (bM : Qle_bool T 0 = false) by (apply Qle_bool_false_iff; exact HT).
    rewrite bT, bP. cbn [andb].
    split; [|split].
    + intro H.
      assert (b1 : Qle_bool (Qabs (round (P + round S 2) 2 - T)) 0.15 = true).
      { apply Qle_bool_iff. rewrite EA. exact H. }
      rewrite b1. cbv beta iota zeta. fold T. rewrite bM. reflexivity.
    + intros H1 H2.
      assert (b1 : Qle_bool (Qabs (round (P + round S 2) 2 - T)) 0.15 = false).
      { apply Qle_bool_false_iff. rewrite EA. exact H1. }
      assert (b2 : Qle_bool (Qabs (round (P + round S 2) 2 - T)) 2.0 = true).
      { apply Qle_bool_iff. rewrite EA. lra. }
      rewrite b1, b2. cbv beta iota zeta. cbn [total set_pre_tax]. fold T. rewrite bM.
      eexists. eexists. split; [reflexivity|]. split; [exact ED|reflexivity].
    + intros H.
      assert (b1 : Qle_bool (Qabs (round (P + round S 2) 2 - T)) 0.15 = false).
      { apply Qle_bool_false_iff. rewrite EA. lra. }
      assert (b2 : Qle_bool (Qabs (round (P + round S 2) 2 - T)) 2.0 = false).
      { apply Qle_bool_false_iff. rewrite EA. lra. }
      rewrite b1, b2. cbv beta iota zeta. fold T. rewrite bM.
      eexists. split; [reflexivity|reflexivity].
  - intros HT HP.
    assert (bT : Qlt_bool 0 T = true) by (apply Qlt_bool_iff; exact HT).
    assert (bP : Qlt_bool 0 P = false) by (apply Qlt_bool_false_iff; lra).
    assert (bE : Qeq_bool P 0 = true) by (apply Qeq_bool_iff; exact HP).
    assert (bM : Qle_bool T 0 = false) by (apply Qle_bool_false_iff; exact HT).
    rewrite bT, bP, bE. cbn [andb].
    split.
    + intros [H1 H2].
      assert (b1 : Qlt_bool 0 (round S 2) = true) by (apply Qlt_bool_iff; lra).
      assert (b2 : Qlt_bool 0 (round (T - round S 2) 2) = true) by (apply Qlt_bool_iff; lra).
      assert (b3 : Qlt_bool (round (T - round S 2) 2) T = true) by (apply Qlt_bool_iff; lra).
      rewrite b1, b2, b3. cbv beta iota zeta. cbn [andb total set_pre_tax]. fold T. rewrite bM.
      eexists. eexists. split; [reflexivity|]. split; [exact ED|reflexivity].
    + intros H.
      destruct (Qlt_bool 0 (round S 2)) eqn:b1.
      * apply Qlt_bool_iff in b1.
        destruct (Qlt_bool 0 (round (T - round S 2) 2)) eqn:b2;
          destruct (Qlt_bool (round (T - round S 2) 2) T) eqn:b3;
          cbv beta iota zeta; cbn [andb]; fold T; rewrite ?bM; try reflexivity.
        apply Qlt_bool_iff in b2. apply Qlt_bool_iff in b3.
        exfalso. apply H. split; lra.
      * cbv beta iota zeta. fold T. rewrite bM. reflexivity.
  - intros HT HP.
    assert (bT : Qlt_bool 0 T = false) by (apply Qlt_bool_false_iff; lra).
    assert (bP : Qlt_bool 0 P = true) by (apply Qlt_bool_iff; exact HP).
    assert (bE : Qeq_bool T 0 = true) by (apply Qeq_bool_iff; exact HT).
    rewrite bT, bP, bE. cbv beta iota zeta. cbn [andb total set_total].
    pose proof (_to_float_nonneg (gst d)). pose proof (_to_float_nonneg (pst d)).
    pose proof (_to_float_nonneg (hst d)). pose proof (_to_float_nonneg (qst d)).
    assert (bM : Qle_bool (_to_float (Some (round (P + round S 2) 2))) 0 = false).
    { apply Qle_bool_false_iff. unfold _to_float.
      apply Qlt_le_trans with (round (P + round S 2) 2); [|apply Q.le_max_r].
      subst S. lra. }
    rewrite bM.
    eexists. eexists. split; [reflexivity|]. split; [exact EC|reflexivity].
Qed.

End PostProcessorFacts.

Import Num NumFacts ReceiptPostProcessor PostProcessorFacts.
Open Scope string_scope.
Open Scope Q_scope.

(** C1, on whole cents.  For a record whose amounts are whole cents below
    1,000,000,000, with [T] the total, [P] the pre-tax amount and
    [S = gst + pst + hst + qst]: when [T] and [P] are both positive, a
    difference [|P + S - T|] below 0.15 leaves the record and the warnings
    as they are, a difference above 0.15 and below 2.00 replaces the pre-tax
    amount by [T - S] and adds an "adjusted" warning, and a difference above
    2.00 adds a "mismatch" warning and leaves the record; when [P] is 0 and
    [T] positive the pre-tax amount becomes [T - S] exactly when that lies
    strictly between 0 and [T]; when [T] is 0 and [P] positive the total
    becomes [P + S].  A difference of exactly 0.15 or 2.00 is left out: the
    code compares doubles there, and their rounding error decides. *)
Theorem validate_math_spec
  (float_str float_fmt2 : Q -> string) (d : receipt) (ws : list string) :
  amounts_in_cents d = true ->
  amounts_below 1000000000 d = true ->
  let T := _to_float (total d) in
  let P := _to_float (pre_tax d) in
  let S := _to_float (gst d) + _to_float (pst d) + _to_float (hst d) + _to_float (qst d) in
  let out := _validate_math float_str float_fmt2 d ws in
  (0 < T -> 0 < P ->
     (Qabs (P + S - T) < 0.15 -> out = (d, ws))
     /\ (0.15 < Qabs (P + S - T) -> Qabs (P + S - T) < 2.00 ->
         exists p w, out = (set_pre_tax d (Some p), (ws ++ [w])%list)
                     /\ p == T - S
                     /\ String.prefix "MATH_ADJUSTED_PRETAX" w = true)
     /\ (2.00 < Qabs (P + S - T) ->
         exists w, out = (d, (ws ++ [w])%list)
                   /\ String.prefix "MATH_MISMATCH" w = true))
  /\ (0 < T -> P == 0 ->
        (0 < T - S /\ T - S < T ->
         exists p w, out = (set_pre_tax d (Some p), (ws ++ [w])%list)
                     /\ p == T - S
                     /\ String.prefix "MATH_INFERRED_PRETAX" w = true)
        /\ (~ (0 < T - S /\ T - S < T) -> out = (d, ws)))
  /\ (T == 0 -> 0 < P ->
        exists t w, out = (set_total d (Some t), (ws ++ [w])%list)
                    /\ t == P + S
                    /\ String.prefix "MATH_INFERRED_TOTAL" w = true).
Proof.
  intros Hc _ T P S out.
  destruct (validate_math_exact float_str float_fmt2 d ws Hc) as [A [B C]].
  split; [|split].
  - intros HT HP. destruct (A HT HP) as [A1 [A2 A3]].
    split; [|split].
    + intro H. apply A1. apply Qlt_le_weak. exact H.
    + intros H1 H2. apply A2; [exact H1|apply Qlt_le_weak; exact H2].
    + exact A3.
  - exact B.
  - exact C.
Qed.

(** The worked examples of the specification: 17.80 + 0.89 + 1.78 against
    20.50 is accepted, 15.00 + 2.00 against 18.50 is adjusted to 16.50, and
    10.00 + 1.00 against 50.00 is a mismatch. *)
Lemma validate_math_spec_witness :
  let f := fun _ : Q => "" in
  let accepted := mkReceipt None None (Some 20.50) (Some 17.80) (Some 0.89) None None (Some 1.78) None in
  let adjusted := mkReceipt None None (Some 18.50) (Some 15.00) (Some 2.00) None None None None in
  let mismatch := mkReceipt None None (Some 50.00) (Some 10.00) (Some 1.00) None None None None in
  (amounts_in_cents accepted = true /\ amounts_below 1000000000 accepted = true
   /\ _validate_math f f accepted [] = (accepted, []))
  /\ (amounts_in_cents adjusted = true /\ amounts_below 1000000000 adjusted = true
      /\ exists p w, _validate_math f f adjusted [] = (set_pre_tax adjusted (Some p), [w])
                     /\ p == 16.50
                     /\ String.prefix "MATH_ADJUSTED_PRETAX" w = true)
  /\ (amounts_in_cents mismatch = true /\ amounts_below 1000000000 mismatch = true
      /\ exists w, _validate_math f f mismatch [] = (mismatch, [w])
                   /\ String.prefix "MATH_MISMATCH" w = true).
Proof.
  intros f accepted adjusted mismatch.
  split; [|split]; (split; [vm_compute; reflexivity|]); (split; [vm_compute; reflexivity|]).
  - destruct (validate_math_spec f f accepted [] eq_refl eq_refl) as [H _].
    destruct (H eq_refl eq_refl) as [H1 _].
    apply H1. vm_compute. reflexivity.
  - destruct (validate_math_spec f f adjusted [] eq_refl eq_refl) as [H _].
    destruct (H eq_refl eq_refl) as [_ [H2 _]].
    destruct H2 as [p [w [E [Hp Hw]]]].
    + vm_compute. reflexivity.
    + vm_compute. reflexivity.
    + exists p, w. split; [exact E|]. split; [|exact Hw].
      rewrite Hp. vm_compute. reflexivity.
  - destruct (validate_math_spec f f mismatch [] eq_refl eq_refl) as [H _].
    destruct (H eq_refl eq_refl) as [_ [_ H3]].
    apply H3. vm_compute. reflexivity.
Defined.

(** C1, as stated, fails where the amounts are not whole cents: the code
    rounds before it compares.  With a pre-tax amount of 9.996, no tax and
    a total of 10.148 the difference is 0.152, above the tolerance and
    below 2.00, and the record is accepted as it is, with no warning. *)
Lemma validate_math_rounds_first :
  let f := fun _ : Q => "" in
  let d := mkReceipt None None (Some 10.148) (Some 9.996) None None None None None in
  let T := _to_float (total d) in
  let P := _to_float (pre_tax d) in
  let S := _to_float (gst d) + _to_float (pst d) + _to_float (hst d) + _to_float (qst d) in
  (0 < T /\ 0 < P)
  /\ (0.15 < Qabs (P + S - T) /\ Qabs (P + S - T) <= 2.00)
  /\ _validate_math f f d [] = (d, []).
Proof.
  vm_compute. repeat split; first [reflexivity|discriminate].
Qed.


(** C2, as the code has it, for a record whose confidence is a number of at
    most two decimals between 0 and 1: every warning is charged the penalty
    of the category whose code it starts with, so a category costs its
    penalty once per warning that carries it; each of vendor, date, positive
    total and a positive tax adds 0.05; the sum is clamped to [0, 1] and
    rounded to three decimals.  The record whose only tax is the PST is left
    out. *)
Theorem adjust_confidence_spec (d : receipt) (ws : list string) :
  confidence_in_hundredths d = true ->
  pst_alone d = false ->
  _adjust_confidence d ws
    == round (Qmax 0 (Qmin 1 (base_score d - penalty_total ws + bonuses d))) 3
  /\ 0 <= _adjust_confidence d ws
  /\ _adjust_confidence d ws <= 1.
Proof.
  intros _ Hp.
  assert (E : _adjust_confidence d ws
              == round (Qmax 0 (Qmin 1 (base_score d - penalty_total ws + bonuses d))) 3).
  { unfold _adjust_confidence. rewrite (tax_bonus_agrees d Hp).
    apply round_comp. apply clamp_comp.
    fold (base_score d). unfold bonuses, bonus. fold (positive (total d)).
    pose proof (fold_charge ws (base_score d)) as F.
    destruct (truthy_str (vendor d)), (truthy_str (date d)),
             (positive (total d)), (any_tax d); rewrite F; ring. }
  split; [exact E|].
  destruct (clamp_range (base_score d - penalty_total ws + bonuses d)) as [L U].
  destruct (round_unit_interval _ 3 L U) as [L' U'].
  rewrite E. split; assumption.
Qed.

Lemma adjust_confidence_spec_witness :
  let d := mkReceipt (Some "IGA") (Some "2025-02-01") (Some 10.00) (Some 8.70)
                     None None None None (Some 0.9) in
  let ws := ["TAX_SANITY_ZEROED:gst=12.00≥total=10.00";
             "TAX_SANITY_ZEROED:qst=11.00≥total=10.00"] in
  confidence_in_hundredths d = true /\ pst_alone d = false
  /\ _adjust_confidence d ws == 0.85.
Proof.
  intros d ws. split; [reflexivity|]. split; [reflexivity|].
  destruct (adjust_confidence_spec d ws eq_refl eq_refl) as [E _].
  rewrite E. vm_compute. reflexivity.
Defined.

(** C2, as stated, fails: two tax-sanity warnings cost 0.10 each, where the
    specification charges the category once. *)
Lemma adjust_confidence_repeated_category :
  let d := mkReceipt (Some "IGA") (Some "2025-02-01") (Some 10.00) (Some 8.70)
                     None None None None (Some 0.9) in
  let ws := ["TAX_SANITY_ZEROED:gst=12.00≥total=10.00";
             "TAX_SANITY_ZEROED:qst=11.00≥total=10.00"] in
  _adjust_confidence d ws == 0.85
  /\ confidence_as_specified d ws == 0.95
  /\ ~ _adjust_confidence d ws == confidence_as_specified d ws.
Proof.
  intros d ws. split; [|split].
  - vm_compute. reflexivity.
  - vm_compute. reflexivity.
  - vm_compute. discriminate.
Qed.

(** ** [OllamaClient._merge_with_deterministic] *)

Module MergeFacts.

Import Num NumFacts Logging ReceiptPostProcessor OllamaClient.
Open Scope string_scope.
Open Scope Q_scope.

(** The loop never reads the logger. *)
Lemma fill_loop_fst (fields : list string) (det : DP.result) (m : receipt) (lg : logger) :
  fst (fill_loop fields det m lg) = fold_left (fill_step det) fields m.
Proof.
  revert m lg. induction fields as [|f fields IH]; intros m lg.
  - reflexivity.
  - cbn [fill_loop fold_left]. unfold fill_step at 2.
    destruct (DP.is_some (DP.get det f) && negb (DP.truthy (get m f))).
    + unfold bind, log. apply IH.
    + apply IH.
Qed.

(** One turn fills its own field and leaves the others. *)
Definition untouched (m' m : receipt) : Prop :=
  total m' = total m /\ vendor m' = vendor m /\ date m' = date m.

Lemma fill_step_gst (det : DP.result) (m : receipt) :
  let m' := fill_step det m "gst" in
  gst m' = filled (gst m) (DP.gst det) /\ qst m' = qst m /\ pst m' = pst m
  /\ hst m' = hst m /\ pre_tax m' = pre_tax m /\ untouched m' m.
Proof.
  unfold fill_step, filled, untouched.
  change (DP.get det "gst") with (DP.gst det). change (get m "gst") with (gst m).
  destruct (DP.is_some (DP.gst det) && negb (DP.truthy (gst m))); repeat split; reflexivity.
Qed.

Lemma fill_step_qst (det : DP.result) (m : receipt) :
  let m' := fill_step det m "qst" in
  gst m' = gst m /\ qst m' = filled (qst m) (DP.qst det) /\ pst m' = pst m
  /\ hst m' = hst m /\ pre_tax m' = pre_tax m /\ untouched m' m.
Proof.
  unfold fill_step, filled, untouched.
  change (DP.get det "qst") with (DP.qst det). change (get m "qst") with (qst m).
  destruct (DP.is_some (DP.qst det) && negb (DP.truthy (qst m))); repeat split; reflexivity.
Qed.

Lemma fill_step_pst (det : DP.result) (m : receipt) :
  let m' := fill_step det m "pst" in
  gst m' = gst m /\ qst m' = qst m /\ pst m' = filled (pst m) (DP.pst det)
  /\ hst m' = hst m /\ pre_tax m' = pre_tax m /\ untouched m' m.
Proof.
  unfold fill_step, filled, untouched.
  change (DP.get det "pst") with (DP.pst det). change (get m "pst") with (pst m).
  destruct (DP.is_some (DP.pst det) && negb (DP.truthy (pst m))); repeat split; reflexivity.
Qed.

Lemma fill_step_hst (det : DP.result) (m : receipt) :
  let m' := fill_step det m "hst" in
  gst m' = gst m /\ qst m' = qst m /\ pst m' = pst m
  /\ hst m' = filled (hst m) (DP.hst det) /\ pre_tax m' = pre_tax m /\ untouched m' m.
Proof.
  unfold fill_step, filled, untouched.
  change (DP.get det "hst") with (DP.hst det). change (get m "hst") with (hst m).
  destruct (DP.is_some (DP.hst det) && negb (DP.truthy (hst m))); repeat split; reflexivity.
Qed.

Lemma fill_step_pre_tax (det : DP.result) (m : receipt) :
  let m' := fill_step det m "pre_tax" in
  gst m' = gst m /\ qst m' = qst m /\ pst m' = pst m
  /\ hst m' = hst m /\ pre_tax m' = filled (pre_tax m) (DP.pre_tax det) /\ untouched m' m.
Proof.
  unfold fill_step, filled, untouched.
  change (DP.get det "pre_tax") with (DP.pre_tax det). change (get m "pre_tax") with (pre_tax m).
  destruct (DP.is_some (DP.pre_tax det) && negb (DP.truthy (pre_tax m))); repeat split; reflexivity.
Qed.

Lemma fill_fields (det : DP.result) (m : receipt) (lg : logger) :
  let m' := fst (fill_loop ["gst"; "qst"; "pst"; "hst"; "pre_tax"] det m lg) in
  gst m' = filled (gst m) (DP.gst det)
  /\ qst m' = filled (qst m) (DP.qst det)
  /\ pst m' = filled (pst m) (DP.pst det)
  /\ hst m' = filled (hst m) (DP.hst det)
  /\ pre_tax m' = filled (pre_tax m) (DP.pre_tax det)
  /\ total m' = total m /\ vendor m' = vendor m /\ date m' = date m.
Proof.
  cbv zeta. rewrite fill_loop_fst. cbn [fold_left].
  destruct (fill_step_gst det m) as (a1 & b1 & c1 & d1 & e1 & t1 & v1 & y1).
  generalize dependent (fill_step det m "gst"). intros m1 a1 b1 c1 d1 e1 t1 v1 y1.
  destruct (fill_step_qst det m1) as (a2 & b2 & c2 & d2 & e2 & t2 & v2 & y2).
  generalize dependent (fill_step det m1 "qst"). intros m2 a2 b2 c2 d2 e2 t2 v2 y2.
  destruct (fill_step_pst det m2) as (a3 & b3 & c3 & d3 & e3 & t3 & v3 & y3).
  generalize dependent (fill_step det m2 "pst"). intros m3 a3 b3 c3 d3 e3 t3 v3 y3.
  destruct (fill_step_hst det m3) as (a4 & b4 & c4 & d4 & e4 & t4 & v4 & y4).
  generalize dependent (fill_step det m3 "hst"). intros m4 a4 b4 c4 d4 e4 t4 v4 y4.
  destruct (fill_step_pre_tax det m4) as (a5 & b5 & c5 & d5 & e5 & t5 & v5 & y5).
  generalize dependent (fill_step det m4 "pre_tax"). intros m5 a5 b5 c5 d5 e5 t5 v5 y5.
  repeat split; congruence.
Qed.

Lemma merge_fields (llm : receipt) (det : DP.result) (lg : logger) :
  let merged := fst (_merge_with_deterministic llm det lg) in
  gst merged = filled (gst llm) (DP.gst det)
  /\ qst merged = filled (qst llm) (DP.qst det)
  /\ pst merged = filled (pst llm) (DP.pst det)
  /\ hst merged = filled (hst llm) (DP.hst det)
  /\ pre_tax merged = filled (pre_tax llm) (DP.pre_tax det)
  /\ total merged = merged_total (total llm) (DP.total det)
  /\ vendor merged = merged_text (vendor llm) (DP.vendor det)
  /\ date merged = merged_text (date llm) (DP.date det).
Proof.
  cbv zeta. unfold _merge_with_deterministic, bind.
  pose proof (fill_fields det llm lg) as F. cbv zeta in F.
  destruct (fill_loop ["gst"; "qst"; "pst"; "hst"; "pre_tax"] det llm lg) as [m1 l1].
  cbn [fst] in F. destruct F as (Fg & Fq & Fp & Fh & Fpt & Ft & Fv & Fd).
  change (get m1 "total") with (total m1). rewrite Ft.
  change (DP.get det "total") with (DP.total det).
  unfold merged_total, merged_text.
  destruct m1 as [v1 d1 t1 p1 g1 ps1 h1 q1 c1].
  cbn [gst qst pst hst pre_tax total vendor date] in Fg, Fq, Fp, Fh, Fpt, Ft, Fv, Fd.
  subst v1 d1 t1 p1 g1 ps1 h1 q1.
  destruct (total llm) as [lt|]; destruct (DP.total det) as [dt|]; cbn [DP.truthy];
    try (destruct (Qeq_bool lt 0) eqn:El); try (destruct (Qeq_bool dt 0) eqn:Ed);
    cbn [negb andb]; rewrite ?El; change (Qeq_bool 0.0 0) with true; cbn [negb andb];
    try (match goal with
         | |- context [Qlt_bool 1.00 ?x] => destruct (Qlt_bool 1.00 x)
         end);
    unfold log, ret; cbn [fst set set_vendor set_date vendor date String.eqb Ascii.eqb Bool.eqb];
    destruct (truthy_str (DP.vendor det) && negb (truthy_str (vendor llm)));
    cbn [fst set set_vendor set_date vendor date];
    destruct (truthy_str (DP.date det) && negb (truthy_str (date llm)));
    cbn [fst set set_vendor set_date vendor date gst qst pst hst pre_tax total];
    repeat split; reflexivity.
Qed.

End MergeFacts.

Import Num NumFacts Logging ReceiptPostProcessor OllamaClient MergeFacts.

(** What the merge does, field by field: for each of gst, qst, pst, hst and
    pre_tax the deterministic value is taken exactly when it is present and
    the model's is empty; for the total the deterministic value is taken
    when both are present and differ by more than 1.00; for vendor and date
    the model's value is kept whenever it is not empty, and the
    deterministic value is used only when the model's is empty. *)
Lemma merge_precedence (llm : receipt) (det : DP.result) (lg : logger) :
  let merged := fst (_merge_with_deterministic llm det lg) in
  (forall field, In field ["gst"; "qst"; "pst"; "hst"; "pre_tax"] ->
     (DP.is_some (DP.get det field) = true /\ DP.truthy (get llm field) = false ->
      get merged field = DP.get det field)
     /\ (~ (DP.is_some (DP.get det field) = true /\ DP.truthy (get llm field) = false) ->
         get merged field = get llm field))
  /\ (forall dt lt, DP.total det = Some dt -> total llm = Some lt ->
        ~ dt == 0 -> ~ lt == 0 -> 1.00 < Qabs (dt - lt) ->
        total merged = Some dt)
  /\ (truthy_str (vendor llm) = true -> vendor merged = vendor llm)
  /\ (truthy_str (vendor llm) = false -> truthy_str (DP.vendor det) = true ->
      vendor merged = DP.vendor det)
  /\ (truthy_str (date llm) = true -> date merged = date llm)
  /\ (truthy_str (date llm) = false -> truthy_str (DP.date det) = true ->
      date merged = DP.date det).
Proof.
  intro merged.
  destruct (merge_fields llm det lg) as (Fg & Fq & Fp & Fh & Fpt & Ft & Fv & Fd).
  fold merged in Fg, Fq, Fp, Fh, Fpt, Ft, Fv, Fd.
  split; [|split; [|split; [|split; [|split]]]].
  - intros field Hin.
    assert (F : get merged field = filled (get llm field) (DP.get det field)).
    { cbn [In] in Hin.
      destruct Hin as [E|[E|[E|[E|[E|[]]]]]]; subst field;
        cbn [get DP.get String.eqb Ascii.eqb Bool.eqb]; assumption. }
    rewrite F. unfold filled. split.
    + intros [H1 H2]. rewrite H1, H2. reflexivity.
    + intro N. destruct (DP.is_some (DP.get det field)), (DP.truthy (get llm field));
        cbn; try reflexivity.
      exfalso. apply N. split; reflexivity.
  - intros dt lt Hd Hl Nd Nl Hgap.
    rewrite Ft, Hd, Hl. unfold merged_total, DP.truthy.
    apply Qeq_bool_false_iff in Nd. apply Qeq_bool_false_iff in Nl.
    apply Qlt_bool_iff in Hgap. rewrite Nd, Nl, Hgap. reflexivity.
  - intro H. rewrite Fv. unfold merged_text. rewrite H.
    rewrite andb_false_r. reflexivity.
  - intros H1 H2. rewrite Fv. unfold merged_text. rewrite H1, H2. reflexivity.
  - intro H. rewrite Fd. unfold merged_text. rewrite H.
    rewrite andb_false_r. reflexivity.
  - intros H1 H2. rewrite Fd. unfold merged_text. rewrite H1, H2. reflexivity.
Qed.

(** C3, at a conflict.  The model read the vendor Walmart and the date
    2025-03-01, the deterministic parser IGA and 2025-02-01: the merge keeps
    the model's vendor and date, where the comment at its call ("Merge
    deterministic wins over LLM when values conflict") and the claim give
    them to the deterministic parser, as the code does for the total. *)
Lemma merge_keeps_model_vendor_and_date :
  let llm := mkReceipt (Some "Walmart") (Some "2025-03-01") (Some 47.75) (Some 41.53)
                       (Some 2.08) (Some 0) (Some 0) (Some 4.14) (Some 0.9) in
  let det := DP.mkResult (Some 47.75) (Some 2.08) (Some 4.14) None None (Some 41.53)
                         (Some "2025-02-01") (Some "IGA") in
  let merged := fst (_merge_with_deterministic llm det []) in
  DP.vendor det = Some "IGA" /\ vendor merged = Some "Walmart"
  /\ DP.date det = Some "2025-02-01" /\ date merged = Some "2025-03-01"
  /\ ~ (DP.vendor det <> None -> vendor merged = DP.vendor det)
  /\ ~ (DP.date det <> None -> date merged = DP.date det).
Proof.
  cbv zeta. repeat split; try reflexivity.
  - intro H. assert (E := H ltac:(discriminate)). vm_compute in E. discriminate E.
  - intro H. assert (E := H ltac:(discriminate)). vm_compute in E. discriminate E.
Qed.

(** ** [DeterministicParser]: resolution of amount anchors *)

Module ResolveFacts.

Import Num NumFacts Text Regex Logging DeterministicParser.
Open Scope string_scope.
Open Scope Z_scope.

Section PyMax.

Variable A : Type.
Variable gt : A -> A -> bool.
Hypothesis gt_irrefl : forall a, gt a a = false.
Hypothesis gt_asym : forall a b, gt a b = true -> gt b a = false.
Hypothesis gt_neg_trans :
  forall a b c, gt a b = false -> gt b c = false -> gt a c = false.

(** [max] returns an element of the sequence that none of them beats. *)
Lemma py_max_spec (l : list A) (x : A) :
  In (py_max gt x l) (x :: l)
  /\ forall m, In m (x :: l) -> gt m (py_max gt x l) = false.
Proof.
  unfold py_max. revert x.
  induction l as [|y l IH]; intro x.
  - cbn [fold_left]. split.
    + left. reflexivity.
    + intros m [E|[]]. subst m. apply gt_irrefl.
  - cbn [fold_left]. destruct (gt y x) eqn:G.
    + destruct (IH y) as [I D]. split.
      * right. exact I.
      * intros m [E|Hm].
        -- subst m. apply gt_neg_trans with y.
           ++ apply gt_asym. exact G.
           ++ apply D. left. reflexivity.
        -- apply D. exact Hm.
    + destruct (IH x) as [I D]. split.
      * destruct I as [E|I]; [left; exact E|right; right; exact I].
      * intros m [E|[E|Hm]].
        -- apply D. left. exact E.
        -- subst m. apply gt_neg_trans with x.
           ++ exact G.
           ++ apply D. left. reflexivity.
        -- apply D. right. exact Hm.
Qed.

End PyMax.

Lemma gtb_irrefl (a : Z) : Z.gtb a a = false.
Proof. rewrite Z.gtb_ltb. apply Z.ltb_irrefl. Qed.

Lemma gtb_asym (a b : Z) : Z.gtb a b = true -> Z.gtb b a = false.
Proof. rewrite !Z.gtb_ltb. intro H. apply Z.ltb_lt in H. apply Z.ltb_ge. lia. Qed.

Lemma gtb_neg_trans (a b c : Z) :
  Z.gtb a b = false -> Z.gtb b c = false -> Z.gtb a c = false.
Proof.
  rewrite !Z.gtb_ltb. intros H1 H2.
  apply Z.ltb_ge in H1. apply Z.ltb_ge in H2. apply Z.ltb_ge. lia.
Qed.

(** The highest priority of a non-empty list of anchors. *)
Lemma best_priority_spec (m0 : anchor) (ms : list anchor) :
  let bp := py_max Z.gtb (priority m0) (map priority ms) in
  (exists b, In b (m0 :: ms) /\ priority b = bp)
  /\ forall m, In m (m0 :: ms) -> priority m <= bp.
Proof.
  cbv zeta.
  destruct (py_max_spec Z Z.gtb gtb_irrefl gtb_asym gtb_neg_trans
              (map priority ms) (priority m0)) as [I D].
  split.
  - change (priority m0 :: map priority ms) with (map priority (m0 :: ms)) in I.
    apply in_map_iff in I. destruct I as [b [E Hb]]. exists b. split; assumption.
  - intros m Hm.
    assert (Hp : In (priority m) (priority m0 :: map priority ms)).
    { change (priority m0 :: map priority ms) with (map priority (m0 :: ms)).
      apply in_map. exact Hm. }
    specialize (D _ Hp). rewrite Z.gtb_ltb in D. apply Z.ltb_ge in D. exact D.
Qed.

Lemma bottom_most_spec (b0 : anchor) (bs : list anchor) :
  let best := py_max (fun a b => line_idx b <? line_idx a) b0 bs in
  In best (b0 :: bs) /\ forall m, In m (b0 :: bs) -> line_idx m <= line_idx best.
Proof.
  cbv zeta.
  destruct (py_max_spec anchor (fun a b : anchor => line_idx b <? line_idx a)) with (l := bs) (x := b0)
    as [I D].
  - intro a. apply Z.ltb_irrefl.
  - intros a b H. apply Z.ltb_lt in H. apply Z.ltb_ge. lia.
  - intros a b c H1 H2. apply Z.ltb_ge in H1. apply Z.ltb_ge in H2. apply Z.ltb_ge. lia.
  - split; [exact I|].
    intros m Hm. specialize (D m Hm). cbv beta in D. apply Z.ltb_ge in D. exact D.
Qed.

Lemma key_taxes_spec (m0 : anchor) (ms : list anchor) :
  let best := py_max key_taxes_gt m0 ms in
  In best (m0 :: ms)
  /\ forall m, In m (m0 :: ms) ->
       priority m < priority best
       \/ (priority m = priority best /\ line_idx best <= line_idx m).
Proof.
  cbv zeta.
  destruct (py_max_spec anchor key_taxes_gt) with (l := ms) (x := m0) as [I D].
  - intro a. unfold key_taxes_gt.
    rewrite !Z.ltb_irrefl. rewrite andb_false_r. reflexivity.
  - intros a b H. unfold key_taxes_gt in *.
    apply orb_true_iff in H. apply orb_false_iff.
    destruct H as [H|H].
    + apply Z.ltb_lt in H. split; [apply Z.ltb_ge; lia|].
      apply andb_false_iff. left. apply Z.eqb_neq. lia.
    + apply andb_true_iff in H. destruct H as [H1 H2].
      apply Z.eqb_eq in H1. apply Z.ltb_lt in H2.
      split; [apply Z.ltb_ge; lia|].
      apply andb_false_iff. right. apply Z.ltb_ge. lia.
  - intros a b c H1 H2. unfold key_taxes_gt in *.
    apply orb_false_iff in H1. apply orb_false_iff in H2. apply orb_false_iff.
    destruct H1 as [A1 B1], H2 as [A2 B2].
    apply Z.ltb_ge in A1. apply Z.ltb_ge in A2.
    apply andb_false_iff in B1. apply andb_false_iff in B2.
    split; [apply Z.ltb_ge; lia|].
    apply andb_false_iff.
    destruct (Z.eq_dec (priority a) (priority c)) as [E|N]; [|left; apply Z.eqb_neq; exact N].
    right. apply Z.ltb_ge.
    destruct B1 as [B1|B1]; destruct B2 as [B2|B2];
      try (apply Z.eqb_neq in B1); try (apply Z.eqb_neq in B2);
      try (apply Z.ltb_ge in B1); try (apply Z.ltb_ge in B2); lia.
  - split; [exact I|].
    intros m Hm. specialize (D m Hm).
    set (best := py_max key_taxes_gt m0 ms) in *.
    unfold key_taxes_gt in D.
    apply orb_false_iff in D. destruct D as [D1 D2].
    apply Z.ltb_ge in D1. apply andb_false_iff in D2.
    destruct (Z.eq_dec (priority m) (priority best)) as [E|N].
    + right. split; [exact E|].
      destruct D2 as [D2|D2]; [apply Z.eqb_neq in D2; contradiction|].
      apply Z.ltb_ge in D2. lia.
    + left. lia.
Qed.

(** What [resolve] picks: for the total, the bottom-most anchor among those
    of the highest priority; for any other field, the top-most one. *)
Lemma resolve_spec (field : string) (matches : list anchor) (a : Q) :
  resolve field matches = Some a ->
  exists best,
    In best matches /\ amount best = a
    /\ (forall m, In m matches -> priority m <= priority best)
    /\ (forall m, In m matches -> priority m = priority best ->
          if String.eqb field "total"
          then line_idx m <= line_idx best
          else line_idx best <= line_idx m).
Proof.
  unfold resolve. destruct matches as [|m0 ms]; [discriminate|].
  destruct (String.eqb field "total").
  - destruct (best_priority_spec m0 ms) as [[b [Hb Eb]] Hmax]. cbv zeta in Eb, Hmax.
    set (bp := py_max Z.gtb (priority m0) (map priority ms)) in *.
    destruct (filter (fun m => priority m =? bp) (m0 :: ms)) as [|b0 bs] eqn:F.
    + exfalso.
      assert (Hf : In b (filter (fun m => priority m =? bp) (m0 :: ms))).
      { apply filter_In. split; [exact Hb|apply Z.eqb_eq; exact Eb]. }
      rewrite F in Hf. exact Hf.
    + intro H. injection H as H.
      destruct (bottom_most_spec b0 bs) as [I D]. cbv zeta in I, D.
      set (best := py_max (fun a0 b1 => line_idx b1 <? line_idx a0) b0 bs) in *.
      rewrite <- F in I, D.
      apply filter_In in I. destruct I as [I1 I2]. apply Z.eqb_eq in I2.
      exists best. split; [exact I1|]. split; [exact H|]. split.
      * intros m Hm. rewrite I2. apply Hmax. exact Hm.
      * intros m Hm E. apply D. apply filter_In. split; [exact Hm|].
        apply Z.eqb_eq. rewrite E. exact I2.
  - intro H. injection H as H.
    destruct (key_taxes_spec m0 ms) as [I D]. cbv zeta in I, D.
    exists (py_max key_taxes_gt m0 ms). split; [exact I|]. split; [exact H|]. split.
    + intros m Hm. destruct (D m Hm) as [L|[E _]]; lia.
    + intros m Hm E. destruct (D m Hm) as [L|[_ L]]; [lia|exact L].
Qed.

Lemma resolve_some (field : string) (matches : list anchor) :
  matches <> [] -> exists a, resolve field matches = Some a.
Proof.
  intro N. unfold resolve. destruct matches as [|m0 ms]; [contradiction|].
  destruct (String.eqb field "total").
  - destruct (best_priority_spec m0 ms) as [[b [Hb Eb]] _]. cbv zeta in Eb.
    set (bp := py_max Z.gtb (priority m0) (map priority ms)) in *.
    destruct (filter (fun m => priority m =? bp) (m0 :: ms)) as [|b0 bs] eqn:F.
    + exfalso.
      assert (Hf : In b (filter (fun m => priority m =? bp) (m0 :: ms))).
      { apply filter_In. split; [exact Hb|apply Z.eqb_eq; exact Eb]. }
      rewrite F in Hf. exact Hf.
    + eexists. reflexivity.
  - eexists. reflexivity.
Qed.

End ResolveFacts.

(** ** [DeterministicParser]: the anchors of a text *)

Module AnchorFacts.

Import Num NumFacts Text Regex Logging DeterministicParser.
Open Scope string_scope.

Lemma entries_app (f1 f2 : list (string * list anchor)) :
  entries (f1 ++ f2) = (entries f1 ++ entries f2)%list.
Proof. unfold entries. apply flat_map_app. Qed.

(** [setdefault(...).append(a)] adds the anchor and nothing else. *)
Lemma entries_setdefault (found : list (string * list anchor)) (field : string) (a : anchor)
      (x : string * anchor) :
  In x (entries (setdefault_append found field a))
  <-> In x (entries found) \/ x = (field, a).
Proof.
  induction found as [|[f l] rest IH].
  - cbn. intuition.
  - cbn [setdefault_append]. destruct (String.eqb f field) eqn:E.
    + apply String.eqb_eq in E. subst f.
      unfold entries. cbn [flat_map]. rewrite !in_app_iff, map_app, in_app_iff.
      cbn [map In]. intuition.
    + unfold entries in *. cbn [flat_map]. rewrite !in_app_iff. rewrite IH. intuition.
Qed.

Lemma keys_setdefault (found : list (string * list anchor)) (field : string) (a : anchor) (k : string) :
  In k (map fst (setdefault_append found field a)) <-> In k (map fst found) \/ k = field.
Proof.
  induction found as [|[f l] rest IH].
  - cbn. intuition.
  - cbn [setdefault_append]. destruct (String.eqb f field) eqn:E.
    + apply String.eqb_eq in E. subst f. cbn [map fst In]. intuition.
    + cbn [map fst In]. rewrite IH. intuition.
Qed.

Lemma well_formed_setdefault (found : list (string * list anchor)) (field : string) (a : anchor) :
  well_formed found -> well_formed (setdefault_append found field a).
Proof.
  intros [ND NE]. induction found as [|[f l] rest IH].
  - split.
    + cbn. constructor; [intros []|constructor].
    + intros f l [E|[]]. injection E as _ E. subst l. discriminate.
  - cbn [setdefault_append]. destruct (String.eqb f field) eqn:E.
    + apply String.eqb_eq in E. subst f. split.
      * exact ND.
      * intros f' l' [H|H].
        -- injection H as _ H. subst l'. destruct l; discriminate.
        -- apply (NE f' l'). right. exact H.
    + cbn [map fst] in ND. inversion ND as [|? ? Hn ND']. subst.
      destruct IH as [ND2 NE2].
      * exact ND'.
      * intros f' l' H. apply (NE f' l'). right. exact H.
      * split.
        -- cbn [map fst]. constructor; [|exact ND2].
           intro H. apply keys_setdefault in H. destruct H as [H|H].
           ++ contradiction.
           ++ subst field. rewrite String.eqb_refl in E. discriminate.
        -- intros f' l' [H|H].
           ++ injection H as H1 H2. subst. apply (NE f' l'). left. reflexivity.
           ++ apply (NE2 f' l'). exact H.
Qed.

Section FoldInvariant.

Variables (B : Type) (step : list (string * list anchor) -> B -> list (string * list anchor)).
Variable adds : B -> string * anchor -> Prop.
Hypothesis step_entries :
  forall found b x, In x (entries (step found b)) <-> In x (entries found) \/ adds b x.
Hypothesis step_wf : forall found b, well_formed found -> well_formed (step found b).

Lemma fold_entries (l : list B) (found : list (string * list anchor)) (x : string * anchor) :
  In x (entries (fold_left step l found))
  <-> In x (entries found) \/ exists b, In b l /\ adds b x.
Proof.
  revert found. induction l as [|b l IH]; intro found.
  - cbn [fold_left]. split; [intro H; left; exact H|].
    intros [H|[b [[] _]]]. exact H.
  - cbn [fold_left]. rewrite IH. rewrite step_entries. split.
    + intros [[H|H]|[b' [H1 H2]]].
      * left. exact H.
      * right. exists b. split; [left; reflexivity|exact H].
      * right. exists b'. split; [right; exact H1|exact H2].
    + intros [H|[b' [[E|H1] H2]]].
      * left. left. exact H.
      * subst b'. left. right. exact H2.
      * right. exists b'. split; assumption.
Qed.

Lemma fold_wf (l : list B) (found : list (string * list anchor)) :
  well_formed found -> well_formed (fold_left step l found).
Proof.
  revert found. induction l as [|b l IH]; intros found W.
  - exact W.
  - cbn [fold_left]. apply IH. apply step_wf. exact W.
Qed.

End FoldInvariant.

Lemma rule_step_entries (idx : Z) (line : string) found rule x :
  In x (entries (scan_rule idx line (_strip_accents (strip (lower line))) found rule))
  <-> In x (entries found) \/ rule_adds idx line rule x.
Proof.
  destruct rule as [[field pattern] priority]. unfold scan_rule, rule_adds.
  destruct (Regex.found pattern (_strip_accents (strip (lower line)))) eqn:F; cbn [negb].
  - destruct (_parse_amount line) as [amount|] eqn:PA.
    + destruct (negb (Qeq_bool amount 0) && Qlt_bool 0 amount) eqn:C.
      * rewrite entries_setdefault.
        apply andb_true_iff in C. destruct C as [_ C]. apply Qlt_bool_iff in C.
        split.
        -- intros [H|H]; [left; exact H|].
           right. exists amount. repeat split; assumption.
        -- intros [H|[am [E [_ [PA' _]]]]]; [left; exact H|].
           right. injection PA' as PA'. subst am. exact E.
      * split; [intro H; left; exact H|].
        intros [H|[am [_ [_ [PA' L]]]]]; [exact H|].
        injection PA' as PA'. subst am. exfalso.
        apply andb_false_iff in C. destruct C as [C|C].
        -- apply negb_false_iff in C. apply Qeq_bool_iff in C. rewrite C in L.
           apply (Qlt_irrefl 0). exact L.
        -- apply Qlt_bool_iff in L. congruence.
    + split; [intro H; left; exact H|].
      intros [H|[am [_ [_ [PA' _]]]]]; [exact H|discriminate].
  - split; [intro H; left; exact H|].
    intros [H|[am [_ [F' _]]]]; [exact H|discriminate].
Qed.

Lemma rule_step_wf (idx : Z) (line : string) found rule :
  well_formed found ->
  well_formed (scan_rule idx line (_strip_accents (strip (lower line))) found rule).
Proof.
  intro W. destruct rule as [[field pattern] priority]. unfold scan_rule.
  destruct (negb (Regex.found pattern (_strip_accents (strip (lower line))))); [exact W|].
  destruct (_parse_amount line) as [amount|]; [|exact W].
  destruct (negb (Qeq_bool amount 0) && Qlt_bool 0 amount); [|exact W].
  apply well_formed_setdefault. exact W.
Qed.

Lemma scan_line_entries (idx : Z) (line : string) found x :
  In x (entries (scan_line idx line found))
  <-> In x (entries found) \/ exists rule, In rule _COMPILED /\ rule_adds idx line rule x.
Proof.
  unfold scan_line.
  apply (fold_entries _ (scan_rule idx line (_strip_accents (strip (lower line))))
                      (rule_adds idx line)).
  intros. apply rule_step_entries.
Qed.

Lemma scan_line_wf (idx : Z) (line : string) found :
  well_formed found -> well_formed (scan_line idx line found).
Proof.
  unfold scan_line. apply fold_wf. intros. apply rule_step_wf. assumption.
Qed.

Lemma enumerate_from_In (A : Type) (l : list A) (base i : Z) (x : A) :
  In (i, x) (enumerate_from base l)
  <-> (base <= i)%Z /\ nth_error l (Z.to_nat (i - base)) = Some x.
Proof.
  revert base. induction l as [|y l IH]; intro base.
  - cbn. split; [intros []|]. intros [_ H]. destruct (Z.to_nat (i - base)); discriminate.
  - cbn [enumerate_from In]. rewrite IH. split.
    + intros [E|[L N]].
      * injection E as E1 E2. subst. split; [lia|].
        replace (i - i)%Z with 0%Z by lia. reflexivity.
      * split; [lia|].
        replace (Z.to_nat (i - base)) with (S (Z.to_nat (i - (base + 1)))) by lia.
        exact N.
    + intros [L N].
      destruct (Z.eq_dec i base) as [E|NE].
      * subst i. replace (base - base)%Z with 0%Z in N by lia.
        cbn in N. injection N as N. subst. left. reflexivity.
      * right. split; [lia|].
        replace (Z.to_nat (i - base)) with (S (Z.to_nat (i - (base + 1)))) in N by lia.
        exact N.
Qed.

Lemma enumerate_In (A : Type) (l : list A) (i : Z) (x : A) :
  In (i, x) (enumerate l) <-> (0 <= i)%Z /\ nth_error l (Z.to_nat i) = Some x.
Proof.
  unfold enumerate. rewrite enumerate_from_In.
  replace (i - 0)%Z with i by lia. reflexivity.
Qed.

Lemma fold_pairs (A B C : Type) (g : B -> C -> A -> A) (l : list (B * C)) (acc : A) :
  fold_left (fun acc '(i, x) => g i x acc) l acc
  = fold_left (fun acc (b : B * C) => g (fst b) (snd b) acc) l acc.
Proof.
  revert acc. induction l as [|[i x] l IH]; intro acc; [reflexivity|].
  cbn [fold_left fst snd]. apply IH.
Qed.

Lemma anchors_fold (lines : list string) :
  anchors lines
  = fold_left (fun found (b : Z * string) => scan_line (fst b) (snd b) found)
              (enumerate lines) [].
Proof.
  exact (fold_pairs _ _ _ scan_line (enumerate lines) []).
Qed.

Lemma anchors_entries (lines : list string) (x : string * anchor) :
  In x (entries (anchors lines))
  <-> exists b, In b (enumerate lines)
                /\ exists rule, In rule _COMPILED /\ rule_adds (fst b) (snd b) rule x.
Proof.
  rewrite anchors_fold.
  rewrite (fold_entries _ (fun found (b : Z * string) => scan_line (fst b) (snd b) found)
             (fun b x => exists rule, In rule _COMPILED /\ rule_adds (fst b) (snd b) rule x)).
  2: { intros. apply scan_line_entries. }
  split; [intros [[]|H]; exact H|intro H; right; exact H].
Qed.

Lemma rule_adds_iff (idx : Z) (line field : string) (pattern : re) (pr : Z) (x : string * anchor) :
  rule_adds idx line (field, pattern, pr) x
  <-> exists amount,
        x = (field, (amount, pr, idx))
        /\ Regex.found pattern (_strip_accents (strip (lower line))) = true
        /\ _parse_amount line = Some amount
        /\ (0 < amount)%Q.
Proof. reflexivity. Qed.

(** The anchors of a text are exactly its label matches. *)
Lemma anchors_label_matches (lines : list string) (field : string) (a : anchor) :
  In (field, a) (entries (anchors lines)) <-> label_match lines field a.
Proof.
  rewrite anchors_entries. unfold label_match. split.
  - intros [[idx line] [Hin [[[f p] pr] [Hr Ha]]]].
    apply rule_adds_iff in Ha.
    destruct Ha as [am [E [F [PA L]]]]. injection E as E1 E2. subst f a.
    apply enumerate_In in Hin. destruct Hin as [H0 Hn].
    exists line, p.
    split; [exact H0|]. split; [exact Hn|]. split; [exact Hr|].
    split; [exact F|]. split; [exact PA|exact L].
  - intros [line [pattern [H0 [Hn [Hr [F [PA L]]]]]]].
    exists (line_idx a, line). split.
    + apply enumerate_In. split; assumption.
    + exists (field, pattern, priority a). split; [exact Hr|].
      apply rule_adds_iff. exists (amount a).
      split; [|split; [exact F|split; [exact PA|exact L]]].
      destruct a as [[am pr] ix]. reflexivity.
Qed.

Lemma fold_pairs_wf (g : Z -> string -> list (string * list anchor) -> list (string * list anchor))
      (l : list (Z * string)) (found : list (string * list anchor)) :
  (forall i x f, well_formed f -> well_formed (g i x f)) ->
  well_formed found ->
  well_formed (fold_left (fun found '(idx, line) => g idx line found) l found).
Proof.
  intro Hg. revert found. induction l as [|[i ln] l IH]; intros found W; [exact W|].
  cbn [fold_left]. apply IH. apply Hg. exact W.
Qed.

Lemma anchors_wf (lines : list string) : well_formed (anchors lines).
Proof.
  apply (fold_pairs_wf scan_line (enumerate lines) []).
  - intros i x f W. apply scan_line_wf. exact W.
  - split; [constructor|intros f l []].
Qed.

(** Every amount the grammar yields has two decimals. *)
Lemma _parse_amount_cents (s : string) (a : Q) :
  _parse_amount s = Some a -> is_cents a = true.
Proof.
  unfold _parse_amount.
  destruct (match search AMOUNT_RE s with
            | Some m => group s m 1
            | None => match search BARE_AMOUNT_RE s with
                      | Some m2 => group s m2 1
                      | None => None
                      end
            end) as [raw|]; [|discriminate].
  intro H. injection H as H. subst a. apply is_cents_round.
Qed.

Lemma in_entries (found : list (string * list anchor)) (f : string) (l : list anchor) (a : anchor) :
  In (f, l) found -> In a l -> In (f, a) (entries found).
Proof.
  intros Hf Ha. unfold entries. apply in_flat_map.
  exists (f, l). split; [exact Hf|]. apply in_map. exact Ha.
Qed.

End AnchorFacts.

(** ** [DeterministicParser]: from the anchors to the result of [parse] *)

Module ParseFacts.

Import Num NumFacts Text Regex Logging DeterministicParser ResolveFacts AnchorFacts.
Open Scope string_scope.

Lemma extract_amounts_In (lines : list string) (field : string) (a : Q) :
  In (field, a) (_extract_amounts lines)
  <-> exists matches, In (field, matches) (anchors lines) /\ resolve field matches = Some a.
Proof.
  unfold _extract_amounts. rewrite in_flat_map. split.
  - intros [[f ms] [Hin H]]. destruct (resolve f ms) as [v|] eqn:R; [|destruct H].
    destruct H as [E|[]]. injection E as E1 E2. subst f v.
    exists ms. split; assumption.
  - intros [ms [Hin R]]. exists (field, ms). split; [exact Hin|].
    rewrite R. left. reflexivity.
Qed.

Lemma extract_amounts_keys (found : list (string * list anchor)) (k : string) :
  In k (map fst (flat_map (fun '(field, matches) =>
                             match resolve field matches with
                             | Some v => [(field, v)]
                             | None => []
                             end) found)) ->
  In k (map fst found).
Proof.
  induction found as [|[f ms] rest IH]; [intros []|].
  cbn [flat_map]. rewrite map_app, in_app_iff. intros [H|H].
  - destruct (resolve f ms); [|destruct H]. destruct H as [E|[]]. left. exact E.
  - right. apply IH. exact H.
Qed.

Lemma extract_amounts_NoDup (lines : list string) : NoDup (map fst (_extract_amounts lines)).
Proof.
  unfold _extract_amounts. destruct (anchors_wf lines) as [ND _].
  induction (anchors lines) as [|[f ms] rest IH]; [constructor|].
  cbn [map fst] in ND. inversion ND as [|? ? Hn ND']. subst.
  cbn [flat_map]. rewrite map_app.
  destruct (resolve f ms) as [v|].
  - cbn [map fst app]. constructor; [|apply IH; exact ND'].
    intro H. apply Hn. apply extract_amounts_keys. exact H.
  - cbn [map app]. apply IH. exact ND'.
Qed.

Lemma amounts_get_acc (field : string) (amounts : list (string * Q)) (acc : option Q) :
  ~ In field (map fst amounts) ->
  fold_left (fun acc '(f, v) => if String.eqb f field then Some v else acc) amounts acc = acc.
Proof.
  revert acc. induction amounts as [|[f v] rest IH]; intros acc N; [reflexivity|].
  cbn [fold_left]. cbn [map fst In] in N.
  destruct (String.eqb f field) eqn:E.
  - apply String.eqb_eq in E. exfalso. apply N. left. exact E.
  - apply IH. intro H. apply N. right. exact H.
Qed.

Lemma amounts_get_gen (field : string) (amounts : list (string * Q)) (acc : option Q) (v : Q) :
  NoDup (map fst amounts) ->
  (fold_left (fun acc '(f, v) => if String.eqb f field then Some v else acc) amounts acc = Some v
   <-> In (field, v) amounts \/ (~ In field (map fst amounts) /\ acc = Some v)).
Proof.
  revert acc. induction amounts as [|[f x] rest IH]; intros acc ND.
  - cbn. split; [intro H; right; split; [intros []|exact H]|].
    intros [[]|[_ H]]. exact H.
  - cbn [map fst] in ND. inversion ND as [|? ? Hn ND']. subst.
    cbn [fold_left map fst In]. destruct (String.eqb f field) eqn:E.
    + apply String.eqb_eq in E. subst f.
      rewrite (amounts_get_acc field rest (Some x) Hn). split.
      * intro H. injection H as H. subst x. left. left. reflexivity.
      * intros [[H|H]|[N _]].
        -- injection H as H. subst x. reflexivity.
        -- exfalso. apply Hn. apply (in_map fst) in H. exact H.
        -- exfalso. apply N. left. reflexivity.
    + rewrite (IH acc ND'). apply String.eqb_neq in E. split.
      * intros [H|[N H]].
        -- left. right. exact H.
        -- right. split; [|exact H]. intros [H'|H']; contradiction.
      * intros [[H|H]|[N H]].
        -- injection H as H1 H2. contradiction.
        -- left. exact H.
        -- right. split; [|exact H]. intro H'. apply N. right. exact H'.
Qed.

(** With every key once, [amounts.get] finds the pair of the key. *)
Lemma amounts_get_In (field : string) (amounts : list (string * Q)) (v : Q) :
  NoDup (map fst amounts) ->
  (amounts_get field amounts = Some v <-> In (field, v) amounts).
Proof.
  intro ND. unfold amounts_get. rewrite (amounts_get_gen field amounts None v ND).
  split; [|intro H; left; exact H].
  intros [H|[_ H]]; [exact H|discriminate].
Qed.

(** The value [parse] starts from for an amount field is that of the
    resolved anchors. *)
Lemma get_set (r : result) (f' f : string) (v : option Q) :
  In f AMOUNT_FIELDS ->
  get (set r f' v) f = if String.eqb f' f then v else get r f.
Proof.
  intro Hin. unfold AMOUNT_FIELDS in Hin. cbn [In] in Hin.
  unfold set.
  destruct (String.eqb f' "total") eqn:E1;
    [apply String.eqb_eq in E1; subst f'|];
  [|destruct (String.eqb f' "gst") eqn:E2;
    [apply String.eqb_eq in E2; subst f'|];
  [|destruct (String.eqb f' "qst") eqn:E3;
    [apply String.eqb_eq in E3; subst f'|];
  [|destruct (String.eqb f' "pst") eqn:E4;
    [apply String.eqb_eq in E4; subst f'|];
  [|destruct (String.eqb f' "hst") eqn:E5;
    [apply String.eqb_eq in E5; subst f'|];
  [|destruct (String.eqb f' "pre_tax") eqn:E6;
    [apply String.eqb_eq in E6; subst f'|]]]]]];
  destruct Hin as [E|[E|[E|[E|[E|[E|[]]]]]]]; subst f;
    rewrite ?E1, ?E2, ?E3, ?E4, ?E5, ?E6; reflexivity.
Qed.

Lemma assign_get (amounts : list (string * Q)) (r : result) (f : string) :
  In f AMOUNT_FIELDS ->
  get (fold_left (fun r '(field, value) => set r field (Some value)) amounts r) f
  = fold_left (fun acc '(f', v) => if String.eqb f' f then Some v else acc) amounts (get r f).
Proof.
  intro Hin. revert r. induction amounts as [|[f' v] rest IH]; intro r; [reflexivity|].
  cbn [fold_left]. rewrite IH. rewrite (get_set r f' f (Some v) Hin). reflexivity.
Qed.

Lemma assign_text (amounts : list (string * Q)) (r : result) :
  date (fold_left (fun r '(field, value) => set r field (Some value)) amounts r) = date r
  /\ vendor (fold_left (fun r '(field, value) => set r field (Some value)) amounts r) = vendor r.
Proof.
  revert r. induction amounts as [|[f' v] rest IH]; intro r; [split; reflexivity|].
  cbn [fold_left]. destruct (IH (set r f' (Some v))) as [H1 H2]. rewrite H1, H2.
  unfold set.
  destruct (String.eqb f' "total"); [split; reflexivity|].
  destruct (String.eqb f' "gst"); [split; reflexivity|].
  destruct (String.eqb f' "qst"); [split; reflexivity|].
  destruct (String.eqb f' "pst"); [split; reflexivity|].
  destruct (String.eqb f' "hst"); [split; reflexivity|].
  destruct (String.eqb f' "pre_tax"); split; reflexivity.
Qed.

(** The amount fields of the result: the resolved anchors, a tax passed
    through the sanity check. *)
Lemma parse_amounts (text : string) (lg : logger) :
  let r := fst (parse text lg) in
  let amounts := _extract_amounts (_clean_lines text) in
  let t := amounts_get "total" amounts in
  total r = t
  /\ pre_tax r = amounts_get "pre_tax" amounts
  /\ gst r = sane_tax t (amounts_get "gst" amounts)
  /\ qst r = sane_tax t (amounts_get "qst" amounts)
  /\ pst r = sane_tax t (amounts_get "pst" amounts)
  /\ hst r = sane_tax t (amounts_get "hst" amounts).
Proof.
  cbv zeta. unfold parse, bind.
  destruct (_extract_vendor (_clean_lines text) text lg) as [v l1].
  destruct (_extract_date (_clean_lines text) l1) as [d l2].
  unfold log, ret. cbn [fst].
  set (amounts := _extract_amounts (_clean_lines text)).
  set (r0 := set_date (set_vendor empty_result v) d).
  set (r1 := fold_left (fun r '(field, value) => set r field (Some value)) amounts r0).
  assert (G : forall f, In f AMOUNT_FIELDS -> get r1 f = amounts_get f amounts).
  { intros f Hf. unfold r1. rewrite (assign_get amounts r0 f Hf).
    unfold amounts_get. f_equal.
    unfold AMOUNT_FIELDS in Hf. cbn [In] in Hf.
    destruct Hf as [E|[E|[E|[E|[E|[E|[]]]]]]]; subst f; reflexivity. }
  assert (Gt := G "total" ltac:(cbn; tauto)).
  assert (Gp := G "pre_tax" ltac:(cbn; tauto)).
  assert (Gg := G "gst" ltac:(cbn; tauto)).
  assert (Gq := G "qst" ltac:(cbn; tauto)).
  assert (Gs := G "pst" ltac:(cbn; tauto)).
  assert (Gh := G "hst" ltac:(cbn; tauto)).
  rewrite <- Gt, <- Gp, <- Gg, <- Gq, <- Gs, <- Gh.
  clearbody r1. clear.
  destruct r1 as [t g q ps h p dt vd].
  cbn [get String.eqb Ascii.eqb Bool.eqb total gst qst pst hst pre_tax].
  unfold sane_tax.
  destruct (truthy t) eqn:Tt; cbn [andb fold_left];
    [|cbn [total gst qst pst hst pre_tax]; repeat split; reflexivity].
  cbn [get set String.eqb Ascii.eqb Bool.eqb total gst qst pst hst pre_tax].
  destruct (truthy g && Qle_bool match t with Some t0 => t0 | None => 0 end
                                 match g with Some x => x | None => 0 end);
    cbn [get set String.eqb Ascii.eqb Bool.eqb total gst qst pst hst pre_tax];
  destruct (truthy q && Qle_bool match t with Some t0 => t0 | None => 0 end
                                 match q with Some x => x | None => 0 end);
    cbn [get set String.eqb Ascii.eqb Bool.eqb total gst qst pst hst pre_tax];
  destruct (truthy ps && Qle_bool match t with Some t0 => t0 | None => 0 end
                                  match ps with Some x => x | None => 0 end);
    cbn [get set String.eqb Ascii.eqb Bool.eqb total gst qst pst hst pre_tax];
  destruct (truthy h && Qle_bool match t with Some t0 => t0 | None => 0 end
                                 match h with Some x => x | None => 0 end);
    cbn [get set String.eqb Ascii.eqb Bool.eqb total gst qst pst hst pre_tax];
  repeat split; reflexivity.
Qed.

Lemma same_key_same_list (found : list (string * list anchor)) (f : string) (l1 l2 : list anchor) :
  NoDup (map fst found) -> In (f, l1) found -> In (f, l2) found -> l1 = l2.
Proof.
  induction found as [|[k l] rest IH]; intros ND H1 H2; [destruct H1|].
  cbn [map fst] in ND. inversion ND as [|? ? Hn ND']. subst.
  destruct H1 as [E1|H1], H2 as [E2|H2].
  - congruence.
  - injection E1 as E1 _. subst k. exfalso. apply Hn. apply (in_map fst) in H2. exact H2.
  - injection E2 as E2 _. subst k. exfalso. apply Hn. apply (in_map fst) in H1. exact H1.
  - apply IH; assumption.
Qed.

Lemma entries_In (found : list (string * list anchor)) (f : string) (a : anchor) :
  In (f, a) (entries found) -> exists l, In (f, l) found /\ In a l.
Proof.
  unfold entries. rewrite in_flat_map. intros [[k l] [Hk Hm]].
  apply in_map_iff in Hm. destruct Hm as [m [E Hm]]. injection E as E1 E2. subst k m.
  exists l. split; assumption.
Qed.

(** A resolved amount is the amount of a label match that no other label
    match of the field outranks. *)
Lemma resolved_is_best (lines : list string) (field : string) (a : Q) :
  In (field, a) (_extract_amounts lines) ->
  exists best,
    label_match lines field best /\ amount best = a
    /\ (forall m, label_match lines field m -> (priority m <= priority best)%Z)
    /\ (forall m, label_match lines field m -> priority m = priority best ->
          if String.eqb field "total"
          then (line_idx m <= line_idx best)%Z
          else (line_idx best <= line_idx m)%Z).
Proof.
  intro H. apply extract_amounts_In in H. destruct H as [matches [Hin R]].
  destruct (resolve_spec field matches a R) as [best [Hb [Ea [Hp Hi]]]].
  destruct (anchors_wf lines) as [ND _].
  assert (All : forall m, label_match lines field m -> In m matches).
  { intros m Hm. apply anchors_label_matches in Hm.
    destruct (entries_In _ _ _ Hm) as [l [Hl Hml]].
    rewrite (same_key_same_list _ _ _ _ ND Hin Hl). exact Hml. }
  exists best. split.
  - apply anchors_label_matches. apply (in_entries _ _ matches); assumption.
  - split; [exact Ea|]. split.
    + intros m Hm. apply Hp. apply All. exact Hm.
    + intros m Hm. apply Hi. apply All. exact Hm.
Qed.

(** A field with a label match is resolved. *)
Lemma matched_is_resolved (lines : list string) (field : string) (m : anchor) :
  label_match lines field m -> exists a, In (field, a) (_extract_amounts lines).
Proof.
  intro Hm. apply anchors_label_matches in Hm.
  destruct (entries_In _ _ _ Hm) as [l [Hl Hml]].
  destruct (resolve_some field l) as [a R].
  - intro E. subst l. destruct Hml.
  - exists a. apply extract_amounts_In. exists l. split; assumption.
Qed.

Lemma label_match_facts (lines : list string) (field : string) (m : anchor) :
  label_match lines field m -> (0 < amount m)%Q /\ is_cents (amount m) = true.
Proof.
  intros [line [pattern [_ [_ [_ [_ [PA L]]]]]]]. split; [exact L|].
  apply (_parse_amount_cents line). exact PA.
Qed.

Lemma resolved_facts (lines : list string) (field : string) (v : Q) :
  amounts_get field (_extract_amounts lines) = Some v ->
  (0 < v)%Q /\ is_cents v = true.
Proof.
  intro H. apply (amounts_get_In _ _ _ (extract_amounts_NoDup lines)) in H.
  destruct (resolved_is_best lines field v H) as [best [Hb [Ea _]]].
  subst v. apply (label_match_facts lines field). exact Hb.
Qed.

Lemma sane_tax_some (t v : option Q) (x : Q) : sane_tax t v = Some x -> v = Some x.
Proof.
  unfold sane_tax.
  destruct (truthy t && truthy v && Qle_bool _ _); [discriminate|]. intro H. exact H.
Qed.

End ParseFacts.

Import Num NumFacts Text Regex Logging DeterministicParser.
Import ResolveFacts AnchorFacts ParseFacts.

(** C4.  For the total, [_extract_amounts] picks, among the label matches of
    the highest priority, the one with the largest line index; for every
    other amount field it picks the highest priority and, among equals, the
    smallest line index.  A field with a label match is always resolved.  So
    when the highest-priority matches of the total sit on lines 5 and 40,
    the total is the amount of line 40; the text of 41 lines below is such a
    case. *)
Theorem amount_resolution :
  (forall lines field a,
     In (field, a) (_extract_amounts lines) ->
     exists best,
       label_match lines field best /\ amount best = a
       /\ (forall m, label_match lines field m -> (priority m <= priority best)%Z)
       /\ (forall m, label_match lines field m -> priority m = priority best ->
             if String.eqb field "total"
             then (line_idx m <= line_idx best)%Z
             else (line_idx best <= line_idx m)%Z))
  /\ (forall lines field m,
        label_match lines field m -> exists a, In (field, a) (_extract_amounts lines))
  /\ (forall lines a5 a40 p,
        label_match lines "total" (a5, p, 5%Z) ->
        label_match lines "total" (a40, p, 40%Z) ->
        (forall m, label_match lines "total" m ->
           (priority m <= p)%Z
           /\ (priority m = p -> line_idx m = 5%Z \/ line_idx m = 40%Z)) ->
        In ("total"%string, a40) (_extract_amounts lines))
  /\ (let lines := (repeat "Item 1.00" 5 ++ ["TOTAL 10.00"]
                    ++ repeat "Item 1.00" 34 ++ ["TOTAL 47.75"])%list%string in
      nth_error lines 5 = Some "TOTAL 10.00"%string
      /\ nth_error lines 40 = Some "TOTAL 47.75"%string
      /\ amounts_get "total" (_extract_amounts lines) = Some 47.75%Q
      /\ total (fst (parse (unlines lines) [])) = Some 47.75%Q).
Proof.
  split; [|split; [|split]].
  - exact resolved_is_best.
  - exact matched_is_resolved.
  - intros lines a5 a40 p M5 M40 Hall.
    destruct (matched_is_resolved lines "total" _ M40) as [a Ha].
    destruct (resolved_is_best lines "total" a Ha) as [best [Hb [Ea [Hp Hi]]]].
    assert (Eprio : priority best = p).
    { destruct (Hall best Hb) as [L _]. specialize (Hp _ M40).
      cbn [priority fst snd] in Hp. lia. }
    assert (Eidx : line_idx best = 40%Z).
    { destruct (Hall best Hb) as [_ C]. specialize (C Eprio).
      assert (L := Hi _ M40 (eq_sym Eprio)). cbn [String.eqb Ascii.eqb Bool.eqb line_idx snd] in L.
      destruct C as [C|C]; [|exact C]. lia. }
    destruct Hb as [line [pat [_ [Hn [_ [_ [PA _]]]]]]].
    destruct M40 as [line' [pat' [_ [Hn' [_ [_ [PA' _]]]]]]].
    cbn [line_idx amount fst snd] in Hn', PA'. rewrite Eidx in Hn.
    assert (El : line = line') by congruence. subst line'.
    assert (Eam : amount best = a40) by congruence.
    rewrite <- Eam, Ea. exact Ha.
  - vm_compute. repeat split; reflexivity.
Qed.

(** The spec's tie-break, run through the theorem: the label matches of the
    two TOTAL lines of the 41-line text, and the total they resolve to. *)
Lemma amount_resolution_witness :
  let lines := (repeat "Item 1.00" 5 ++ ["TOTAL 10.00"]
                ++ repeat "Item 1.00" 34 ++ ["TOTAL 47.75"])%list%string in
  In ("total"%string, 47.75%Q) (_extract_amounts lines)
  /\ exists best,
       label_match lines "total" best /\ amount best = 47.75%Q
       /\ (forall m, label_match lines "total" m -> (priority m <= priority best)%Z)
       /\ (forall m, label_match lines "total" m -> priority m = priority best ->
             (line_idx m <= line_idx best)%Z).
Proof.
  intro lines.
  assert (H : In ("total"%string, 47.75%Q) (_extract_amounts lines)).
  { vm_compute. left. reflexivity. }
  split; [exact H|].
  destruct amount_resolution as [G _].
  destruct (G lines "total"%string 47.75%Q H) as [best [Hb [Ea [Hp Hi]]]].
  exists best. exact (conj Hb (conj Ea (conj Hp Hi))).
Defined.

(** C5.  Once [parse] has resolved a total, a tax whose resolved anchor is
    at least the total comes out null, and the total itself stays; so a tax
    the result carries is below the total.  With a total of 20.00 and a GST
    anchor of 25.00 the GST is null. *)
Theorem tax_sanity :
  (forall text lg tax t v,
     In tax TAX_FIELDS ->
     amounts_get "total" (_extract_amounts (_clean_lines text)) = Some t ->
     amounts_get tax (_extract_amounts (_clean_lines text)) = Some v ->
     (t <= v)%Q ->
     get (fst (parse text lg)) tax = None /\ total (fst (parse text lg)) = Some t)
  /\ (forall text lg tax t v,
        In tax TAX_FIELDS ->
        total (fst (parse text lg)) = Some t ->
        get (fst (parse text lg)) tax = Some v ->
        (v < t)%Q)
  /\ (let text := unlines ["TOTAL 20.00"; "GST 25.00"]%string in
      amounts_get "total" (_extract_amounts (_clean_lines text)) = Some 20.00%Q
      /\ amounts_get "gst" (_extract_amounts (_clean_lines text)) = Some 25.00%Q
      /\ total (fst (parse text [])) = Some 20.00%Q
      /\ gst (fst (parse text [])) = None).
Proof.
  split; [|split].
  - intros text lg tax t v Htax Ht Hv Hle.
    destruct (parse_amounts text lg) as (Pt & Pp & Pg & Pq & Ps & Ph).
    cbv zeta in Pt, Pp, Pg, Pq, Ps, Ph.
    destruct (resolved_facts _ _ _ Ht) as [Tpos _].
    destruct (resolved_facts _ _ _ Hv) as [Vpos _].
    assert (S : sane_tax (Some t) (Some v) = None).
    { unfold sane_tax, truthy.
      assert (E1 : Qeq_bool t 0 = false).
      { apply Qeq_bool_false_iff. intro E. rewrite E in Tpos. apply (Qlt_irrefl 0). exact Tpos. }
      assert (E2 : Qeq_bool v 0 = false).
      { apply Qeq_bool_false_iff. intro E. rewrite E in Vpos. apply (Qlt_irrefl 0). exact Vpos. }
      assert (E3 : Qle_bool t v = true) by (apply Qle_bool_iff; exact Hle).
      rewrite E1, E2, E3. reflexivity. }
    split; [|rewrite Pt; exact Ht].
    unfold TAX_FIELDS in Htax. cbn [In] in Htax.
    destruct Htax as [E|[E|[E|[E|[]]]]]; subst tax;
      cbn [get String.eqb Ascii.eqb Bool.eqb];
      rewrite ?Pg, ?Pq, ?Ps, ?Ph, Ht, Hv; exact S.
  - intros text lg tax t v Htax Ht Hv.
    destruct (parse_amounts text lg) as (Pt & Pp & Pg & Pq & Ps & Ph).
    cbv zeta in Pt, Pp, Pg, Pq, Ps, Ph.
    rewrite Pt in Ht.
    assert (S : exists w, sane_tax (Some t) w = Some v).
    { unfold TAX_FIELDS in Htax. cbn [In] in Htax.
      destruct Htax as [E|[E|[E|[E|[]]]]]; subst tax;
        cbn [get String.eqb Ascii.eqb Bool.eqb] in Hv;
        rewrite ?Pg, ?Pq, ?Ps, ?Ph, Ht in Hv; eexists; exact Hv. }
    destruct S as [w S].
    destruct (resolved_facts _ _ _ Ht) as [Tpos _].
    pose proof (sane_tax_some _ _ _ S) as Ew. subst w.
    unfold sane_tax, truthy in S.
    assert (E1 : Qeq_bool t 0 = false).
    { apply Qeq_bool_false_iff. intro E. rewrite E in Tpos. apply (Qlt_irrefl 0). exact Tpos. }
    rewrite E1 in S. cbn [negb andb] in S.
    destruct (Qeq_bool v 0) eqn:E2.
    + exfalso. apply Qeq_bool_iff in E2.
      unfold TAX_FIELDS in Htax. cbn [In] in Htax.
      assert (Vres : exists f, amounts_get f (_extract_amounts (_clean_lines text)) = Some v).
      { destruct Htax as [E|[E|[E|[E|[]]]]]; subst tax;
          cbn [get String.eqb Ascii.eqb Bool.eqb] in Hv;
          rewrite ?Pg, ?Pq, ?Ps, ?Ph in Hv;
          apply sane_tax_some in Hv; eexists; exact Hv. }
      destruct Vres as [f Vres]. destruct (resolved_facts _ _ _ Vres) as [Vpos _].
      rewrite E2 in Vpos. apply (Qlt_irrefl 0). exact Vpos.
    + cbn [negb] in S. destruct (Qle_bool t v) eqn:E3; [discriminate|].
      apply Qle_bool_false_iff. exact E3.
  - vm_compute. repeat split; reflexivity.
Qed.

Lemma tax_sanity_witness :
  let text := unlines ["TOTAL 20.00"; "GST 25.00"]%string in
  In "gst"%string TAX_FIELDS
  /\ amounts_get "total" (_extract_amounts (_clean_lines text)) = Some 20.00%Q
  /\ amounts_get "gst" (_extract_amounts (_clean_lines text)) = Some 25.00%Q
  /\ (20.00 <= 25.00)%Q
  /\ get (fst (parse text [])) "gst" = None
  /\ total (fst (parse text [])) = Some 20.00%Q.
Proof.
  intro text.
  assert (H1 : In "gst"%string TAX_FIELDS) by (left; reflexivity).
  assert (H2 : amounts_get "total" (_extract_amounts (_clean_lines text)) = Some 20.00%Q)
    by (vm_compute; reflexivity).
  assert (H3 : amounts_get "gst" (_extract_amounts (_clean_lines text)) = Some 25.00%Q)
    by (vm_compute; reflexivity).
  assert (H4 : (20.00 <= 25.00)%Q) by (vm_compute; discriminate).
  destruct tax_sanity as [G _].
  destruct (G text [] "gst"%string 20.00%Q 25.00%Q H1 H2 H3 H4) as [R1 R2].
  exact (conj H1 (conj H2 (conj H3 (conj H4 (conj R1 R2))))).
Defined.

(** C10.  Every amount field that [parse] resolves is strictly positive and
    has exactly two decimals; no anchor is recorded with an amount that is
    zero or negative, although the grammar admits a sign. *)
Theorem resolved_amounts_positive :
  (forall text lg field v,
     In field AMOUNT_FIELDS ->
     get (fst (parse text lg)) field = Some v ->
     (0 < v)%Q /\ is_cents v = true /\ (round v 2 == v)%Q)
  /\ (forall lines field a,
        In (field, a) (entries (anchors lines)) ->
        (0 < amount a)%Q /\ is_cents (amount a) = true)
  /\ (_parse_amount "Refund: -5.00" = Some 5.00%Q
      /\ total (fst (parse (unlines ["Total: -5.00"; "Total: 0.00"]%string) [])) = Some 5.00%Q
      /\ total (fst (parse (unlines ["Total: 0.00"]%string) [])) = None).
Proof.
  split; [|split].
  - intros text lg field v Hf Hv.
    destruct (parse_amounts text lg) as (Pt & Pp & Pg & Pq & Ps & Ph).
    cbv zeta in Pt, Pp, Pg, Pq, Ps, Ph.
    assert (R : exists f, amounts_get f (_extract_amounts (_clean_lines text)) = Some v).
    { unfold AMOUNT_FIELDS in Hf. cbn [In] in Hf.
      destruct Hf as [E|[E|[E|[E|[E|[E|[]]]]]]]; subst field;
        cbn [get String.eqb Ascii.eqb Bool.eqb] in Hv;
        rewrite ?Pt, ?Pp, ?Pg, ?Pq, ?Ps, ?Ph in Hv;
        try (apply sane_tax_some in Hv); eexists; exact Hv. }
    destruct R as [f R]. destruct (resolved_facts _ _ _ R) as [Vpos Vc].
    split; [exact Vpos|]. split; [exact Vc|]. apply is_cents_eq. exact Vc.
  - intros lines field a Hin. apply anchors_label_matches in Hin.
    apply (label_match_facts lines field). exact Hin.
  - vm_compute. repeat split; reflexivity.
Qed.

Lemma resolved_amounts_positive_witness :
  let text := unlines ["SOUS-TOTAL 41,53"; "TPS 2,08"; "TVQ 4,14"; "TOTAL 47,75"]%string in
  In "gst"%string AMOUNT_FIELDS
  /\ get (fst (parse text [])) "gst" = Some 2.08%Q
  /\ (0 < 2.08)%Q /\ is_cents 2.08%Q = true.
Proof.
  intro text.
  assert (H1 : In "gst"%string AMOUNT_FIELDS) by (right; right; left; reflexivity).
  assert (H2 : get (fst (parse text [])) "gst" = Some 2.08%Q) by (vm_compute; reflexivity).
  destruct resolved_amounts_positive as [G _].
  destruct (G text [] "gst"%string 2.08%Q H1 H2) as [R1 [R2 _]].
  exact (conj H1 (conj H2 (conj R1 R2))).
Defined.

(** ** [DeterministicParser._extract_date] *)

Module DateFacts.

Import Num NumFacts Text Regex Logging DeterministicParser AnchorFacts.
Open Scope string_scope.
Open Scope Z_scope.

Lemma key_le_total (a b : Z * Z) : key_le a b = false -> key_le b a = true.
Proof.
  unfold key_le. intro H. apply orb_false_iff in H. destruct H as [H1 H2].
  apply Z.ltb_ge in H1. apply andb_false_iff in H2. apply orb_true_iff.
  destruct (Z.eq_dec (fst a) (fst b)) as [E|N].
  - right. apply andb_true_iff. split; [apply Z.eqb_eq; lia|].
    destruct H2 as [H2|H2]; [apply Z.eqb_neq in H2; contradiction|].
    apply Z.leb_gt in H2. apply Z.leb_le. lia.
  - left. apply Z.ltb_lt. lia.
Qed.

Lemma key_le_trans (a b c : Z * Z) :
  key_le a b = true -> key_le b c = true -> key_le a c = true.
Proof.
  unfold key_le. intros H1 H2.
  apply orb_true_iff in H1. apply orb_true_iff in H2. apply orb_true_iff.
  destruct H1 as [H1|H1], H2 as [H2|H2];
    try (apply Z.ltb_lt in H1); try (apply Z.ltb_lt in H2);
    try (apply andb_true_iff in H1; destruct H1 as [E1 L1];
         apply Z.eqb_eq in E1; apply Z.leb_le in L1);
    try (apply andb_true_iff in H2; destruct H2 as [E2 L2];
         apply Z.eqb_eq in E2; apply Z.leb_le in L2).
  - left. apply Z.ltb_lt. lia.
  - left. apply Z.ltb_lt. lia.
  - left. apply Z.ltb_lt. lia.
  - right. apply andb_true_iff. split; [apply Z.eqb_eq; lia|apply Z.leb_le; lia].
Qed.

Lemma insert_In (x y : candidate) (l : list candidate) :
  In y (insert x l) <-> y = x \/ In y l.
Proof.
  induction l as [|z l IH].
  - cbn. intuition.
  - cbn [insert]. destruct (key_le (sort_key x) (sort_key z)).
    + cbn [In]. intuition.
    + cbn [In]. rewrite IH. intuition.
Qed.

(** [sort] keeps the elements. *)
Lemma sort_In (y : candidate) (l : list candidate) : In y (sort l) <-> In y l.
Proof.
  unfold sort. induction l as [|x l IH].
  - reflexivity.
  - cbn [fold_right In]. rewrite insert_In, IH. intuition.
Qed.

Lemma key_le_refl (a : Z * Z) : key_le a a = true.
Proof.
  unfold key_le. apply orb_true_iff. right.
  apply andb_true_iff. split; [apply Z.eqb_eq|apply Z.leb_le]; lia.
Qed.

Lemma insert_head_least (x : candidate) (l : list candidate) :
  head_least l -> head_least (insert x l).
Proof.
  destruct l as [|z l]; intro H.
  - cbn. intros y [E|[]]. subst y. apply key_le_refl.
  - cbn [insert]. destruct (key_le (sort_key x) (sort_key z)) eqn:K.
    + cbn [head_least]. intros y [E|Hy].
      * subst y. apply key_le_refl.
      * apply key_le_trans with (sort_key z); [exact K|]. apply H. exact Hy.
    + cbn [head_least]. intros y Hy.
      change (In y (z :: insert x l)) in Hy. destruct Hy as [E|Hy].
      * subst y. apply key_le_refl.
      * apply insert_In in Hy. destruct Hy as [E|Hy].
        -- subst y. apply key_le_total. exact K.
        -- apply H. right. exact Hy.
Qed.

Lemma sort_head_least (l : list candidate) : head_least (sort l).
Proof.
  unfold sort. induction l as [|x l IH].
  - exact I.
  - cbn [fold_right]. apply insert_head_least. exact IH.
Qed.

(** The first of the sorted candidates has the highest score, and the
    smallest line index among those of that score. *)
Lemma sort_first (l : list candidate) (best : candidate) (others : list candidate) :
  sort l = best :: others ->
  In best l
  /\ forall y, In y l ->
       snd (fst y) < snd (fst best)
       \/ (snd (fst y) = snd (fst best) /\ snd best <= snd y).
Proof.
  intro E. split.
  - apply sort_In. rewrite E. left. reflexivity.
  - intros y Hy. pose proof (sort_head_least l) as H. rewrite E in H.
    cbn [head_least] in H.
    assert (Hy' : In y (best :: others)) by (rewrite <- E; apply sort_In; exact Hy).
    specialize (H y Hy'). unfold key_le, sort_key in H.
    destruct best as [[bi bs] bx], y as [[yi ys] yx]. cbn [fst snd] in *.
    apply orb_true_iff in H. destruct H as [H|H].
    + apply Z.ltb_lt in H. left. lia.
    + apply andb_true_iff in H. destruct H as [H1 H2].
      apply Z.eqb_eq in H1. apply Z.leb_le in H2. right. lia.
Qed.

Lemma sort_nil (l : list candidate) : sort l = [] <-> l = [].
Proof.
  split.
  - intro E. destruct l as [|x l]; [reflexivity|].
    exfalso. assert (H : In x (sort (x :: l))) by (apply sort_In; left; reflexivity).
    rewrite E in H. exact H.
  - intro E. subst l. reflexivity.
Qed.

(** The score: 10 for a confirmed label, 5 for a clock time, 2 for the
    first 40% of the lines. *)
Lemma score_of_spec (total_lines idx : Z) (line stripped : string) :
  score_of total_lines idx line stripped
  = (if found _DATE_CONFIRM stripped then 10 else 0)
    + (if found CLOCK_RE line then 5 else 0)
    + (if 5 * idx <? 2 * total_lines then 2 else 0).
Proof.
  unfold score_of.
  assert (E : Qlt_bool (inject_Z idx) (inject_Z total_lines * 0.4)
              = (5 * idx <? 2 * total_lines)).
  { destruct (5 * idx <? 2 * total_lines) eqn:L.
    - apply Z.ltb_lt in L. apply Qlt_bool_iff.
      unfold Qlt, Qmult, inject_Z. cbn [Qnum Qden]. lia.
    - apply Z.ltb_ge in L. apply Qlt_bool_false_iff.
      unfold Qle, Qmult, inject_Z. cbn [Qnum Qden]. lia. }
  rewrite E.
  destruct (found _DATE_CONFIRM stripped), (found CLOCK_RE line),
           (5 * idx <? 2 * total_lines); reflexivity.
Qed.

Lemma line_candidates_spec (total_lines idx : Z) (line : string) (c : candidate) :
  In c (line_candidates total_lines idx line)
  <-> rejected line = false
      /\ exists iso, date_on_line line iso
                     /\ c = (iso, score_of total_lines idx line (_strip_accents (lower line)), idx).
Proof.
  unfold line_candidates, rejected, date_on_line.
  destruct (found _DATE_REJECT (_strip_accents (lower line))).
  - split; [intros []|intros [H _]; discriminate].
  - rewrite in_flat_map. split.
    + intros [pattern [Hp Hc]]. apply in_flat_map in Hc. destruct Hc as [m [Hm Hc]].
      destruct (_parse_iso_date (grp line m 1)) as [iso|] eqn:P; [|destruct Hc].
      destruct (_valid_iso iso) eqn:V; [|destruct Hc].
      destruct Hc as [E|[]]. split; [reflexivity|].
      exists iso. split; [|symmetry; exact E].
      exists pattern, m. repeat split; assumption.
    + intros [_ [iso [[pattern [m [Hp [Hm [P V]]]]] E]]].
      exists pattern. split; [exact Hp|]. apply in_flat_map.
      exists m. split; [exact Hm|]. rewrite P, V. left. symmetry. exact E.
Qed.

(** The candidates are the valid dates of the lines that are not rejected,
    each with the score of its line. *)
Lemma date_candidates_spec (lines : list string) (iso : string) (score idx : Z) :
  In (iso, score, idx) (date_candidates lines)
  <-> exists line,
        0 <= idx /\ nth_error lines (Z.to_nat idx) = Some line
        /\ rejected line = false
        /\ date_on_line line iso
        /\ score = line_score lines idx line.
Proof.
  unfold date_candidates, line_score. rewrite in_flat_map. split.
  - intros [[i line] [Hin Hc]]. apply line_candidates_spec in Hc.
    destruct Hc as [R [iso' [D E]]]. injection E as E1 E2 E3. subst iso' score i.
    apply enumerate_In in Hin. destruct Hin as [H0 Hn].
    exists line. repeat split; assumption.
  - intros [line [H0 [Hn [R [D E]]]]].
    exists (idx, line). split; [apply enumerate_In; split; assumption|].
    apply line_candidates_spec. split; [exact R|].
    exists iso. split; [exact D|]. subst score. reflexivity.
Qed.

End DateFacts.

(** C6.  The amount pattern is the grammar of the specification: start of
    line or delimiter, optional sign, optional currency glyph, one to six
    integer digits, comma or period, exactly two fractional digits, optional
    suffix.  The bare number at the end of the line is tried only when that
    grammar finds nothing.  "Total: 41,53" and "Total: $41.53" both resolve
    the total 41.53. *)
Theorem amount_grammar :
  AMOUNT_RE = AMOUNT_GRAMMAR
  /\ (forall s m,
        search AMOUNT_RE s = Some m ->
        _parse_amount s
        = match group s m 1 with
          | Some raw => Some (round (float (replace_char ","%char "."%char raw)) 2)
          | None => None
          end)
  /\ (forall s,
        search AMOUNT_RE s = None ->
        _parse_amount s
        = match search BARE_AMOUNT_RE s with
          | Some m2 =>
              match group s m2 1 with
              | Some raw => Some (round (float (replace_char ","%char "."%char raw)) 2)
              | None => None
              end
          | None => None
          end)
  /\ (_parse_amount "Total: 41,53" = Some 41.53%Q
      /\ _parse_amount "Total: $41.53" = Some 41.53%Q
      /\ total (fst (parse "Total: 41,53" [])) = Some 41.53%Q
      /\ total (fst (parse "Total: $41.53" [])) = Some 41.53%Q
      /\ search AMOUNT_RE "Total 1234567.89" = None
      /\ _parse_amount "Total 1234567.89" = Some 234567.89%Q
      /\ _parse_amount "Total: 41.5" = None).
Proof.
  split; [|split; [|split]].
  - vm_compute. reflexivity.
  - intros s m H. unfold _parse_amount. rewrite H. reflexivity.
  - intros s H. unfold _parse_amount. rewrite H.
    destruct (search BARE_AMOUNT_RE s) as [m2|]; reflexivity.
  - vm_compute. repeat split; reflexivity.
Qed.

(** ** [ReceiptImagePipeline.process] *)

Import ReceiptImagePipeline.

(** Bytes that cannot be decoded as an image ([Image.open] or [load]
    raises): [process] returns the original bytes unchanged and raises
    nothing; it logs the failure and the pass-through. *)
Lemma process_decode_failure (P : Pillow) (raw : bytes) (lg : logger) (e : exn) :
  Image_open P raw = Raise e
  \/ (exists im, Image_open P raw = Ok im /\ load P im = Raise e) ->
  process P raw lg
  = (Ok raw,
     (lg ++ [(ERROR, ("Image load failed: " ++ exn_msg e)%string);
             (WARNING, "Could not decode image, returning original bytes"%string)])%list).
Proof.
  intro H. unfold process, _load, then_, try_except, call, say, pure.
  destruct H as [H|[im [H1 H2]]].
  - rewrite H. cbn [fst]. rewrite <- app_assoc. reflexivity.
  - rewrite H1, H2. cbn [fst]. rewrite <- app_assoc. reflexivity.
Qed.

Lemma process_decode_failure_witness :
  let raw := [Byte.x00; Byte.x64; Byte.x00] in
  Image_open SizedPillow raw = Raise UnidentifiedImageError
  /\ fst (process SizedPillow raw []) = Ok raw.
Proof.
  intro raw.
  assert (H : Image_open SizedPillow raw = Raise UnidentifiedImageError) by reflexivity.
  split; [exact H|].
  rewrite (process_decode_failure SizedPillow raw [] UnidentifiedImageError (or_introl H)).
  reflexivity.
Defined.

(** C8, at an image that decodes.  An image of 1 by 3001 pixels has its
    long edge over [MAX_LONG_EDGE]; [_downscale_if_needed] computes the new
    width [int(1 * 3000 / 3001)], which is 0, and the [ValueError] of
    [resize] leaves [process].  The docstring of [process] has it accept
    any image that Pillow can open and return JPEG bytes, and the claim has
    it never raise; the stages after the load run outside any handler,
    where [_load], [_fix_exif_rotation] and [_estimate_skew_angle] catch
    theirs. *)
Lemma process_raises_on_thin_image :
  let raw := [Byte.x00; Byte.x01; Byte.x0b; Byte.xb9] in
  Image_open SizedPillow raw = Ok (mkPic 1 3001 "RGB")
  /\ scaled 1 MAX_LONG_EDGE 3001 = 0%Z
  /\ fst (process SizedPillow raw [])
     = Raise (mkExn "ValueError" "height and width must be > 0").
Proof.
  vm_compute. repeat split; reflexivity.
Qed.

(** * Further properties of the code *)

(** ** [ReceiptPostProcessor._sanitize_tax_values] *)

Module TaxSanityFacts.

Import Num NumFacts ReceiptPostProcessor PostProcessorFacts.
Open Scope string_scope.
Open Scope Q_scope.

Lemma receipt_get_set (d : receipt) (f' f : string) (v : option Q) :
  In f FIELDS ->
  get (set d f' v) f = if String.eqb f' f then v else get d f.
Proof.
  intro Hin. unfold FIELDS in Hin. cbn [In] in Hin.
  unfold set.
  destruct (String.eqb f' "total") eqn:E1;
    [apply String.eqb_eq in E1; subst f'|];
  [|destruct (String.eqb f' "gst") eqn:E2;
    [apply String.eqb_eq in E2; subst f'|];
  [|destruct (String.eqb f' "qst") eqn:E3;
    [apply String.eqb_eq in E3; subst f'|];
  [|destruct (String.eqb f' "pst") eqn:E4;
    [apply String.eqb_eq in E4; subst f'|];
  [|destruct (String.eqb f' "hst") eqn:E5;
    [apply String.eqb_eq in E5; subst f'|];
  [|destruct (String.eqb f' "pre_tax") eqn:E6;
    [apply String.eqb_eq in E6; subst f'|]]]]]];
  destruct Hin as [E|[E|[E|[E|[E|[E|[]]]]]]]; subst f;
    rewrite ?E1, ?E2, ?E3, ?E4, ?E5, ?E6; reflexivity.
Qed.

Lemma set_text (d : receipt) (f : string) (v : option Q) :
  vendor (set d f v) = vendor d /\ date (set d f v) = date d
  /\ confidence (set d f v) = confidence d.
Proof.
  unfold set.
  destruct (String.eqb f "total"); [repeat split; reflexivity|].
  destruct (String.eqb f "gst"); [repeat split; reflexivity|].
  destruct (String.eqb f "qst"); [repeat split; reflexivity|].
  destruct (String.eqb f "pst"); [repeat split; reflexivity|].
  destruct (String.eqb f "hst"); [repeat split; reflexivity|].
  destruct (String.eqb f "pre_tax"); repeat split; reflexivity.
Qed.

Lemma taxes_are_fields (f : string) : In f TAXES -> In f FIELDS.
Proof.
  unfold TAXES, FIELDS. cbn [In]. intros [E|[E|[E|[E|[]]]]]; subst f; tauto.
Qed.

Lemma zero_float : _to_float (Some 0.0) == 0.
Proof. vm_compute. reflexivity. Qed.

Section Loop.

Variable float_fmt2 : Q -> string.
Variable d0 : receipt.
Variable ws0 : list string.

Let T : Q := _to_float (total d0).

(** The state of the loop once the fields of [done] have had their turn. *)
Definition inv (done : list string) (acc : receipt * list string) : Prop :=
  let '(d, ws) := acc in
  vendor d = vendor d0 /\ date d = date d0 /\ confidence d = confidence d0
  /\ (forall g, In g FIELDS -> ~ In g done -> get d g = get d0 g)
  /\ (forall g, In g done ->
        (get d g = get d0 g \/ get d g = Some 0.0)
        /\ (0 < T -> _to_float (get d g) <= MAX_TAX_RATIO * T))
  /\ (exists added, ws = (ws0 ++ added)%list
                    /\ Forall (fun w => String.prefix "TAX_SANITY" w = true) added
                    /\ (List.length added <= List.length done)%nat)
  /\ (~ 0 < T -> d = d0 /\ ws = ws0).

Lemma inv_keep (done : list string) (d : receipt) (ws : list string) (f : string) :
  inv done (d, ws) ->
  (0 < T -> _to_float (get d f) <= MAX_TAX_RATIO * T) ->
  In f FIELDS -> ~ In f done ->
  inv (done ++ [f]) (d, ws).
Proof.
  unfold inv.
  intros (Hv & Hd & Hc & Hrest & Hdone & (added & Hws & Hall & Hlen) & Hoff) Hb Hf Hnew.
  split; [exact Hv|]. split; [exact Hd|]. split; [exact Hc|]. split.
  - intros g Hg Hn. apply Hrest; [exact Hg|]. intro H. apply Hn. apply in_or_app. left. exact H.
  - split.
    + intros g Hg. apply in_app_or in Hg. destruct Hg as [Hg|[E|[]]].
      * apply Hdone. exact Hg.
      * subst g. split; [left; apply Hrest; assumption|exact Hb].
    + split; [|exact Hoff].
      exists added. split; [exact Hws|]. split; [exact Hall|].
      rewrite length_app. cbn [List.length]. lia.
Qed.

Lemma inv_zero (done : list string) (d : receipt) (ws : list string) (f w : string) :
  inv done (d, ws) ->
  0 < T -> String.prefix "TAX_SANITY" w = true ->
  In f FIELDS -> ~ In f done -> (forall g, In g done -> In g FIELDS) ->
  inv (done ++ [f]) (set d f (Some 0.0), append ws w).
Proof.
  unfold inv.
  intros (Hv & Hd & Hc & Hrest & Hdone & (added & Hws & Hall & Hlen) & Hoff) HT Hw Hf Hnew Hfields.
  destruct (set_text d f (Some 0.0)) as (Sv & Sd & Sc).
  split; [rewrite Sv; exact Hv|]. split; [rewrite Sd; exact Hd|].
  split; [rewrite Sc; exact Hc|]. split.
  - intros g Hg Hn. rewrite (receipt_get_set d f g _ Hg).
    destruct (String.eqb f g) eqn:E.
    + apply String.eqb_eq in E. subst g. exfalso. apply Hn.
      apply in_or_app. right. left. reflexivity.
    + apply Hrest; [exact Hg|]. intro H. apply Hn. apply in_or_app. left. exact H.
  - split.
    + intros g Hg. apply in_app_or in Hg. destruct Hg as [Hg|[E|[]]].
      * rewrite (receipt_get_set d f g _ (Hfields g Hg)).
        destruct (String.eqb f g) eqn:E.
        -- apply String.eqb_eq in E. subst g. contradiction.
        -- apply Hdone. exact Hg.
      * subst g. rewrite (receipt_get_set d f f _ Hf). rewrite String.eqb_refl.
        split; [right; reflexivity|].
        intros _. rewrite zero_float. unfold MAX_TAX_RATIO. lra.
    + split.
      * exists (added ++ [w])%list. split.
        -- unfold append. rewrite Hws. rewrite app_assoc. reflexivity.
        -- split.
           ++ apply Forall_app. split; [exact Hall|]. constructor; [exact Hw|constructor].
           ++ rewrite !length_app. cbn [List.length]. lia.
      * intro N. contradiction.
Qed.

Lemma inv_step (done : list string) (acc : receipt * list string) (f : string) :
  In f TAXES -> ~ In f done -> (forall g, In g done -> In g FIELDS) ->
  inv done acc ->
  inv (done ++ [f]) (sanitize_step float_fmt2 T acc f).
Proof.
  intros Hf Hnew Hfields Hinv. destruct acc as [d ws].
  pose proof (taxes_are_fields f Hf) as Hff.
  unfold sanitize_step.
  destruct (Qle_bool (_to_float (get d f)) 0) eqn:C0.
  - apply Qle_bool_iff in C0. apply inv_keep; try assumption.
    intro HT. unfold MAX_TAX_RATIO. lra.
  - apply Qle_bool_false_iff in C0.
    destruct (Qlt_bool 0 T) eqn:CT; cbn [andb].
    + apply Qlt_bool_iff in CT.
      destruct (Qle_bool T (_to_float (get d f))) eqn:C1.
      * apply inv_zero; try assumption. reflexivity.
      * destruct (Qlt_bool (MAX_TAX_RATIO * T) (_to_float (get d f))) eqn:C2.
        -- apply inv_zero; try assumption. reflexivity.
        -- apply Qlt_bool_false_iff in C2. apply inv_keep; try assumption.
           intros _. exact C2.
    + apply Qlt_bool_false_iff in CT. apply inv_keep; try assumption.
      intro HT. exfalso. apply (Qlt_not_le _ _ HT CT).
Qed.

Lemma inv_fold (todo done : list string) (acc : receipt * list string) :
  NoDup (done ++ todo) -> (forall g, In g (done ++ todo) -> In g TAXES) ->
  inv done acc ->
  inv (done ++ todo) (fold_left (sanitize_step float_fmt2 T) todo acc).
Proof.
  revert done acc. induction todo as [|f todo IH]; intros done acc ND Hin Hinv.
  - rewrite app_nil_r. exact Hinv.
  - cbn [fold_left].
    replace (done ++ f :: todo)%list with ((done ++ [f]) ++ todo)%list
      by (rewrite <- app_assoc; reflexivity).
    apply IH.
    + rewrite <- app_assoc. exact ND.
    + intros g Hg. apply Hin. rewrite <- app_assoc in Hg. exact Hg.
    + apply inv_step.
      * apply Hin. apply in_or_app. right. left. reflexivity.
      * apply NoDup_remove_2 in ND. intro H. apply ND. apply in_or_app. left. exact H.
      * intros g Hg. apply taxes_are_fields. apply Hin. apply in_or_app. left. exact Hg.
      * exact Hinv.
Qed.

Lemma inv_start : inv [] (d0, ws0).
Proof.
  unfold inv.
  split; [reflexivity|]. split; [reflexivity|]. split; [reflexivity|].
  split; [intros g _ _; reflexivity|].
  split; [intros g []|].
  split; [|intros _; split; reflexivity].
  exists []. split; [rewrite app_nil_r; reflexivity|]. split; [constructor|cbn; lia].
Qed.

End Loop.

End TaxSanityFacts.

Import Num NumFacts ReceiptPostProcessor PostProcessorFacts TaxSanityFacts.

(** X1.  [_sanitize_tax_values] touches nothing but the four taxes; a tax
    is left as it was or set to zero; with a positive total every tax ends at
    no more than half the total (a tax at or above the total, or above half
    of it, is zeroed); without a positive total nothing changes; and every
    warning it adds is a tax-sanity warning, at most one per tax. *)
Theorem sanitize_tax_values_bounds (float_fmt2 : Q -> string) (d : receipt) (ws : list string) :
  let out := _sanitize_tax_values float_fmt2 d ws in
  let T := _to_float (total d) in
  (total (fst out) = total d /\ pre_tax (fst out) = pre_tax d
   /\ vendor (fst out) = vendor d /\ date (fst out) = date d
   /\ confidence (fst out) = confidence d)
  /\ (forall tax, In tax TAXES ->
        (get (fst out) tax = get d tax \/ get (fst out) tax = Some 0.0%Q)
        /\ ((0 < T)%Q -> (_to_float (get (fst out) tax) <= 0.5 * T)%Q))
  /\ (exists added,
        snd out = (ws ++ added)%list
        /\ Forall (fun w => String.prefix "TAX_SANITY" w = true) added
        /\ (List.length added <= 4)%nat)
  /\ (~ (0 < T)%Q -> out = (d, ws)).
Proof.
  intros out T.
  assert (I : inv d ws TAXES out).
  { apply (inv_fold float_fmt2 d ws TAXES [] (d, ws)).
    - unfold TAXES. cbn [app].
      repeat constructor; cbn [In]; intuition discriminate.
    - intros g Hg. exact Hg.
    - apply inv_start. }
  unfold inv in I. destruct out as [d' ws'].
  destruct I as (Hv & Hd & Hc & Hrest & Hdone & Hadd & Hoff).
  cbn [fst snd].
  split; [|split; [|split]].
  - split; [|split; [|split; [|split]]]; try assumption.
    + apply (Hrest "total"%string); [unfold FIELDS; cbn; tauto|].
      unfold TAXES. cbn [In]. intuition discriminate.
    + apply (Hrest "pre_tax"%string); [unfold FIELDS; cbn; tauto|].
      unfold TAXES. cbn [In]. intuition discriminate.
  - intros tax Htax. destruct (Hdone tax Htax) as [A B]. split; [exact A|].
    intro HT. specialize (B HT). unfold MAX_TAX_RATIO in B. subst T. lra.
  - exact Hadd.
  - intro N. destruct (Hoff N) as [E1 E2]. subst. reflexivity.
Qed.

(** ** [ReceiptPostProcessor._adjust_confidence]: range, order, monotony *)

Module ConfidenceFacts.

Import Num NumFacts ReceiptPostProcessor PostProcessorFacts.
Open Scope string_scope.
Open Scope Q_scope.

Lemma round_half_even_bounds (q : Q) :
  (Qfloor q <= round_half_even q <= Qfloor q + 1)%Z.
Proof.
  unfold round_half_even.
  destruct (Qcompare (q - inject_Z (Qfloor q)) (1 # 2)); [|lia|lia].
  destruct (Z.even (Qfloor q)); lia.
Qed.

(** Rounding to the nearest integer keeps the order. *)
Lemma round_half_even_le (a b : Q) : a <= b -> (round_half_even a <= round_half_even b)%Z.
Proof.
  intro H. pose proof (Qfloor_resp_le _ _ H) as F.
  pose proof (round_half_even_bounds a) as Ba.
  pose proof (round_half_even_bounds b) as Bb.
  destruct (Z.eq_dec (Qfloor a) (Qfloor b)) as [E|N]; [|lia].
  unfold round_half_even. rewrite E.
  destruct (Qcompare_spec (a - inject_Z (Qfloor b)) (1 # 2)) as [Ea|La|Ga];
    destruct (Qcompare_spec (b - inject_Z (Qfloor b)) (1 # 2)) as [Eb|Lb|Gb];
    try (destruct (Z.even (Qfloor b))); try lia; exfalso; lra.
Qed.

Lemma round_le (a b : Q) (nd : nat) : a <= b -> round a nd <= round b nd.
Proof.
  intro H. unfold round.
  assert (P10 : (0 < 10 ^ Z.of_nat nd)%Z) by (apply Z.pow_pos_nonneg; lia).
  assert (Q10 : 0 < inject_Z (10 ^ Z.of_nat nd)) by (unfold Qlt; simpl; lia).
  apply Qmult_le_compat_r.
  - rewrite <- Zle_Qle. apply round_half_even_le.
    apply Qmult_le_compat_r; [exact H|apply Qlt_le_weak; exact Q10].
  - apply Qlt_le_weak. apply Qinv_lt_0_compat. exact Q10.
Qed.

Lemma clamp_le (a b : Q) : a <= b -> Qmax 0 (Qmin 1 a) <= Qmax 0 (Qmin 1 b).
Proof.
  intro H. apply Q.max_le_compat_l. apply Q.min_le_compat_l. exact H.
Qed.

(** The confidence in closed form, for every record. *)
Lemma adjust_confidence_closed (d : receipt) (ws : list string) :
  _adjust_confidence d ws
  == round (Qmax 0 (Qmin 1 (base_score d - penalty_total ws + counted_bonuses d))) 3.
Proof.
  unfold _adjust_confidence. apply round_comp. apply clamp_comp.
  fold (base_score d). unfold counted_bonuses, bonus. fold (positive (total d)).
  pose proof (fold_charge ws (base_score d)) as F.
  destruct (truthy_str (vendor d)), (truthy_str (date d)), (positive (total d)),
           (existsb (fun t => Qlt_bool 0 (_to_float t)) [gst d; hst d; qst d]);
    rewrite F; ring.
Qed.

Lemma hits_nonneg (w : string) : 0 <= hits w.
Proof.
  unfold hits, penalties. cbn [fold_right].
  destruct (String.prefix "DATE_MISSING" w), (String.prefix "DATE_PARSE_FAILED" w),
           (String.prefix "MATH_MISMATCH" w), (String.prefix "MATH_MISSING_TOTAL" w),
           (String.prefix "OCR_UNPARSEABLE" w), (String.prefix "TAX_SANITY" w); lra.
Qed.

Lemma penalty_total_app (ws1 ws2 : list string) :
  penalty_total (ws1 ++ ws2) == penalty_total ws1 + penalty_total ws2.
Proof.
  induction ws1 as [|w ws1 IH].
  - cbn [app]. rewrite penalty_total_nil. ring.
  - cbn [app]. rewrite !penalty_total_cons, IH. ring.
Qed.

Lemma penalty_total_nonneg (ws : list string) : 0 <= penalty_total ws.
Proof.
  induction ws as [|w ws IH].
  - rewrite penalty_total_nil. lra.
  - rewrite penalty_total_cons. pose proof (hits_nonneg w). lra.
Qed.

Lemma penalty_total_perm (ws ws' : list string) :
  Permutation ws ws' -> penalty_total ws == penalty_total ws'.
Proof.
  induction 1 as [|w l l' P IH|w1 w2 l|l1 l2 l3 P1 IH1 P2 IH2].
  - reflexivity.
  - rewrite !penalty_total_cons, IH. reflexivity.
  - rewrite !penalty_total_cons. ring.
  - rewrite IH1. exact IH2.
Qed.

End ConfidenceFacts.

Import Num NumFacts ReceiptPostProcessor PostProcessorFacts ConfidenceFacts.

(** X2.  For a record whose confidence is a number of at most two decimals
    between 0 and 1, and whatever the warnings: the confidence returned
    lies in [0, 1]; it does not depend on the order of the warnings; and
    more warnings never raise it. *)
Theorem adjust_confidence_order (d : receipt) (ws : list string) :
  confidence_in_hundredths d = true ->
  ((0 <= _adjust_confidence d ws)%Q /\ (_adjust_confidence d ws <= 1)%Q)
  /\ (forall ws', Permutation.Permutation ws ws' ->
        (_adjust_confidence d ws' == _adjust_confidence d ws)%Q)
  /\ (forall more, (_adjust_confidence d (ws ++ more) <= _adjust_confidence d ws)%Q).
Proof.
  intros _. split; [|split].
  - rewrite (adjust_confidence_closed d ws).
    destruct (clamp_range (base_score d - penalty_total ws + counted_bonuses d)) as [L U].
    exact (round_unit_interval _ 3 L U).
  - intros ws' P. rewrite !adjust_confidence_closed.
    apply round_comp. apply Q.max_compat; [reflexivity|].
    apply Q.min_compat; [reflexivity|].
    rewrite (penalty_total_perm ws ws' P). reflexivity.
  - intro more. rewrite !adjust_confidence_closed.
    apply round_le. apply clamp_le.
    rewrite penalty_total_app. pose proof (penalty_total_nonneg more). lra.
Qed.

Lemma adjust_confidence_order_witness :
  let d := mkReceipt (Some "IGA"%string) (Some "2025-02-01"%string) (Some 10.00%Q)
                     (Some 8.70%Q) None None None None (Some 0.62%Q) in
  let ws := ["DATE_PARSE_FAILED:x"; "DATE_MISSING"]%string in
  confidence_in_hundredths d = true
  /\ (_adjust_confidence d (rev ws) == _adjust_confidence d ws)%Q
  /\ (_adjust_confidence d ws == 0.52)%Q.
Proof.
  intros d ws.
  assert (H : confidence_in_hundredths d = true) by reflexivity.
  destruct (adjust_confidence_order d ws H) as [_ [P _]].
  split; [exact H|]. split.
  - apply P. apply Permutation.Permutation_rev.
  - vm_compute. reflexivity.
Defined.

(** ** [OllamaClient._merge_with_deterministic]: merging twice *)

Module MergeTwiceFacts.

Import Num NumFacts Logging ReceiptPostProcessor OllamaClient MergeFacts.
Open Scope string_scope.
Open Scope Q_scope.

Lemma set_confidence (m : receipt) (f : string) (v : option Q) :
  confidence (set m f v) = confidence m.
Proof.
  unfold set.
  destruct (String.eqb f "total"); [reflexivity|].
  destruct (String.eqb f "gst"); [reflexivity|].
  destruct (String.eqb f "qst"); [reflexivity|].
  destruct (String.eqb f "pst"); [reflexivity|].
  destruct (String.eqb f "hst"); [reflexivity|].
  destruct (String.eqb f "pre_tax"); reflexivity.
Qed.

Lemma fill_confidence (det : DP.result) (fields : list string) (m : receipt) :
  confidence (fold_left (fill_step det) fields m) = confidence m.
Proof.
  revert m. induction fields as [|f fields IH]; intro m; [reflexivity|].
  cbn [fold_left]. rewrite IH. unfold fill_step.
  destruct (DP.is_some (DP.get det f) && negb (DP.truthy (get m f))); [|reflexivity].
  apply set_confidence.
Qed.

Lemma merge_confidence (llm : receipt) (det : DP.result) (lg : logger) :
  confidence (fst (_merge_with_deterministic llm det lg)) = confidence llm.
Proof.
  unfold _merge_with_deterministic, bind.
  pose proof (fill_loop_fst ["gst"; "qst"; "pst"; "hst"; "pre_tax"] det llm lg) as F.
  pose proof (fill_confidence det ["gst"; "qst"; "pst"; "hst"; "pre_tax"] llm) as C.
  rewrite <- F in C.
  destruct (fill_loop ["gst"; "qst"; "pst"; "hst"; "pre_tax"] det llm lg) as [m1 l1].
  cbn [fst] in C. rewrite <- C.
  match goal with
  | |- context [if ?b then _ else _] => destruct b
  end.
  - unfold log, ret. cbn [fst].
    destruct (truthy_str (DP.vendor det) && negb (truthy_str (vendor (set m1 "total" (DP.get det "total")))));
    destruct (truthy_str (DP.date det) && negb _); reflexivity.
  - match goal with
    | |- context [if ?b then _ else _] => destruct b
    end; unfold ret; cbn [fst];
    match goal with
    | |- context [truthy_str (DP.vendor det) && ?b] =>
        destruct (truthy_str (DP.vendor det) && b)
    end;
    match goal with
    | |- context [truthy_str (DP.date det) && ?b] =>
        destruct (truthy_str (DP.date det) && b)
    end; reflexivity.
Qed.

Lemma filled_twice (l d : option Q) : filled (filled l d) d = filled l d.
Proof.
  unfold filled.
  destruct (DP.is_some d) eqn:S; cbn [andb]; [|reflexivity].
  destruct (DP.truthy l) eqn:Tl; cbn [negb].
  - rewrite Tl. reflexivity.
  - destruct (DP.truthy d); reflexivity.
Qed.

Lemma no_gap (x : Q) : Qlt_bool 1.00 (Qabs (x - x)) = false.
Proof.
  apply Qlt_bool_false_iff.
  assert (E : x - x == 0) by ring. rewrite E. vm_compute. discriminate.
Qed.

Lemma merged_total_twice (l d : option Q) :
  merged_total (merged_total l d) d = merged_total l d.
Proof.
  unfold merged_total.
  destruct d as [dv|]; [|reflexivity].
  destruct (DP.truthy (Some dv)) eqn:Td; cbn [andb]; [|reflexivity].
  destruct (DP.truthy l) eqn:Tl; cbn [andb negb].
  - destruct (Qlt_bool 1.00 (Qabs (dv - match l with Some t => t | None => 0 end))) eqn:G.
    + rewrite Td. cbn [andb negb]. rewrite no_gap. reflexivity.
    + rewrite Tl. cbn [andb negb]. rewrite G. reflexivity.
  - rewrite Td. cbn [andb negb]. rewrite no_gap. reflexivity.
Qed.

Lemma merged_text_twice (l d : option string) :
  merged_text (merged_text l d) d = merged_text l d.
Proof.
  unfold merged_text.
  destruct (truthy_str d) eqn:Td; cbn [andb]; [|reflexivity].
  destruct (truthy_str l) eqn:Tl; cbn [negb].
  - rewrite Tl. reflexivity.
  - rewrite Td. reflexivity.
Qed.

End MergeTwiceFacts.

Import Num NumFacts Logging ReceiptPostProcessor OllamaClient MergeFacts MergeTwiceFacts.

(** X3.  Merging is idempotent: merging the merged record with the same
    deterministic result once more changes nothing, whatever the loggers.
    The confidence of the model is never touched. *)
Theorem merge_idempotent (llm : receipt) (det : DP.result) (lg lg' : logger) :
  let merged := fst (_merge_with_deterministic llm det lg) in
  fst (_merge_with_deterministic merged det lg') = merged
  /\ confidence merged = confidence llm.
Proof.
  intro merged. split; [|apply merge_confidence].
  destruct (merge_fields llm det lg) as (Fg & Fq & Fp & Fh & Fpt & Ft & Fv & Fd).
  fold merged in Fg, Fq, Fp, Fh, Fpt, Ft, Fv, Fd.
  destruct (merge_fields merged det lg') as (Gg & Gq & Gp & Gh & Gpt & Gt & Gv & Gd).
  pose proof (merge_confidence merged det lg') as Gc.
  rewrite Fg in Gg. rewrite Fq in Gq. rewrite Fp in Gp. rewrite Fh in Gh.
  rewrite Fpt in Gpt. rewrite Ft in Gt. rewrite Fv in Gv. rewrite Fd in Gd.
  rewrite filled_twice in Gg, Gq, Gp, Gh, Gpt.
  rewrite merged_total_twice in Gt. rewrite merged_text_twice in Gv, Gd.
  rewrite <- Fg in Gg. rewrite <- Fq in Gq. rewrite <- Fp in Gp. rewrite <- Fh in Gh.
  rewrite <- Fpt in Gpt. rewrite <- Ft in Gt. rewrite <- Fv in Gv. rewrite <- Fd in Gd.
  destruct (fst (_merge_with_deterministic merged det lg')) as [v2 d2 t2 p2 g2 ps2 h2 q2 c2].
  destruct merged as [v1 d1 t1 p1 g1 ps1 h1 q1 c1].
  cbn [gst qst pst hst pre_tax total vendor date confidence] in *.
  congruence.
Qed.

(** ** [DeterministicParser._clean_lines] *)

Module CleanLinesFacts.

Import Text DeterministicParser.
Open Scope string_scope.

Lemma chars_str (l : list ascii) : chars (str l) = l.
Proof. apply list_ascii_of_string_of_list_ascii. Qed.

Lemma str_chars (s : string) : str (chars s) = s.
Proof. apply string_of_list_ascii_of_string. Qed.

Lemma chars_app (a b : string) : chars (a ++ b) = (chars a ++ chars b)%list.
Proof.
  induction a as [|c a IH]; [reflexivity|].
  cbn. unfold chars in IH. rewrite IH. reflexivity.
Qed.

Lemma str_nil_iff (l : list ascii) : str l = "" <-> l = [].
Proof.
  split; intro H.
  - destruct l; [reflexivity|discriminate H].
  - subst l. reflexivity.
Qed.

Lemma lstrip_twice (l : list ascii) : lstrip_chars (lstrip_chars l) = lstrip_chars l.
Proof.
  induction l as [|c l IH]; [reflexivity|].
  cbn. destruct (is_space c) eqn:S; [exact IH|].
  cbn. rewrite S. reflexivity.
Qed.

Lemma lstrip_snoc (l : list ascii) (c : ascii) :
  is_space c = false ->
  exists l', lstrip_chars (l ++ [c]) = (l' ++ [c])%list.
Proof.
  intro S. induction l as [|d l IH].
  - exists []. cbn. rewrite S. reflexivity.
  - cbn. destruct (is_space d).
    + exact IH.
    + exists (d :: l). reflexivity.
Qed.

Lemma lstrip_fixed (l : list ascii) :
  lstrip_chars l = l <-> match l with [] => True | c :: _ => is_space c = false end.
Proof.
  destruct l as [|c l]; cbn; [tauto|].
  destruct (is_space c) eqn:S.
  - split; [|discriminate].
    intro H. exfalso.
    assert (L : forall k, (List.length (lstrip_chars k) <= List.length k)%nat).
    { induction k as [|d k IH]; cbn; [lia|]. destruct (is_space d); cbn; lia. }
    specialize (L l). rewrite H in L. cbn in L. lia.
  - tauto.
Qed.

Lemma strip_trimmed (l : list ascii) :
  trimmed (rev (lstrip_chars (rev (lstrip_chars l)))).
Proof.
  unfold trimmed. rewrite rev_involutive. rewrite lstrip_twice. split; [|reflexivity].
  pose proof (lstrip_twice l) as T.
  destruct (lstrip_chars l) as [|c l1] eqn:E; [reflexivity|].
  apply lstrip_fixed in T.
  cbn [rev]. destruct (lstrip_snoc (rev l1) c T) as [l' Hl']. rewrite Hl'.
  rewrite rev_app_distr. cbn. rewrite T. reflexivity.
Qed.

Lemma strip_fixed (s : string) : trimmed (chars s) -> strip s = s.
Proof.
  intros [A B]. unfold strip. rewrite A, B, rev_involutive. apply str_chars.
Qed.

Lemma strip_is_trimmed (s : string) : trimmed (chars (strip s)).
Proof. unfold strip. rewrite chars_str. apply strip_trimmed. Qed.

(** [str.strip] is idempotent. *)
Lemma strip_strip (s : string) : strip (strip s) = strip s.
Proof. apply strip_fixed, strip_is_trimmed. Qed.

Lemma lstrip_keeps (P : ascii -> Prop) (l : list ascii) :
  Forall P l -> Forall P (lstrip_chars l).
Proof.
  induction 1 as [|c l Hc Hl IH]; cbn; [constructor|].
  destruct (is_space c); [exact IH|constructor; assumption].
Qed.

Lemma strip_keeps (P : ascii -> Prop) (l : list ascii) :
  Forall P l -> Forall P (rev (lstrip_chars (rev (lstrip_chars l)))).
Proof.
  intro H. apply Forall_rev, lstrip_keeps, Forall_rev, lstrip_keeps, H.
Qed.

Lemma split_no_sep (l cur : list ascii) :
  no_nl cur -> Forall no_nl (split_chars "010" l cur).
Proof.
  revert cur. induction l as [|c l IH]; intros cur Hc; cbn.
  - constructor; [|constructor]. apply Forall_rev, Hc.
  - destruct (Ascii.eqb c "010") eqn:E.
    + constructor; [apply Forall_rev, Hc|]. apply IH. constructor.
    + apply IH. constructor; [|exact Hc]. apply Ascii.eqb_neq. exact E.
Qed.

Lemma split_line (l cur rest : list ascii) :
  no_nl l ->
  split_chars "010" (l ++ "010"%char :: rest) cur
  = rev (rev l ++ cur) :: split_chars "010" rest [].
Proof.
  revert cur. induction l as [|c l IH]; intros cur H; cbn.
  - reflexivity.
  - inversion H as [|? ? Hc Hl]; subst.
    apply Ascii.eqb_neq in Hc. rewrite Hc. rewrite IH by exact Hl.
    rewrite <- app_assoc. reflexivity.
Qed.

Lemma split_last (l cur : list ascii) :
  no_nl l -> split_chars "010" l cur = [rev (rev l ++ cur)].
Proof.
  revert cur. induction l as [|c l IH]; intros cur H; cbn.
  - reflexivity.
  - inversion H as [|? ? Hc Hl]; subst.
    apply Ascii.eqb_neq in Hc. rewrite Hc. rewrite IH by exact Hl.
    rewrite <- app_assoc. reflexivity.
Qed.

(** Splitting a text that was joined from lines gives the lines back. *)
Lemma split_unlines (ls : list string) :
  ls <> [] -> Forall (fun l => no_nl (chars l)) ls ->
  split "010" (unlines ls) = ls.
Proof.
  intros N H. unfold split, unlines.
  induction ls as [|l ls IH]; [congruence|].
  inversion H as [|? ? Hl Hls]; subst.
  destruct ls as [|l2 ls].
  - cbn [join]. rewrite split_last by exact Hl.
    cbn [map]. rewrite app_nil_r, rev_involutive, str_chars. reflexivity.
  - change (join NL (l :: l2 :: ls)) with (l ++ NL ++ join NL (l2 :: ls)).
    rewrite chars_app. change (chars (NL ++ ?x)) with ("010"%char :: chars x).
    rewrite split_line by exact Hl.
    cbn [map]. rewrite app_nil_r, rev_involutive, str_chars.
    f_equal. apply IH; [discriminate|exact Hls].
Qed.

Lemma clean_lines_clean (text : string) : Forall clean (_clean_lines text).
Proof.
  unfold _clean_lines. apply Forall_forall. intros l Hl.
  apply filter_In in Hl. destruct Hl as [Hin Hne].
  apply in_map_iff in Hin. destruct Hin as [raw [E Hraw]].
  unfold split in Hraw. apply in_map_iff in Hraw. destruct Hraw as [cs [E2 Hcs]].
  pose proof (split_no_sep (chars text) [] (Forall_nil _)) as F.
  rewrite Forall_forall in F. specialize (F cs Hcs).
  subst raw l. split; [|split].
  - intro E. rewrite E in Hne. discriminate Hne.
  - apply strip_strip.
  - unfold strip. rewrite !chars_str. apply strip_keeps. exact F.
Qed.

Lemma clean_lines_fixed (ls : list string) :
  Forall clean ls -> _clean_lines (unlines ls) = ls.
Proof.
  intro H. unfold _clean_lines.
  destruct ls as [|l ls]; [reflexivity|].
  rewrite split_unlines; [|discriminate|].
  - induction H as [|x xs [Hne [Hs _]] _ IH]; [reflexivity|].
    cbn [map filter]. rewrite Hs.
    destruct (String.eqb x "") eqn:E.
    + apply String.eqb_eq in E. contradiction.
    + cbn [negb]. f_equal. exact IH.
  - eapply Forall_impl; [|exact H]. intros x [_ [_ Hx]]. exact Hx.
Qed.

End CleanLinesFacts.

Import Text DeterministicParser CleanLinesFacts.

(** X4.  The lines the parser works on: none is empty, none starts or ends
    with white space, none holds a line feed; and the text rebuilt from them
    cleans to the same lines, so cleaning is done once and for all. *)
Theorem clean_lines_normal (text : string) :
  let lines := _clean_lines text in
  (forall line, In line lines ->
     line <> ""%string
     /\ strip line = line
     /\ (forall c, In c (chars line) -> c <> "010"%char)
     /\ (exists first rest_, chars line = first :: rest_ /\ is_space first = false)
     /\ (exists init last, chars line = (init ++ [last])%list /\ is_space last = false))
  /\ _clean_lines (unlines lines) = lines
  /\ (List.length lines <= List.length (split "010" text))%nat.
Proof.
  intro lines. pose proof (clean_lines_clean text) as C. fold lines in C.
  split; [|split].
  - intros line Hin. rewrite Forall_forall in C. destruct (C line Hin) as [Hne [Hs Hn]].
    split; [exact Hne|]. split; [exact Hs|]. split.
    { unfold no_nl in Hn. rewrite Forall_forall in Hn. exact Hn. }
    pose proof (strip_is_trimmed line) as [T1 T2]. rewrite Hs in T1, T2.
    assert (Hc : chars line <> []).
    { intro E. apply Hne. rewrite <- (str_chars line), E. reflexivity. }
    split.
    + destruct (chars line) as [|c l] eqn:E; [congruence|].
      exists c, l. split; [reflexivity|]. apply lstrip_fixed in T1. exact T1.
    + destruct (rev (chars line)) as [|c l] eqn:E.
      * exfalso. apply Hc. rewrite <- (rev_involutive (chars line)), E. reflexivity.
      * exists (rev l), c. split.
        -- rewrite <- (rev_involutive (chars line)), E. reflexivity.
        -- apply lstrip_fixed in T2. exact T2.
  - apply clean_lines_fixed. exact C.
  - unfold lines, _clean_lines.
    etransitivity; [apply filter_length_le|]. rewrite length_map. apply Nat.le_refl.
Qed.


(** ** [ReceiptImagePipeline._otsu_threshold] *)

Module OtsuFacts.

Import Num NumFacts Text Logging ReceiptImagePipeline.
Open Scope Z_scope.

Lemma fold_add_acc (l : list Z) (a : Z) : fold_left Z.add l a = a + fold_left Z.add l 0.
Proof.
  revert a. induction l as [|x l IH]; intro a; cbn; [lia|].
  rewrite IH. rewrite (IH x). lia.
Qed.

Lemma weight_below_S (h : list Z) (n : nat) :
  weight_below h (S n) = weight_below h n + nth n h 0.
Proof.
  unfold weight_below. rewrite seq_S, map_app, fold_left_app. reflexivity.
Qed.

Lemma mass_below_S (h : list Z) (n : nat) :
  mass_below h (S n) = mass_below h n + Z.of_nat n * nth n h 0.
Proof.
  unfold mass_below. rewrite seq_S, map_app, fold_left_app. reflexivity.
Qed.

Lemma weight_below_nonneg (h : list Z) (n : nat) :
  forallb (Z.leb 0) h = true -> 0 <= weight_below h n.
Proof.
  intro H. induction n as [|n IH]; [cbn; lia|].
  rewrite weight_below_S.
  assert (0 <= nth n h 0); [|lia].
  destruct (Nat.lt_ge_cases n (List.length h)) as [L|L].
  - rewrite forallb_forall in H. apply Z.leb_le. apply H. apply nth_In. exact L.
  - rewrite nth_overflow by exact L. lia.
Qed.

Lemma nth_nonneg (h : list Z) (n : nat) :
  forallb (Z.leb 0) h = true -> 0 <= nth n h 0.
Proof.
  intro H.
  destruct (Nat.lt_ge_cases n (List.length h)) as [L|L].
  - rewrite forallb_forall in H. apply Z.leb_le. apply H. apply nth_In. exact L.
  - rewrite nth_overflow by exact L. lia.
Qed.

Lemma sum_all_mass (h : list Z) :
  fold_left Z.add (map (fun i => i * nth (Z.to_nat i) h 0) range256) 0 = mass_below h 256.
Proof.
  unfold range256, mass_below. rewrite map_map.
  rewrite (map_ext _ (fun i => Z.of_nat i * nth i h 0)); [reflexivity|].
  intro i. rewrite Nat2Z.id. reflexivity.
Qed.

Section Loop.

Variable h : list Z.
Variable total : Z.
Hypothesis counts : forallb (Z.leb 0) h = true.

Let var (t : nat) : Q := between_class_variance h total t.

Let best : nat -> otsu_state -> Prop := otsu_best h total.
Let inv : nat -> otsu_state -> Prop := otsu_inv h total.

Lemma best_all (n : nat) (st : otsu_state) :
  (forall i, reached h total i -> (i < n)%nat) -> best n st -> best 256 st.
Proof.
  intros R [[T [M B]]|[b [T [Rb [M [P B]]]]]].
  - left. split; [exact T|]. split; [exact M|]. intros i _ Hi. apply B; [apply R|]; exact Hi.
  - right. exists b. split; [exact T|]. split; [exact Rb|]. split; [exact M|].
    split; [exact P|]. intros i _ Hi. apply B; [apply R|]; exact Hi.
Qed.

Lemma loop_best (k n : nat) (st : otsu_state) :
  (n + k = 256)%nat -> inv n st ->
  best 256 (otsu_loop (map Z.of_nat (seq n k)) h total (mass_below h 256) st).
Proof.
  revert n st. induction k as [|k IH]; intros n st Hn (Hw & Hs & Hnb & Hlt & Hb).
  - cbn. apply (best_all n); [|exact Hb].
    intros i [Hi _]. lia.
  - cbn [seq map otsu_loop]. rewrite Nat2Z.id.
    rewrite Hw. rewrite <- weight_below_S.
    destruct (weight_below h (S n) =? 0) eqn:E0.
    + (* continue *)
      apply Z.eqb_eq in E0.
      assert (Hz : nth n h 0 = 0).
      { pose proof (weight_below_nonneg h n counts).
        pose proof (nth_nonneg h n counts).
        rewrite weight_below_S in E0. lia. }
      apply IH; [lia|].
      split; [reflexivity|]. cbn [sum_bg w_bg max_var threshold]. split.
      { rewrite mass_below_S, Hz, Z.mul_0_r, Z.add_0_r. exact Hs. }
      split.
      { intros i Hi. destruct (Nat.eq_dec i n) as [->|Ne]; [congruence|].
        apply Hnb. lia. }
      split.
      { intros b Tb Pb. specialize (Hlt b Tb Pb). lia. }
      destruct Hb as [[T [M B]]|[b [T [Rb [M [P B]]]]]].
      * left. split; [exact T|]. split; [exact M|].
        intros i Hi Ri. destruct (Nat.eq_dec i n) as [->|Ne].
        -- destruct Ri as [_ [W _]]. congruence.
        -- apply B; [lia|exact Ri].
      * right. exists b. split; [exact T|]. split; [exact Rb|]. split; [exact M|].
        split; [exact P|].
        intros i Hi Ri. destruct (Nat.eq_dec i n) as [->|Ne].
        -- destruct Ri as [_ [W _]]. congruence.
        -- apply B; [lia|exact Ri].
    + apply Z.eqb_neq in E0.
      destruct (total - weight_below h (S n) =? 0) eqn:E1.
      * (* break *)
        apply Z.eqb_eq in E1.
        apply (best_all n).
        { intros i [_ [_ Ri]].
          destruct (Nat.lt_ge_cases i n) as [L|L]; [exact L|].
          exfalso. apply (Ri n L E0). lia. }
        destruct Hb as [[T [M B]]|[b [T [Rb [M [P B]]]]]].
        -- left. split; [exact T|]. split; [exact M|]. exact B.
        -- right. exists b. split; [exact T|]. split; [exact Rb|]. split; [exact M|].
           split; [exact P|]. exact B.
      * apply Z.eqb_neq in E1.
        assert (Rn : reached h total n).
        { split; [lia|]. split; [exact E0|].
          intros i Hi. destruct (Nat.eq_dec i n) as [->|Ne]; [intros _; lia|].
          apply Hnb. lia. }
        assert (Hs' : (sum_bg st + inject_Z (Z.of_nat n * nth n h 0%Z)%Z
                       == inject_Z (mass_below h (S n)))%Q).
        { rewrite Hs, mass_below_S, inject_Z_plus. reflexivity. }
        set (sum_bg_ := (sum_bg st + inject_Z (Z.of_nat n * nth n h 0%Z)%Z)%Q) in *.
        set (v := (inject_Z (weight_below h (S n)) * inject_Z (total - weight_below h (S n))
                   * ((sum_bg_ / inject_Z (weight_below h (S n))
                       - (inject_Z (mass_below h 256) - sum_bg_)
                         / inject_Z (total - weight_below h (S n)))
                      * (sum_bg_ / inject_Z (weight_below h (S n))
                         - (inject_Z (mass_below h 256) - sum_bg_)
                           / inject_Z (total - weight_below h (S n)))))%Q).
        assert (V : (v == var n)%Q).
        { unfold v, var, between_class_variance. cbv zeta. rewrite Hs'. reflexivity. }
        assert (M0 : (0 <= max_var st)%Q).
        { destruct Hb as [[_ [M _]]|[b [_ [_ [M [P _]]]]]]; rewrite M;
            [apply Qle_refl|apply Qlt_le_weak, P]. }
        destruct (Qlt_bool (max_var st) v) eqn:C.
        -- apply Qlt_bool_iff in C. rewrite V in C.
           apply IH; [lia|].
           split; [reflexivity|]. cbn [sum_bg w_bg max_var threshold].
           split; [exact Hs'|]. split.
           { intros i Hi. destruct (Nat.eq_dec i n) as [->|Ne]; [intros _; lia|].
             apply Hnb. lia. }
           split.
           { intros b Tb _. apply Nat2Z.inj in Tb. lia. }
           right. exists n. split; [reflexivity|]. split; [exact Rn|].
           split; [exact V|]. split; [eapply Qle_lt_trans; [exact M0|exact C]|].
           intros i Hi Ri. destruct (Nat.eq_dec i n) as [->|Ne].
           { split; [apply Qle_refl|lia]. }
           assert (Li : (i < n)%nat) by lia.
           assert (Vi : (var i <= max_var st)%Q).
           { destruct Hb as [[_ [M B]]|[b [_ [_ [M [_ B]]]]]]; rewrite M.
             - apply B; assumption.
             - apply B; assumption. }
           split; [apply Qlt_le_weak|intros _]; eapply Qle_lt_trans; [exact Vi|exact C|exact Vi|exact C].
        -- apply Qlt_bool_false_iff in C. rewrite V in C.
           apply IH; [lia|].
           split; [reflexivity|]. cbn [sum_bg w_bg max_var threshold].
           split; [exact Hs'|]. split.
           { intros i Hi. destruct (Nat.eq_dec i n) as [->|Ne]; [intros _; lia|].
             apply Hnb. lia. }
           split.
           { intros b Tb Pb. specialize (Hlt b Tb Pb). lia. }
           destruct Hb as [[T [M B]]|[b [T [Rb [M [P B]]]]]].
           ++ left. split; [exact T|]. split; [exact M|].
              intros i Hi Ri. destruct (Nat.eq_dec i n) as [->|Ne].
              ** rewrite <- M. exact C.
              ** apply B; [lia|exact Ri].
           ++ right. exists b. split; [exact T|]. split; [exact Rb|]. split; [exact M|].
              split; [exact P|].
              assert (Lb : (b < n)%nat).
              { apply Hlt; [exact T|]. rewrite M. exact P. }
              intros i Hi Ri. destruct (Nat.eq_dec i n) as [->|Ne].
              ** split; [rewrite <- M; exact C|lia].
              ** apply B; [lia|exact Ri].
Qed.

Lemma otsu_inv_start : inv 0 (mkOtsu 0%Q 0 0%Q 128).
Proof.
  split; [reflexivity|]. split; [reflexivity|]. split; [intros i Hi; lia|].
  split; [intros b _ P; cbn in P; exfalso; revert P; apply Qlt_irrefl|].
  left. split; [reflexivity|]. split; [reflexivity|]. intros i Hi. lia.
Qed.

End Loop.

End OtsuFacts.

Module OtsuSplit.

Import Num NumFacts Text Logging ReceiptImagePipeline OtsuFacts.
Open Scope Z_scope.

Lemma weight_below_mono (h : list Z) (m n : nat) :
  forallb (Z.leb 0) h = true -> (m <= n)%nat -> weight_below h m <= weight_below h n.
Proof.
  intros H L. induction L as [|n L IH]; [lia|].
  rewrite weight_below_S. pose proof (nth_nonneg h n H). lia.
Qed.

(** The pixels at the levels up to [b] have grey levels of at most [b]. *)
Lemma mass_below_le (h : list Z) (b : nat) :
  forallb (Z.leb 0) h = true ->
  mass_below h (S b) <= Z.of_nat b * weight_below h (S b).
Proof.
  intro H. induction b as [|b IH].
  - rewrite mass_below_S, weight_below_S. cbn. lia.
  - rewrite mass_below_S, (weight_below_S h (S b)).
    pose proof (nth_nonneg h (S b) H).
    pose proof (weight_below_nonneg h (S b) H).
    nia.
Qed.

(** The pixels at the levels from [m] on have grey levels of at least [m]. *)
Lemma mass_above_ge (h : list Z) (m n : nat) :
  forallb (Z.leb 0) h = true -> (m <= n)%nat ->
  Z.of_nat m * (weight_below h n - weight_below h m) <= mass_below h n - mass_below h m.
Proof.
  intros H L. induction L as [|n L IH]; [lia|].
  rewrite mass_below_S, weight_below_S.
  pose proof (nth_nonneg h n H). nia.
Qed.

(** A level with pixels on both sides is looked at by the loop. *)
Lemma split_reached (h : list Z) (b : nat) :
  forallb (Z.leb 0) h = true -> (b < 256)%nat ->
  0 < weight_below h (S b) < weight_below h 256 ->
  reached h (weight_below h 256) b.
Proof.
  intros H Lb [W0 W1]. split; [exact Lb|]. split; [lia|].
  intros i Li _. pose proof (weight_below_mono h (S i) (S b) H ltac:(lia)). lia.
Qed.

(** At such a level the two class means differ, so that the variance is
    positive. *)
Lemma split_variance (h : list Z) (b : nat) :
  forallb (Z.leb 0) h = true -> (b < 256)%nat ->
  0 < weight_below h (S b) < weight_below h 256 ->
  (0 < between_class_variance h (weight_below h 256) b)%Q.
Proof.
  intros H Lb [W0 W1]. unfold between_class_variance. cbv zeta.
  pose proof (mass_below_le h b H) as A.
  pose proof (mass_above_ge h (S b) 256 H ltac:(lia)) as B.
  set (wb := weight_below h (S b)) in *.
  set (wf := weight_below h 256 - wb) in *.
  set (mb := mass_below h (S b)) in *.
  set (mf := mass_below h 256) in *.
  assert (Wf : 0 < wf) by (unfold wf; lia).
  assert (Qb : (0 < inject_Z wb)%Q) by (change 0%Q with (inject_Z 0); rewrite <- Zlt_Qlt; exact W0).
  assert (Qf : (0 < inject_Z wf)%Q) by (change 0%Q with (inject_Z 0); rewrite <- Zlt_Qlt; exact Wf).
  assert (Mb : (inject_Z mb / inject_Z wb <= inject_Z (Z.of_nat b))%Q).
  { apply Qle_shift_div_r; [exact Qb|].
    rewrite <- inject_Z_mult, <- Zle_Qle. exact A. }
  assert (Mf : (inject_Z (Z.of_nat b) + 1 <= (inject_Z mf - inject_Z mb) / inject_Z wf)%Q).
  { apply Qle_shift_div_l; [exact Qf|].
    change 1%Q with (inject_Z 1).
    rewrite <- inject_Z_plus, <- inject_Z_mult.
    unfold Qminus. rewrite <- inject_Z_opp, <- inject_Z_plus.
    rewrite <- Zle_Qle. unfold wf at 1. fold wf. rewrite Nat2Z.inj_succ in B. unfold wf. lia. }
  set (d := (inject_Z mb / inject_Z wb - (inject_Z mf - inject_Z mb) / inject_Z wf)%Q) in *.
  assert (D : (d <= -1)%Q).
  { unfold d. lra. }
  assert (DD : (0 < d * d)%Q) by nra.
  apply Qmult_lt_0_compat; [apply Qmult_lt_0_compat; assumption|exact DD].
Qed.

End OtsuSplit.

Import Num NumFacts Text Logging ReceiptImagePipeline OtsuFacts OtsuSplit.

(** X5.  Otsu's threshold of the histogram of a greyscale image (256
    counts) of fewer than 2^31 pixels, [total] being the number of pixels:
    the call does not raise and returns a grey level.  When some level has
    pixels at or below it and pixels above it, the level returned is one
    that the loop looked at and has pixels on both sides, so that the
    binarised image is neither all black nor all white; when no level has,
    the result is the default 128. *)
Theorem otsu_threshold_splits (h : list Z) (lg : logger)
  (size : List.length h = 256%nat) (counts : forallb (Z.leb 0) h = true)
  (bounded : (weight_below h 256 < 2 ^ 31)%Z) :
  let total := weight_below h 256 in
  exists t : Z,
    _otsu_threshold h total lg = (Ok t, lg)
    /\ (0 <= t <= 255)%Z
    /\ ((exists b, (b < 256)%nat /\ (0 < weight_below h (S b) < total)%Z) ->
        exists b, t = Z.of_nat b /\ reached h total b
                  /\ (0 < weight_below h (S b) < total)%Z)
    /\ ((forall b, (b < 256)%nat ->
           weight_below h (S b) = 0%Z \/ weight_below h (S b) = total) ->
        t = 128%Z).
Proof.
  intro total. unfold _otsu_threshold.
  destruct (List.length h <? 256)%nat eqn:L; [apply Nat.ltb_lt in L; lia|].
  rewrite sum_all_mass.
  pose proof (loop_best h total counts 256 0 (mkOtsu 0%Q 0 0%Q 128) eq_refl
                (otsu_inv_start h total)) as B.
  change (map Z.of_nat (seq 0 256)) with range256 in B.
  set (st := otsu_loop range256 h total (mass_below h 256) (mkOtsu 0%Q 0 0%Q 128)) in *.
  exists (threshold st). split; [reflexivity|].
  assert (Sides : forall b, reached h total b -> (0 < weight_below h (S b) < total)%Z).
  { intros b [Lb [W0 W1]].
    pose proof (weight_below_nonneg h (S b) counts).
    pose proof (weight_below_mono h (S b) 256 counts ltac:(lia)).
    specialize (W1 b (Nat.le_refl b) W0). unfold total in *. lia. }
  destruct B as [[T [M B]]|[b [T [Rb [M [P B]]]]]].
  - split; [lia|]. split; [|intros _; exact T].
    intros [b [Lb Wb]]. exfalso.
    pose proof (split_variance h b counts Lb Wb) as V.
    pose proof (B b Lb (split_reached h b counts Lb Wb)) as V'.
    fold total in V. apply (Qlt_irrefl 0%Q). eapply Qlt_le_trans; [exact V|exact V'].
  - split; [destruct Rb as [Lb _]; lia|]. split.
    + intros _. exists b. split; [exact T|]. split; [exact Rb|]. exact (Sides b Rb).
    + intro N. exfalso. pose proof (Sides b Rb) as S0.
      destruct Rb as [Lb _]. destruct (N b Lb); lia.
Qed.

Lemma otsu_threshold_splits_witness :
  let h := (repeat 0%Z 100 ++ [3%Z] ++ repeat 0%Z 50 ++ [5%Z] ++ repeat 0%Z 104)%list in
  List.length h = 256%nat
  /\ weight_below h 256 = 8%Z
  /\ exists t : Z, _otsu_threshold h 8 [] = (Ok t, []) /\ (100 <= t < 151)%Z.
Proof.
  intro h.
  assert (L : List.length h = 256%nat) by (vm_compute; reflexivity).
  assert (W : weight_below h 256 = 8%Z) by (vm_compute; reflexivity).
  split; [exact L|]. split; [exact W|].
  destruct (otsu_threshold_splits h [] L) as [t [E [R [S1 _]]]].
  - vm_compute. reflexivity.
  - rewrite W. reflexivity.
  - rewrite W in E, S1. exists t. split; [exact E|].
    destruct S1 as [b [Tb [_ Wb]]].
    + exists 100%nat. split; [lia|]. vm_compute. split; reflexivity.
    + subst t.
      assert (Hb : (100 <= b < 151)%nat); [|lia].
      destruct (Nat.lt_ge_cases b 100) as [C|C].
      * exfalso.
        assert (Z0 : weight_below h (S b) = 0%Z); [|lia].
        clear - C. do 100 (destruct b as [|b]; [vm_compute; reflexivity|]). lia.
      * split; [exact C|]. destruct (Nat.lt_ge_cases b 151) as [D|D]; [exact D|].
        exfalso.
        pose proof (OtsuSplit.weight_below_mono h 152 (S b) eq_refl ltac:(lia)) as Mo.
        assert (W152 : weight_below h 152 = 8%Z) by (vm_compute; reflexivity).
        lia.
Defined.

(** ** [ReceiptImagePipeline._upscale_if_needed] and [_downscale_if_needed] *)

Module RescaleFacts.

Import Num NumFacts Text Logging ReceiptImagePipeline.
Open Scope Z_scope.

(** [int(side * (edge / long_edge))] is [side * edge // long_edge]. *)
Lemma scaled_div (side edge long_edge : Z) :
  0 < long_edge -> scaled side edge long_edge = side * edge / long_edge.
Proof.
  intro L. unfold scaled.
  assert (E : (inject_Z side * (inject_Z edge / inject_Z long_edge)
               == (side * edge) # (Z.to_pos long_edge))%Q).
  { unfold Qeq, Qdiv, Qmult, Qinv, inject_Z. cbn.
    destruct long_edge as [|p|p]; try lia. cbn. lia. }
  rewrite E. unfold Qfloor. rewrite Z2Pos.id by exact L. reflexivity.
Qed.

Lemma scaled_up (side edge long_edge : Z) :
  0 <= side <= long_edge -> 0 < long_edge <= edge ->
  side <= scaled side edge long_edge <= edge.
Proof.
  intros S L. rewrite scaled_div by lia. split.
  - apply Z.div_le_lower_bound; [lia|]. nia.
  - apply Z.div_le_upper_bound; [lia|]. nia.
Qed.

Lemma scaled_down (side edge long_edge : Z) :
  0 <= side <= long_edge -> 0 <= edge <= long_edge -> 0 < long_edge ->
  0 <= scaled side edge long_edge <= Z.min side edge.
Proof.
  intros S E L. rewrite scaled_div by lia. split.
  - apply Z.div_pos; [nia|lia].
  - apply Z.min_glb; apply Z.div_le_upper_bound; try lia; nia.
Qed.

End RescaleFacts.

Import Num NumFacts Text Logging ReceiptImagePipeline RescaleFacts.

(** X6.  The two rescaling stages, for a Pillow whose [resize] returns an
    image of the size it was asked for.  An upscaled image has no side
    shorter than before and none over [MIN_LONG_EDGE]; a downscaled image
    has no side longer than before and none over [MAX_LONG_EDGE]; an image
    whose long edge is already within the two bounds is handed on as it is,
    with nothing logged; and no image is resized twice: after an upscale
    the downscale stage changes nothing. *)
Theorem rescale_bounds (P : Pillow) (im : image P) (lg : logger)
  (resize_size : forall i s i', resize P i s = Ok i' -> size P i' = s)
  (width : (0 <= fst (size P im))%Z) (height : (0 <= snd (size P im))%Z) :
  let w := fst (size P im) in
  let h := snd (size P im) in
  (forall im' lg', _upscale_if_needed P im lg = (Ok im', lg') ->
     (w <= fst (size P im') <= Z.max w MIN_LONG_EDGE)%Z
     /\ (h <= snd (size P im') <= Z.max h MIN_LONG_EDGE)%Z
     /\ _downscale_if_needed P im' lg'
        = (if (Z.max w h <? MIN_LONG_EDGE)%Z then (Ok im', lg')
           else _downscale_if_needed P im lg))
  /\ (forall im' lg', _downscale_if_needed P im lg = (Ok im', lg') ->
        (0 <= fst (size P im') <= Z.min w (Z.max w h))%Z
        /\ (0 <= snd (size P im') <= Z.min h (Z.max w h))%Z
        /\ (fst (size P im') <= MAX_LONG_EDGE)%Z
        /\ (snd (size P im') <= MAX_LONG_EDGE)%Z)
  /\ ((MIN_LONG_EDGE <= Z.max w h <= MAX_LONG_EDGE)%Z ->
        _upscale_if_needed P im lg = (Ok im, lg)
        /\ _downscale_if_needed P im lg = (Ok im, lg)).
Proof.
  intros w h. fold w in width. fold h in height.
  split; [|split].
  - intros im' lg'. unfold _upscale_if_needed. fold w h.
    destruct (Z.max w h <? MIN_LONG_EDGE) eqn:L.
    + apply Z.ltb_lt in L.
      destruct (Z.max w h =? 0) eqn:Z0; [discriminate|].
      apply Z.eqb_neq in Z0.
      unfold then_, call, say, pure.
      destruct (resize P im (scaled w MIN_LONG_EDGE (Z.max w h),
                             scaled h MIN_LONG_EDGE (Z.max w h))) as [i|e] eqn:R;
        [|discriminate].
      intro E. injection E as E1 E2. subst im'.
      apply resize_size in R.
      assert (Hw : w <= fst (size P i) <= MIN_LONG_EDGE).
      { rewrite R. cbn [fst]. apply scaled_up; lia. }
      assert (Hh : h <= snd (size P i) <= MIN_LONG_EDGE).
      { rewrite R. cbn [snd]. apply scaled_up; lia. }
      split; [lia|]. split; [lia|].
      unfold _downscale_if_needed.
      destruct (MAX_LONG_EDGE <? Z.max (fst (size P i)) (snd (size P i))) eqn:D;
        [|reflexivity].
      apply Z.ltb_lt in D. unfold MAX_LONG_EDGE, MIN_LONG_EDGE in *. lia.
    + unfold pure. intro E. injection E as E1 E2. subst im' lg'.
      fold w h. split; [lia|]. split; [lia|]. reflexivity.
  - intros im' lg'. unfold _downscale_if_needed. fold w h.
    destruct (MAX_LONG_EDGE <? Z.max w h) eqn:L.
    + apply Z.ltb_lt in L.
      unfold then_, call, say, pure.
      destruct (resize P im (scaled w MAX_LONG_EDGE (Z.max w h),
                             scaled h MAX_LONG_EDGE (Z.max w h))) as [i|e] eqn:R;
        [|discriminate].
      intro E. injection E as E1 E2. subst im'.
      apply resize_size in R. rewrite R. cbn [fst snd].
      assert (M : 0 < MAX_LONG_EDGE) by reflexivity.
      pose proof (scaled_down w MAX_LONG_EDGE (Z.max w h)) as Hw.
      pose proof (scaled_down h MAX_LONG_EDGE (Z.max w h)) as Hh.
      lia.
    + apply Z.ltb_ge in L.
      unfold pure. intro E. injection E as E1 E2. subst im' lg'.
      fold w h. lia.
  - intros [A B]. unfold _upscale_if_needed, _downscale_if_needed. fold w h.
    destruct (Z.max w h <? MIN_LONG_EDGE) eqn:L; [apply Z.ltb_lt in L; lia|].
    destruct (MAX_LONG_EDGE <? Z.max w h) eqn:D; [apply Z.ltb_lt in D; lia|].
    split; reflexivity.
Qed.

Lemma rescale_bounds_witness :
  let im := mkPic 700 350 "RGB" in
  let lg' := [(DEBUG, "Upscaled 2.0x to (1400, 700)"%string)] in
  _upscale_if_needed SizedPillow im [] = (Ok (mkPic 1400 700 "RGB"), lg')
  /\ _downscale_if_needed SizedPillow (mkPic 1400 700 "RGB") lg'
     = (Ok (mkPic 1400 700 "RGB"), lg').
Proof.
  intros im lg'.
  assert (R : forall i s i', resize SizedPillow i s = Ok i' -> size SizedPillow i' = s).
  { intros i s i'. cbn. unfold sized_resize.
    destruct ((fst s <? 1)%Z || (snd s <? 1)%Z); [discriminate|].
    intro E. injection E as E. subst i'. destruct s; reflexivity. }
  assert (W : (0 <= fst (size SizedPillow im))%Z) by (cbn; lia).
  assert (H : (0 <= snd (size SizedPillow im))%Z) by (cbn; lia).
  assert (U : _upscale_if_needed SizedPillow im [] = (Ok (mkPic 1400 700 "RGB"), lg')).
  { vm_compute. reflexivity. }
  split; [exact U|].
  destruct (rescale_bounds SizedPillow im [] R W H) as [Up _].
  destruct (Up _ _ U) as [_ [_ D]]. exact D.
Defined.

(** ** [ReceiptPostProcessor._infer_vendor_from_domain] *)

Module DomainFacts.

Import Text Logging ReceiptPostProcessor.
Open Scope string_scope.

Section FirstMatch.

Variable p : string -> bool.

Let len (x : string * string) : nat := String.length (fst x).
Let hit (x : string * string) : bool := p (fst x).

Lemma insert_sorted (a : string * string) (s : list (string * string)) :
  longest_first s -> longest_first (insert_by_len a s).
Proof.
  unfold longest_first. induction s as [|z s IH]; intro H; cbn.
  - constructor; constructor.
  - inversion H as [|? ? Hs Hz]; subst. fold (len z) (len a).
    destruct (len z <=? len a)%nat eqn:E.
    + apply Nat.leb_le in E. constructor; [exact H|].
      constructor; [exact E|].
      rewrite Forall_forall in Hz |- *. intros y Hy. specialize (Hz y Hy). (unfold len in *; lia).
    + apply Nat.leb_gt in E. constructor; [apply IH, Hs|].
      assert (G : forall y, In y (insert_by_len a s) -> y = a \/ In y s).
      { clear. induction s as [|w s IH]; cbn; intros y Hy.
        - destruct Hy as [->|[]]. left. reflexivity.
        - destruct (String.length (fst w) <=? String.length (fst a))%nat.
          + destruct Hy as [->|Hy]; [left; reflexivity|right; exact Hy].
          + destruct Hy as [->|Hy]; [right; left; reflexivity|].
            destruct (IH y Hy) as [->|Hin]; [left; reflexivity|right; right; exact Hin]. }
      rewrite Forall_forall in Hz |- *. intros y Hy.
      destruct (G y Hy) as [->|Hin]; [(unfold len in *; lia)|apply Hz, Hin].
Qed.

Lemma sorted_sorted (l : list (string * string)) : longest_first (sorted_by_len l).
Proof.
  induction l as [|a l IH]; cbn; [constructor|]. apply insert_sorted, IH.
Qed.

Lemma find_In (l : list (string * string)) (y : string * string) :
  find hit l = Some y -> In y l /\ hit y = true.
Proof. intro H. apply find_some in H. exact H. Qed.

Lemma insert_find (a : string * string) (s : list (string * string)) :
  longest_first s ->
  find hit (insert_by_len a s)
  = if hit a
    then match find hit s with
         | Some y => if (len y <=? len a)%nat then Some a else Some y
         | None => Some a
         end
    else find hit s.
Proof.
  unfold longest_first. induction s as [|z s IH]; intro H.
  - cbn. destruct (hit a); reflexivity.
  - inversion H as [|? ? Hs Hz]; subst. cbn [insert_by_len]. fold (len z) (len a).
    destruct (len z <=? len a)%nat eqn:E.
    + cbn [find]. destruct (hit a) eqn:Pa; [|reflexivity].
      destruct (hit z) eqn:Pz.
      * rewrite E. reflexivity.
      * destruct (find hit s) as [y|] eqn:F; [|reflexivity].
        apply find_In in F. destruct F as [Hin _].
        rewrite Forall_forall in Hz. specialize (Hz y Hin).
        apply Nat.leb_le in E.
        destruct (len y <=? len a)%nat eqn:E2; [reflexivity|].
        apply Nat.leb_gt in E2. (unfold len in *; lia).
    + cbn [find]. rewrite (IH Hs).
      destruct (hit z) eqn:Pz; [|reflexivity].
      destruct (hit a); [|reflexivity]. rewrite E. reflexivity.
Qed.

Lemma sorted_find (l : list (string * string)) :
  first_longest p l (find hit (sorted_by_len l)).
Proof.
  induction l as [|a l IH].
  - cbn. intros y [].
  - cbn [sorted_by_len fold_right]. fold (sorted_by_len l).
    rewrite (insert_find a _ (sorted_sorted l)).
    destruct (hit a) eqn:Pa.
    + destruct (find hit (sorted_by_len l)) as [y|] eqn:F.
      * cbn [first_longest] in IH. destruct IH as [Py [l1 [l2 [E [B A]]]]].
        destruct (len y <=? len a)%nat eqn:C.
        -- apply Nat.leb_le in C. split; [exact Pa|].
           exists [], l. split; [reflexivity|]. split; [intros ? []|].
           intros z Hz Pz. rewrite E in Hz. apply in_app_or in Hz.
           destruct Hz as [Hz|[<-|Hz]].
           ++ specialize (B z Hz Pz). (unfold len in *; lia).
           ++ exact C.
           ++ specialize (A z Hz Pz). (unfold len in *; lia).
        -- apply Nat.leb_gt in C. split; [exact Py|].
           exists (a :: l1), l2. split; [rewrite E; reflexivity|]. split; [|exact A].
           intros z [<-|Hz] Pz; [exact C|exact (B z Hz Pz)].
      * cbn [first_longest] in IH |- *. split; [exact Pa|].
        exists [], l. split; [reflexivity|]. split; [intros ? []|].
        intros z Hz Pz. rewrite (IH z Hz) in Pz. discriminate Pz.
    + destruct (find hit (sorted_by_len l)) as [y|] eqn:F.
      * cbn [first_longest] in IH |- *. destruct IH as [Py [l1 [l2 [E [B A]]]]].
        split; [exact Py|].
        exists (a :: l1), l2. split; [rewrite E; reflexivity|]. split; [|exact A].
        intros z [<-|Hz] Pz; [unfold hit in Pa; congruence|exact (B z Hz Pz)].
      * cbn [first_longest] in IH |- *. intros z [<-|Hz]; [exact Pa|exact (IH z Hz)].
Qed.

End FirstMatch.

Lemma first_domain_find (text_lower : string) (l : list (string * string)) (lg : logger) :
  first_domain text_lower l lg
  = match find (fun x => contains (fst x) text_lower) l with
    | Some (domain, vendor_) =>
        (Some vendor_,
         (lg ++ [(INFO, ("Vendor inferred from domain '" ++ domain ++ "': '"
                         ++ vendor_ ++ "'")%string)])%list)
    | None => (None, lg)
    end.
Proof.
  induction l as [|[d v] l IH]; [reflexivity|].
  cbn [first_domain find fst].
  destruct (contains d text_lower); [reflexivity|exact IH].
Qed.

End DomainFacts.

Import Text Logging ReceiptPostProcessor DomainFacts.

(** X7.  The vendor inferred from a domain name is the vendor of the
    longest domain of the table that occurs in the lower-cased text, and of
    the first such domain of the table among equally long ones; one INFO
    line is logged.  Nothing is inferred, and nothing logged, only when no
    domain of the table occurs. *)
Theorem infer_vendor_longest_domain (text : string) (lg : logger) :
  match _infer_vendor_from_domain text lg with
  | (Some v, lg') =>
      exists domain before after,
        DOMAIN_VENDOR_MAP = (before ++ (domain, v) :: after)%list
        /\ names_domain text domain = true
        /\ (forall d' v', In (d', v') before -> names_domain text d' = true ->
              (String.length d' < String.length domain)%nat)
        /\ (forall d' v', In (d', v') after -> names_domain text d' = true ->
              (String.length d' <= String.length domain)%nat)
        /\ lg' = (lg ++ [(INFO, ("Vendor inferred from domain '" ++ domain ++ "': '"
                                 ++ v ++ "'")%string)])%list
  | (None, lg') =>
      (forall d' v', In (d', v') DOMAIN_VENDOR_MAP -> names_domain text d' = false)
      /\ lg' = lg
  end.
Proof.
  unfold _infer_vendor_from_domain. rewrite first_domain_find.
  pose proof (sorted_find (fun d => contains d (lower text)) DOMAIN_VENDOR_MAP) as H.
  cbv beta in H.
  destruct (find (fun x => contains (fst x) (lower text)) (sorted_by_len DOMAIN_VENDOR_MAP))
    as [[d v]|].
  - cbn [first_longest fst] in H. destruct H as [P [l1 [l2 [E [B A]]]]].
    exists d, l1, l2. split; [exact E|]. split; [exact P|].
    split; [|split; [|reflexivity]].
    + intros d' v' Hin Hp. exact (B (d', v') Hin Hp).
    + intros d' v' Hin Hp. exact (A (d', v') Hin Hp).
  - cbn [first_longest] in H. split; [|reflexivity].
    intros d' v' Hin. exact (H (d', v') Hin).
Qed.

(** ** [OllamaClient._extract_json] *)

Module JsonFacts.

Import Text Regex OllamaClient.
Open Scope string_scope.
Open Scope Z_scope.

Lemma depth_of_app (u v : list ascii) : depth_of (u ++ v) = depth_of u + depth_of v.
Proof.
  induction u as [|c u IH]; [reflexivity|].
  cbn [app depth_of]. rewrite IH. lia.
Qed.

(** The loop, started inside a brace at depth [d]. *)
Lemma match_brace_spec (l : list ascii) (i : nat) (d : Z) :
  0 < d ->
  match match_brace l i d with
  | Some e =>
      exists w rest_,
        l = (w ++ rest_)%list /\ e = (i + List.length w)%nat
        /\ d + depth_of w = 0
        /\ forall u u', w = (u ++ u')%list -> u' <> [] -> 0 < d + depth_of u
  | None => forall u u', l = (u ++ u')%list -> 0 < d + depth_of u
  end.
Proof.
  revert i d. induction l as [|c l IH]; intros i d Hd.
  - cbn. intros u u' E. symmetry in E. apply app_eq_nil in E. destruct E as [-> _].
    cbn. lia.
  - cbn [match_brace].
    assert (Step : forall d', 0 < d' ->
              d' = d + (if Ascii.eqb c "{" then 1 else if Ascii.eqb c "}" then -1 else 0) ->
              match match_brace l (S i) d' with
              | Some e =>
                  exists w rest_,
                    c :: l = (w ++ rest_)%list /\ e = (i + List.length w)%nat
                    /\ d + depth_of w = 0
                    /\ forall u u', w = (u ++ u')%list -> u' <> [] -> 0 < d + depth_of u
              | None => forall u u', c :: l = (u ++ u')%list -> 0 < d + depth_of u
              end).
    { intros d' Hd' E. specialize (IH (S i) d' Hd').
      destruct (match_brace l (S i) d') as [e|].
      - destruct IH as [w [r [E1 [E2 [E3 E4]]]]].
        exists (c :: w), r. split; [rewrite E1; reflexivity|].
        split; [cbn [List.length]; lia|]. split; [cbn [depth_of]; lia|].
        intros u u' Eu Hu'. destruct u as [|x u]; [cbn; lia|].
        cbn [app] in Eu. injection Eu as -> Eu.
        specialize (E4 u u' Eu Hu'). cbn [depth_of]. lia.
      - intros u u' Eu. destruct u as [|x u]; [cbn; lia|].
        cbn [app] in Eu. injection Eu as <- Eu.
        specialize (IH u u' Eu). cbn [depth_of]. lia. }
    destruct (Ascii.eqb c "{") eqn:Eo.
    + apply Step; lia.
    + destruct (Ascii.eqb c "}") eqn:Ec.
      * cbv zeta. destruct (d - 1 =? 0) eqn:Z0.
        -- apply Z.eqb_eq in Z0.
           exists [c], l. split; [reflexivity|]. split; [cbn; lia|].
           split; [cbn [depth_of]; rewrite Eo, Ec; lia|].
           intros u u' Eu Hu'. destruct u as [|x u]; [cbn; lia|].
           cbn [app] in Eu. injection Eu as _ Eu.
           symmetry in Eu. apply app_eq_nil in Eu. destruct Eu as [_ ->]. congruence.
        -- apply Z.eqb_neq in Z0. apply Step; lia.
      * apply Step; lia.
Qed.

Lemma str_find_spec (c : ascii) (l : list ascii) :
  match str_find c l with
  | Some i => exists pre, l = (pre ++ c :: skipn (S i) l)%list
                          /\ List.length pre = i /\ ~ In c pre
  | None => ~ In c l
  end.
Proof.
  induction l as [|x l IH]; [cbn; tauto|].
  cbn [str_find]. destruct (Ascii.eqb x c) eqn:E.
  - apply Ascii.eqb_eq in E. subst x. exists []. cbn. tauto.
  - apply Ascii.eqb_neq in E.
    destruct (str_find c l) as [i|].
    + destruct IH as [pre [E1 [E2 E3]]]. exists (x :: pre).
      split; [change (x :: l = x :: (pre ++ c :: skipn (S i) l))%list; f_equal; exact E1|].
      split; [cbn; lia|]. intros [A|A]; [congruence|exact (E3 A)].
    + intros [A|A]; [congruence|exact (IH A)].
Qed.

Lemma skipn_app_length (A : Type) (pre l : list A) :
  skipn (List.length pre) (pre ++ l) = l.
Proof. induction pre as [|x pre IH]; [reflexivity|exact IH]. Qed.

Lemma firstn_app_length (A : Type) (w l : list A) :
  firstn (List.length w) (w ++ l) = w.
Proof. induction w as [|x w IH]; [reflexivity|]. cbn. rewrite IH. reflexivity. Qed.

End JsonFacts.

Import Text Regex OllamaClient JsonFacts.

(** X8.  What [_extract_json] hands to [json.loads].  The answer without
    its code fences is tried first.  If that fails, the one other text
    tried is the block that runs from the first opening brace to the brace
    that closes it, braces being counted wherever they stand; no block is
    tried when there is no opening brace or when the first one is never
    closed. *)
Theorem extract_json_block (J : Type) (json_loads : string -> option J) (text : string) :
  let cleaned := unfenced text in
  let result := _extract_json json_loads text in
  (forall j, json_loads cleaned = Some j -> result = Some j)
  /\ (json_loads cleaned = None ->
        (~ In "{"%char (chars cleaned) /\ result = None)
        \/ exists pre w post,
             chars cleaned = (pre ++ w ++ post)%list
             /\ ~ In "{"%char pre
             /\ open_brace w
             /\ ((depth_of w = 0%Z /\ result = json_loads (str w))
                 \/ (post = [] /\ (0 < depth_of w)%Z /\ result = None))).
Proof.
  intros cleaned result. unfold result, _extract_json. fold cleaned.
  split.
  - intros j E. rewrite E. reflexivity.
  - intro E. rewrite E.
    pose proof (str_find_spec "{" (chars cleaned)) as F.
    destruct (str_find "{" (chars cleaned)) as [start|].
    + right. destruct F as [pre [E1 [E2 E3]]].
      set (tail_ := skipn (S start) (chars cleaned)) in *.
      assert (Sk : skipn start (chars cleaned) = "{"%char :: tail_).
      { rewrite E1 at 1. rewrite <- E2. apply skipn_app_length. }
      rewrite Sk. cbn [match_brace Ascii.eqb]. cbn [Bool.eqb].
      change (0 + 1)%Z with 1%Z.
      pose proof (match_brace_spec tail_ (S start) 1 eq_refl) as M.
      destruct (match_brace tail_ (S start) 1) as [e|].
      * destruct M as [w [post [M1 [M2 [M3 M4]]]]].
        exists pre, ("{"%char :: w), post.
        split; [rewrite E1, M1; reflexivity|]. split; [exact E3|].
        split; [|left; split].
        -- split; [exists w; reflexivity|].
           intros u u' Eu Hu Hu'. destruct u as [|x u]; [congruence|].
           cbn [app] in Eu. injection Eu as <- Eu.
           specialize (M4 u u' Eu Hu'). cbn [depth_of Ascii.eqb Bool.eqb]. lia.
        -- cbn [depth_of Ascii.eqb Bool.eqb]. lia.
        -- assert (L : (Z.of_nat start <? Z.of_nat e)%Z = true) by (apply Z.ltb_lt; lia).
           rewrite L. rewrite Nat2Z.id. f_equal. f_equal.
           unfold slice. rewrite Sk, M1, M2.
           replace (S start + List.length w - start)%nat with (List.length ("{"%char :: w))
             by (cbn [List.length]; lia).
           change ("{"%char :: w ++ post)%list with (("{"%char :: w) ++ post)%list.
           apply firstn_app_length.
      * exists pre, ("{"%char :: tail_), [].
        split; [rewrite app_nil_r; exact E1|]. split; [exact E3|].
        split; [|right; split; [reflexivity|split]].
        -- split; [exists tail_; reflexivity|].
           intros u u' Eu Hu Hu'. destruct u as [|x u]; [congruence|].
           cbn [app] in Eu. injection Eu as <- Eu.
           specialize (M u u' Eu). cbn [depth_of Ascii.eqb Bool.eqb]. lia.
        -- specialize (M tail_ [] (eq_sym (app_nil_r _))).
           cbn [depth_of Ascii.eqb Bool.eqb]. lia.
        -- destruct (Z.of_nat start <? -1)%Z eqn:L; [apply Z.ltb_lt in L; lia|reflexivity].
    + left. split; [exact F|reflexivity].
Qed.

(** ** The matcher and the paths of a pattern *)
Module RegexFacts.

Import Text Regex.
Open Scope nat_scope.

Lemma star_sound (a : re) (k : cursor -> captures -> option answer) (res : answer) :
  sound a ->
  forall fuel c cs,
    (fix loop (fuel : nat) (c : cursor) (cs : captures) {struct fuel} : option answer :=
       match fuel with
       | 0 => k c cs
       | S fuel' =>
           match run a c cs (fun c' cs' =>
                               if pos c <? pos c' then loop fuel' c' cs' else None) with
           | Some res => Some res
           | None => k c cs
           end
       end) fuel c cs = Some res ->
    exists c' cs', rounds (spans a) c cs c' cs' /\ k c' cs' = Some res.
Proof.
  intros Ha. induction fuel as [|fuel IH]; intros c cs H.
  - exists c, cs. split; [constructor|exact H].
  - match type of H with
    | match ?x with _ => _ end = _ => destruct x as [r1|] eqn:E
    end.
    + injection H as ->.
      apply Ha in E. destruct E as [c1 [cs1 [S1 K1]]].
      destruct (pos c <? pos c1); [|discriminate].
      apply IH in K1. destruct K1 as [c2 [cs2 [S2 K2]]].
      exists c2, cs2. split; [econstructor; eassumption|exact K2].
    + exists c, cs. split; [constructor|exact H].
Qed.

(** Whatever the matcher returns went along a path of the pattern. *)
Lemma run_sound (r : re) : sound r.
Proof.
  induction r as [|cl|a IHa b IHb|a IHa b IHb|a IHa| | | |n a IHa|a IHa];
    intros c cs k res H; cbn [run] in H.
  - exists c, cs. split; [split; reflexivity|exact H].
  - destruct (rest c) as [|x xs] eqn:R; [discriminate|].
    destruct (class_ok cl x) eqn:C; [|discriminate].
    eexists _, _. split; [|exact H]. exists x, xs. repeat split; assumption.
  - apply IHa in H. destruct H as [c1 [cs1 [S1 H]]].
    apply IHb in H. destruct H as [c2 [cs2 [S2 H]]].
    exists c2, cs2. split; [exists c1, cs1; split; assumption|exact H].
  - destruct (run a c cs k) as [r1|] eqn:E.
    + injection H as ->. apply IHa in E. destruct E as [c1 [cs1 [S1 K1]]].
      exists c1, cs1. split; [left; exact S1|exact K1].
    + apply IHb in H. destruct H as [c1 [cs1 [S1 K1]]].
      exists c1, cs1. split; [right; exact S1|exact K1].
  - apply (star_sound a k res IHa) in H. exact H.
  - destruct (pos c =? 0) eqn:E; [|discriminate]. apply Nat.eqb_eq in E.
    exists c, cs. split; [repeat split; assumption|exact H].
  - destruct (at_end c) eqn:E; [|discriminate].
    exists c, cs. split; [repeat split; assumption|exact H].
  - destruct (at_word_boundary c) eqn:E; [|discriminate].
    exists c, cs. split; [repeat split; assumption|exact H].
  - apply IHa in H. destruct H as [c1 [cs1 [S1 K1]]].
    eexists _, _. split; [|exact K1]. exists cs1. split; [exact S1|reflexivity].
  - destruct (run a c cs (fun c' cs' => Some (c', cs'))); [discriminate|].
    exists c, cs. split; [split; reflexivity|exact H].
Qed.

Lemma spans_consumes (r : re) :
  forall c cs c' cs', spans r c cs c' cs' -> exists w, consumes c c' w.
Proof.
  induction r as [|cl|a IHa b IHb|a IHa b IHb|a IHa| | | |n a IHa|a IHa];
    intros c cs c' cs' H; cbn [spans] in H.
  - destruct H as [-> _]. exists []. split; [reflexivity|cbn; lia].
  - destruct H as [x [xs [R [_ [-> _]]]]]. exists [x]. split; [exact R|cbn; lia].
  - destruct H as [c1 [cs1 [H1 H2]]].
    apply IHa in H1. apply IHb in H2.
    destruct H1 as [w1 [R1 P1]]. destruct H2 as [w2 [R2 P2]].
    exists (w1 ++ w2)%list. split.
    + rewrite R1, R2, app_assoc. reflexivity.
    + rewrite length_app. lia.
  - destruct H as [H|H]; [apply IHa in H|apply IHb in H]; exact H.
  - induction H as [c cs|c cs c1 cs1 c2 cs2 H1 _ IH].
    + exists []. split; [reflexivity|cbn; lia].
    + apply IHa in H1. destruct H1 as [w1 [R1 P1]]. destruct IH as [w2 [R2 P2]].
      exists (w1 ++ w2)%list. split.
      * rewrite R1, R2, app_assoc. reflexivity.
      * rewrite length_app. lia.
  - destruct H as [_ [-> _]]. exists []. split; [reflexivity|cbn; lia].
  - destruct H as [_ [-> _]]. exists []. split; [reflexivity|cbn; lia].
  - destruct H as [_ [-> _]]. exists []. split; [reflexivity|cbn; lia].
  - destruct H as [cs1 [H _]]. apply IHa in H. exact H.
  - destruct H as [-> _]. exists []. split; [reflexivity|cbn; lia].
Qed.

Lemma spans_groupless (r : re) :
  groupless r = true ->
  forall c cs c' cs', spans r c cs c' cs' -> cs' = cs.
Proof.
  induction r as [|cl|a IHa b IHb|a IHa b IHb|a IHa| | | |n a IHa|a IHa];
    intros G c cs c' cs' H; cbn [spans] in H; cbn [groupless] in G.
  - apply H.
  - destruct H as [x [xs [_ [_ [_ E]]]]]. exact E.
  - apply andb_prop in G. destruct G as [Ga Gb].
    destruct H as [c1 [cs1 [H1 H2]]].
    apply (IHa Ga) in H1. apply (IHb Gb) in H2. congruence.
  - apply andb_prop in G. destruct G as [Ga Gb].
    destruct H as [H|H]; [exact (IHa Ga _ _ _ _ H)|exact (IHb Gb _ _ _ _ H)].
  - induction H as [c cs|c cs c1 cs1 c2 cs2 H1 _ IH]; [reflexivity|].
    apply (IHa G) in H1. congruence.
  - apply H.
  - apply H.
  - apply H.
  - discriminate G.
  - apply H.
Qed.

Lemma consumes_stands (l : list ascii) (c c' : cursor) (w : list ascii) :
  stands l c -> consumes c c' w ->
  stands l c' /\ slice l (pos c) (pos c') = w.
Proof.
  intros [L R] [Rw Pw].
  assert (E : skipn (pos c) l = (w ++ rest c')%list) by (rewrite <- R; exact Rw).
  assert (Len : List.length (skipn (pos c) l) = List.length w + List.length (rest c')).
  { rewrite E, length_app. reflexivity. }
  rewrite length_skipn in Len.
  split; [split|].
  - lia.
  - rewrite Pw, Nat.add_comm, <- skipn_skipn, E.
    clear. induction w as [|x w IH]; [reflexivity|exact IH].
  - unfold slice. rewrite Pw, E.
    replace (pos c + List.length w - pos c) with (List.length w) by lia.
    clear. induction w as [|x w IH]; [reflexivity|]. cbn. rewrite IH. reflexivity.
Qed.

(** [pattern.search] and [pattern.match]: where the match starts, the
    cursor stands in the subject, and the match is a path of the pattern. *)
Lemma scan_sound (r : re) (l : list ascii) :
  forall (suffix : list ascii) (prev : option ascii) (i : nat) (m : mobj),
    i <= List.length l -> suffix = skipn i l ->
    scan r prev suffix i = Some m ->
    exists c c',
      stands l c /\ pos c = m_start m /\ pos c' = m_end m
      /\ spans r c [] c' (m_caps m).
Proof.
  induction suffix as [|x suffix IH]; intros prev i m L E H; cbn [scan] in H.
  - unfold match_at in H.
    destruct (run r (mkCursor prev [] i) [] (fun c' cs' => Some (c', cs'))) as [[c' cs']|] eqn:R;
      [|discriminate].
    injection H as <-. apply run_sound in R. destruct R as [c1 [cs1 [S K]]].
    injection K as -> ->.
    exists (mkCursor prev [] i), c'. split; [split; [exact L|exact E]|].
    split; [reflexivity|]. split; [reflexivity|exact S].
  - unfold match_at in H.
    destruct (run r (mkCursor prev (x :: suffix) i) [] (fun c' cs' => Some (c', cs')))
      as [[c' cs']|] eqn:R.
    + injection H as <-. apply run_sound in R. destruct R as [c1 [cs1 [S K]]].
      injection K as -> ->.
      exists (mkCursor prev (x :: suffix) i), c'. split; [split; [exact L|exact E]|].
      split; [reflexivity|]. split; [reflexivity|exact S].
    + assert (Len : List.length (x :: suffix) = List.length l - i).
      { rewrite E. apply length_skipn. }
      cbn [List.length] in Len.
      apply (IH (Some x) (S i) m); [lia| |exact H].
      assert (E2 : skipn 1 (skipn i l) = suffix) by (rewrite <- E; reflexivity).
      rewrite skipn_skipn in E2. rewrite <- E2. reflexivity.
Qed.

Lemma search_sound (r : re) (s : string) (m : mobj) :
  search r s = Some m ->
  exists c c',
    stands (chars s) c /\ pos c = m_start m /\ pos c' = m_end m
    /\ spans r c [] c' (m_caps m).
Proof.
  unfold search. apply scan_sound; [lia|reflexivity].
Qed.

Lemma match_sound (r : re) (s : string) (m : mobj) :
  match_ r s = Some m ->
  exists c',
    m_start m = 0 /\ pos c' = m_end m
    /\ spans r (mkCursor None (chars s) 0) [] c' (m_caps m).
Proof.
  unfold match_, match_at.
  destruct (run r (mkCursor None (chars s) 0) [] (fun c' cs' => Some (c', cs')))
    as [[c' cs']|] eqn:R; [|discriminate].
  intro H. injection H as <-. apply run_sound in R. destruct R as [c1 [cs1 [S K]]].
  injection K as -> ->. exists c'. repeat split. exact S.
Qed.

End RegexFacts.

(** ** [_parse_amount]: the amount read is the amount written *)

Module AmountFacts.

Import Num NumFacts Text Regex RegexFacts DeterministicParser CleanLinesFacts.
Open Scope string_scope.
Open Scope nat_scope.

Lemma consumes_trans (c c1 c2 : cursor) (w1 w2 : list ascii) :
  consumes c c1 w1 -> consumes c1 c2 w2 -> consumes c c2 (w1 ++ w2).
Proof.
  intros [R1 P1] [R2 P2]. split.
  - rewrite R1, R2, app_assoc. reflexivity.
  - rewrite length_app. lia.
Qed.

Lemma spans_chr (cl : cclass) (c : cursor) (cs : captures) (c' : cursor) (cs' : captures) :
  spans (Chr cl) c cs c' cs' ->
  exists x, consumes c c' [x] /\ class_ok cl x = true /\ cs' = cs.
Proof.
  cbn [spans]. intros [x [xs [R [C [-> ->]]]]].
  exists x. split; [split; [exact R|cbn; lia]|]. split; [exact C|reflexivity].
Qed.

Lemma spans_times (cl : cclass) (n : nat) :
  forall c cs c' cs',
    spans (times n (Chr cl)) c cs c' cs' ->
    exists w, consumes c c' w /\ List.length w = n
              /\ Forall (fun x => class_ok cl x = true) w /\ cs' = cs.
Proof.
  induction n as [|n IH]; intros c cs c' cs' H.
  - cbn in H. destruct H as [-> ->]. exists []. split; [split; [reflexivity|cbn; lia]|].
    split; [reflexivity|]. split; [constructor|reflexivity].
  - cbn [times] in H. cbn [spans] in H. destruct H as [c1 [cs1 [H1 H2]]].
    apply spans_chr in H1. destruct H1 as [x [C1 [K1 ->]]].
    apply IH in H2. destruct H2 as [w [C2 [L2 [F2 ->]]]].
    exists (x :: w). split; [exact (consumes_trans _ _ _ _ _ C1 C2)|].
    split; [cbn; lia|]. split; [constructor; assumption|reflexivity].
Qed.

Lemma spans_upto (cl : cclass) (n : nat) :
  forall c cs c' cs',
    spans (upto n (Chr cl)) c cs c' cs' ->
    exists w, consumes c c' w /\ List.length w <= n
              /\ Forall (fun x => class_ok cl x = true) w /\ cs' = cs.
Proof.
  induction n as [|n IH]; intros c cs c' cs' H.
  - cbn in H. destruct H as [-> ->]. exists []. split; [split; [reflexivity|cbn; lia]|].
    split; [cbn; lia|]. split; [constructor|reflexivity].
  - cbn [upto Opt] in H. cbn [spans] in H. destruct H as [[c1 [cs1 [H1 H2]]]|[-> ->]].
    + apply spans_chr in H1. destruct H1 as [x [C1 [K1 ->]]].
      apply IH in H2. destruct H2 as [w [C2 [L2 [F2 ->]]]].
      exists (x :: w). split; [exact (consumes_trans _ _ _ _ _ C1 C2)|].
      split; [cbn; lia|]. split; [constructor; assumption|reflexivity].
    + exists []. split; [split; [reflexivity|cbn; lia]|].
      split; [cbn; lia|]. split; [constructor|reflexivity].
Qed.

Lemma digit_class (ic : bool) (x : ascii) :
  class_ok (mkClass false [Digit] ic) x = true -> is_digit x = true.
Proof.
  destruct ic; destruct x as [[] [] [] [] [] [] [] []]; vm_compute; intro H;
    first [reflexivity|discriminate H].
Qed.

Lemma sep_class (ic : bool) (x : ascii) :
  class_ok (mkClass false [One "."%char; One ","%char] ic) x = true ->
  x = "."%char \/ x = ","%char.
Proof.
  destruct ic; destruct x as [[] [] [] [] [] [] [] []]; vm_compute; intro H;
    first [left; reflexivity|right; reflexivity|discriminate H].
Qed.

(** The text a match of [NUMBER] consumes. *)
Lemma spans_number (ic : bool) (c : cursor) (cs : captures) (c' : cursor) (cs' : captures) :
  spans (NUMBER ic) c cs c' cs' ->
  exists ds sep e1 e2,
    consumes c c' (ds ++ [sep; e1; e2])
    /\ 1 <= List.length ds <= 6
    /\ Forall (fun x => is_digit x = true) ds
    /\ (sep = "."%char \/ sep = ","%char)
    /\ is_digit e1 = true /\ is_digit e2 = true
    /\ cs' = cs.
Proof.
  unfold NUMBER, Rep. cbn [spans Nat.sub].
  intros [c1 [cs1 [[c0 [cs0 [H0 H1]]] [c2 [cs2 [H2 H3]]]]]].
  apply spans_times in H0. destruct H0 as [w0 [C0 [L0 [F0 ->]]]].
  apply spans_upto in H1. destruct H1 as [w1 [C1 [L1 [F1 ->]]]].
  apply spans_chr in H2. destruct H2 as [sep [C2 [K2 ->]]].
  apply spans_times in H3. destruct H3 as [w3 [C3 [L3 [F3 ->]]]].
  destruct w3 as [|e1 [|e2 [|? ?]]]; try discriminate L3.
  inversion F3 as [|? ? Fe1 F3']; subst. inversion F3' as [|? ? Fe2 _]; subst.
  exists (w0 ++ w1)%list, sep, e1, e2.
  split.
  { pose proof (consumes_trans _ _ _ _ _ (consumes_trans _ _ _ _ _ C0 C1)
                  (consumes_trans _ _ _ _ _ C2 C3)) as C.
    exact C. }
  split; [rewrite length_app; lia|].
  split.
  { apply Forall_app. split; eapply Forall_impl; try eassumption;
      intros a Ha; exact (digit_class ic a Ha). }
  split; [exact (sep_class ic sep K2)|].
  split; [exact (digit_class ic e1 Fe1)|].
  split; [exact (digit_class ic e2 Fe2)|reflexivity].
Qed.

Lemma spans_seq_groupless (a b : re) (c : cursor) (cs : captures) (c' : cursor) (cs' : captures) :
  groupless a = true ->
  spans (Seq a b) c cs c' cs' ->
  exists c1 w, consumes c c1 w /\ spans b c1 cs c' cs'.
Proof.
  intros G [c1 [cs1 [H1 H2]]].
  pose proof (spans_groupless a G _ _ _ _ H1) as ->.
  destruct (spans_consumes a _ _ _ _ H1) as [w C].
  exists c1, w. split; [exact C|exact H2].
Qed.

Lemma spans_group_then (n : nat) (a suffix : re) (c : cursor) (cs : captures)
                       (c' : cursor) (cs' : captures) :
  groupless suffix = true ->
  spans (Seq (Grp n a) suffix) c cs c' cs' ->
  exists c1 cs1, spans a c cs c1 cs1 /\ cs' = (n, (pos c, pos c1)) :: cs1.
Proof.
  intros G [c1 [cs1 [[cs0 [H1 ->]] H2]]].
  pose proof (spans_groupless suffix G _ _ _ _ H2) as ->.
  exists c1, cs0. split; [exact H1|reflexivity].
Qed.

Lemma amount_re_shape :
  exists a0 a1 a2 suffix,
    AMOUNT_RE = Seq a0 (Seq a1 (Seq a2 (Seq (Grp 1 (NUMBER true)) suffix)))
    /\ groupless a0 = true /\ groupless a1 = true /\ groupless a2 = true
    /\ groupless suffix = true.
Proof.
  do 4 eexists. split; [reflexivity|]. repeat split; reflexivity.
Qed.

Lemma bare_amount_re_shape :
  exists suffix,
    BARE_AMOUNT_RE = Seq (Grp 1 (NUMBER false)) suffix /\ groupless suffix = true.
Proof.
  eexists. split; reflexivity.
Qed.

Lemma stands_split (l : list ascii) (c c' : cursor) (w : list ascii) :
  stands l c -> consumes c c' w ->
  l = (firstn (pos c) l ++ w ++ rest c')%list /\ slice l (pos c) (pos c') = w.
Proof.
  intros S C. destruct (consumes_stands l c c' w S C) as [_ E].
  split; [|exact E].
  destruct S as [_ R]. destruct C as [Rw _].
  rewrite <- Rw, R. symmetry. apply firstn_skipn.
Qed.

Lemma group_number (ic : bool) (l : list ascii) (c c1 : cursor) (cs cs1 : captures) :
  stands l c -> spans (NUMBER ic) c cs c1 cs1 ->
  number_text l (slice l (pos c) (pos c1)).
Proof.
  intros S H. apply spans_number in H.
  destruct H as [ds [sep [e1 [e2 [C [L [F [Hs [H1 [H2 _]]]]]]]]]].
  destruct (stands_split l c c1 _ S C) as [E ->].
  exists (firstn (pos c) l), ds, sep, e1, e2, (rest c1).
  split; [reflexivity|]. split; [exact E|]. repeat split; try assumption; lia.
Qed.

Lemma amount_re_group (s : string) (m : mobj) :
  search AMOUNT_RE s = Some m ->
  exists w, group s m 1 = Some (str w) /\ number_text (chars s) w.
Proof.
  intro H. apply search_sound in H. destruct H as [c [c' [S [_ [_ H]]]]].
  destruct amount_re_shape as [a0 [a1 [a2 [suffix [E [G0 [G1 [G2 G3]]]]]]]].
  rewrite E in H. clear E.
  apply (spans_seq_groupless _ _ _ _ _ _ G0) in H. destruct H as [c1 [w1 [C1 H]]].
  apply (spans_seq_groupless _ _ _ _ _ _ G1) in H. destruct H as [c2 [w2 [C2 H]]].
  apply (spans_seq_groupless _ _ _ _ _ _ G2) in H. destruct H as [c3 [w3 [C3 H]]].
  apply (spans_group_then _ _ _ _ _ _ _ G3) in H. destruct H as [c4 [cs4 [H E]]].
  assert (S3 : stands (chars s) c3).
  { apply (consumes_stands _ _ _ _ S) in C1. destruct C1 as [S1 _].
    apply (consumes_stands _ _ _ _ S1) in C2. destruct C2 as [S2 _].
    apply (consumes_stands _ _ _ _ S2) in C3. destruct C3 as [S3 _]. exact S3. }
  exists (slice (chars s) (pos c3) (pos c4)). split.
  - unfold group. rewrite E. cbn [lookup Nat.eqb]. reflexivity.
  - exact (group_number true _ _ _ _ _ S3 H).
Qed.

Lemma bare_amount_re_group (s : string) (m : mobj) :
  search BARE_AMOUNT_RE s = Some m ->
  exists w, group s m 1 = Some (str w) /\ number_text (chars s) w.
Proof.
  intro H. apply search_sound in H. destruct H as [c [c' [S [_ [_ H]]]]].
  destruct bare_amount_re_shape as [suffix [E G]].
  rewrite E in H. clear E.
  apply (spans_group_then _ _ _ _ _ _ _ G) in H. destruct H as [c4 [cs4 [H E]]].
  exists (slice (chars s) (pos c) (pos c4)). split.
  - unfold group. rewrite E. cbn [lookup Nat.eqb]. reflexivity.
  - exact (group_number false _ _ _ _ _ S H).
Qed.

(** *** The value of the number *)

Lemma int_of_digits_acc (l : list ascii) (acc : Z) :
  fold_left (fun a c => (a * 10 + digit_val c)%Z) l acc
  = (acc * 10 ^ Z.of_nat (List.length l) + int_of_digits l)%Z.
Proof.
  unfold int_of_digits. revert acc. induction l as [|x l IH]; intro acc.
  - cbn. lia.
  - cbn [fold_left List.length]. rewrite IH. rewrite (IH (0 * 10 + digit_val x)%Z).
    rewrite Nat2Z.inj_succ, Z.pow_succ_r by lia. lia.
Qed.

Lemma int_of_digits_app (l1 l2 : list ascii) :
  int_of_digits (l1 ++ l2)
  = (int_of_digits l1 * 10 ^ Z.of_nat (List.length l2) + int_of_digits l2)%Z.
Proof.
  unfold int_of_digits at 1. rewrite fold_left_app.
  fold (int_of_digits l1). apply int_of_digits_acc.
Qed.

Lemma digit_val_range (x : ascii) : is_digit x = true -> (0 <= digit_val x <= 9)%Z.
Proof.
  destruct x as [[] [] [] [] [] [] [] []]; vm_compute; intro H;
    first [discriminate H|split; discriminate].
Qed.

Lemma int_of_digits_range (l : list ascii) :
  Forall (fun x => is_digit x = true) l ->
  (0 <= int_of_digits l < 10 ^ Z.of_nat (List.length l))%Z.
Proof.
  induction l as [|x l IH] using rev_ind; intro F.
  - cbn. lia.
  - apply Forall_app in F. destruct F as [F1 F2]. inversion F2 as [|? ? Fx _]; subst.
    specialize (IH F1). apply digit_val_range in Fx.
    rewrite int_of_digits_app, length_app. cbn [List.length].
    change (int_of_digits [x]) with (0 * 10 + digit_val x)%Z.
    replace (Z.of_nat (List.length l + 1)) with (Z.succ (Z.of_nat (List.length l))) by lia.
    rewrite Z.pow_succ_r by lia. change (10 ^ Z.of_nat 1)%Z with 10%Z. lia.
Qed.

Lemma split_chars_end (sep : ascii) (l cur : list ascii) :
  Forall (fun c => c <> sep) l -> split_chars sep l cur = [rev (rev l ++ cur)].
Proof.
  revert cur. induction l as [|c l IH]; intros cur H; cbn.
  - reflexivity.
  - inversion H as [|? ? Hc Hl]; subst.
    apply Ascii.eqb_neq in Hc. rewrite Hc. rewrite IH by exact Hl.
    rewrite <- app_assoc. reflexivity.
Qed.

Lemma split_chars_sep (sep : ascii) (l cur rest_ : list ascii) :
  Forall (fun c => c <> sep) l ->
  split_chars sep (l ++ sep :: rest_) cur = rev (rev l ++ cur) :: split_chars sep rest_ [].
Proof.
  revert cur. induction l as [|c l IH]; intros cur H; cbn.
  - rewrite Ascii.eqb_refl. reflexivity.
  - inversion H as [|? ? Hc Hl]; subst.
    apply Ascii.eqb_neq in Hc. rewrite Hc. rewrite IH by exact Hl.
    rewrite <- app_assoc. reflexivity.
Qed.

Lemma digit_not (x s : ascii) : is_digit x = true -> is_digit s = false -> x <> s.
Proof. intros Hx Hs E. subst. congruence. Qed.

Lemma digits_not (l : list ascii) (s : ascii) :
  Forall (fun x => is_digit x = true) l -> is_digit s = false ->
  Forall (fun c => c <> s) l.
Proof.
  intros F Hs. eapply Forall_impl; [|exact F]. intros a Ha. exact (digit_not a s Ha Hs).
Qed.

Lemma filter_digits (l : list ascii) :
  Forall (fun x => is_digit x = true) l -> filter is_digit l = l.
Proof.
  induction 1 as [|x l Hx _ IH]; [reflexivity|]. cbn. rewrite Hx, IH. reflexivity.
Qed.

Lemma map_digits (f : ascii -> ascii) (l : list ascii) :
  (forall x, is_digit x = true -> f x = x) ->
  Forall (fun x => is_digit x = true) l -> map f l = l.
Proof.
  intros Hf. induction 1 as [|x l Hx _ IH]; [reflexivity|].
  cbn. rewrite (Hf x Hx), IH. reflexivity.
Qed.

(** The float read from a number of the grammar. *)
Lemma float_number (ds : list ascii) (sep e1 e2 : ascii) :
  Forall (fun x => is_digit x = true) ds ->
  sep = "."%char \/ sep = ","%char ->
  is_digit e1 = true -> is_digit e2 = true ->
  (round (float (replace_char ","%char "."%char (str (ds ++ [sep; e1; e2])))) 2
   == inject_Z (int_of_digits ds) + inject_Z (int_of_digits [e1; e2]) / 100)%Q.
Proof.
  intros F Hs H1 H2.
  set (f := fun c : ascii => if Ascii.eqb c ","%char then "."%char else c).
  assert (Ff : forall x, is_digit x = true -> f x = x).
  { intros x Hx. unfold f. destruct (Ascii.eqb x ",") eqn:E; [|reflexivity].
    apply Ascii.eqb_eq in E. subst x. discriminate Hx. }
  assert (R : chars (replace_char ","%char "."%char (str (ds ++ [sep; e1; e2])))
              = (ds ++ "."%char :: [e1; e2])%list).
  { unfold replace_char. rewrite !chars_str. fold f. rewrite map_app.
    rewrite (map_digits f ds Ff F). cbn [map]. rewrite (Ff e1 H1), (Ff e2 H2).
    destruct Hs as [->| ->]; reflexivity. }
  unfold float. rewrite R.
  rewrite (split_chars_sep "."%char ds [] [e1; e2]) by (apply digits_not; [exact F|reflexivity]).
  rewrite (split_chars_end "."%char [e1; e2] [])
    by (constructor; [apply digit_not; [exact H1|reflexivity]
                     |constructor; [apply digit_not; [exact H2|reflexivity]|constructor]]).
  cbn [List.length].
  rewrite filter_app. rewrite (filter_digits ds F).
  cbn [filter]. change (is_digit ".") with false. cbn iota. rewrite H1, H2.
  rewrite int_of_digits_app. cbn [List.length].
  set (a := int_of_digits ds). set (b := int_of_digits [e1; e2]).
  change (Pos.of_nat (10 ^ 2)) with 100%positive.
  change (10 ^ Z.of_nat 2)%Z with 100%Z.
  assert (E : ((a * 100 + b) # 100 == inject_Z (a * 100 + b) / inject_Z (10 ^ Z.of_nat 2))%Q).
  { unfold Qeq, Qdiv, Qmult, Qinv, inject_Z. cbn. lia. }
  rewrite (round_comp _ _ 2 E). rewrite round_grid.
  change (10 ^ Z.of_nat 2)%Z with 100%Z.
  rewrite inject_Z_plus, inject_Z_mult. field.
Qed.

(** The text [_parse_amount] takes its amount from. *)
Lemma parse_amount_text (s : string) (v : Q) :
  _parse_amount s = Some v ->
  exists w, number_text (chars s) w
            /\ v = round (float (replace_char ","%char "."%char (str w))) 2.
Proof.
  intro H. unfold _parse_amount in H.
  destruct (search AMOUNT_RE s) as [m|] eqn:S1.
  - destruct (amount_re_group s m S1) as [w [Gw N]]. rewrite Gw in H.
    injection H as <-. exists w. split; [exact N|reflexivity].
  - destruct (search BARE_AMOUNT_RE s) as [m|] eqn:S2; [|discriminate H].
    destruct (bare_amount_re_group s m S2) as [w [Gw N]]. rewrite Gw in H.
    injection H as <-. exists w. split; [exact N|reflexivity].
Qed.

(** The value of a number of the grammar that stands in [s]. *)
Lemma number_written (s : string) (w : list ascii) (v : Q) :
  number_text (chars s) w ->
  v = round (float (replace_char ","%char "."%char (str w))) 2 ->
  written s v /\ (0 <= v)%Q /\ (v < 1000000)%Q.
Proof.
  intros [pre [ds [sep [e1 [e2 [post [Ew [El [L [F [Hs [H1 H2]]]]]]]]]]]] Ev.
  subst w.
  pose proof (float_number ds sep e1 e2 F Hs H1 H2) as V. rewrite <- Ev in V.
  pose proof (int_of_digits_range ds F) as Rd.
  assert (Re : (0 <= int_of_digits [e1; e2] < 100)%Z).
  { apply (int_of_digits_range [e1; e2]). constructor; [exact H1|]. constructor; [exact H2|constructor]. }
  assert (Rd' : (0 <= int_of_digits ds <= 999999)%Z).
  { assert (P : (10 ^ Z.of_nat (List.length ds) <= 10 ^ 6)%Z)
      by (apply Z.pow_le_mono_r; lia).
    change (10 ^ 6)%Z with 1000000%Z in P. lia. }
  split; [|split].
  - exists pre, ds, sep, e1, e2, post.
    split; [rewrite El, <- app_assoc; reflexivity|].
    split; [exact L|]. split; [exact F|]. split; [exact Hs|].
    split; [exact H1|]. split; [exact H2|exact V].
  - rewrite V.
    assert (A : (0 <= inject_Z (int_of_digits ds))%Q)
      by (rewrite <- (Zle_Qle 0); lia).
    assert (B : (0 <= inject_Z (int_of_digits [e1; e2]))%Q)
      by (rewrite <- (Zle_Qle 0); lia).
    revert A B. generalize (inject_Z (int_of_digits ds)) (inject_Z (int_of_digits [e1; e2])).
    intros a b A B.
    assert (E : (a + b / 100 == a + b * (1 # 100))%Q) by field. rewrite E. lra.
  - rewrite V.
    assert (A : (inject_Z (int_of_digits ds) <= 999999)%Q)
      by (change 999999%Q with (inject_Z 999999); rewrite <- Zle_Qle; lia).
    assert (B : (inject_Z (int_of_digits [e1; e2]) < 100)%Q)
      by (change 100%Q with (inject_Z 100); rewrite <- Zlt_Qlt; lia).
    revert A B. generalize (inject_Z (int_of_digits ds)) (inject_Z (int_of_digits [e1; e2])).
    intros a b A B.
    assert (E : (a + b / 100 == a + b * (1 # 100))%Q) by field. rewrite E. lra.
Qed.

End AmountFacts.

Import Num NumFacts Text Regex DeterministicParser AmountFacts CleanLinesFacts.

(** X9.  The amount [_parse_amount] reads from a line is a number written
    on the line: one to six digits, a period or a comma, two digits; its
    value is the integer part plus the two digits as hundredths, so it is
    below one million. *)
Theorem parse_amount_written (s : string) (v : Q) :
  _parse_amount s = Some v ->
  written s v /\ (0 <= v)%Q /\ (v < 1000000)%Q.
Proof.
  intro H.
  destruct (parse_amount_text s v H) as [w [N V]].
  destruct (number_written s w v N V) as [W [P B]].
  split; [exact W|]. split; [exact P|exact B].
Qed.

Lemma parse_amount_written_witness :
  _parse_amount "Total: 41,53" = Some 41.53%Q
  /\ written "Total: 41,53" 41.53%Q /\ (41.53 < 1000000)%Q.
Proof.
  assert (H : _parse_amount "Total: 41,53" = Some 41.53%Q) by (vm_compute; reflexivity).
  destruct (parse_amount_written _ _ H) as [W [_ B]].
  exact (conj H (conj W B)).
Defined.

(** ** [DeterministicParser.parse]: where the amounts come from *)

Import Num NumFacts Text Regex Logging DeterministicParser.
Import ResolveFacts AnchorFacts ParseFacts AmountFacts.

(** X10.  [parse] invents no amount: every amount of its result is read by
    [_parse_amount] from one of the cleaned lines of the text, a line on
    which a label pattern of the field is found, and is written on that
    line as digits, a period or a comma, and two digits. *)
Theorem parsed_amounts_written (text : string) (lg : logger) (field : string) (v : Q) :
  In field AMOUNT_FIELDS ->
  get (fst (parse text lg)) field = Some v ->
  exists line pattern prio,
    In line (_clean_lines text)
    /\ In (field, pattern, prio) _COMPILED
    /\ found pattern (_strip_accents (strip (lower line))) = true
    /\ _parse_amount line = Some v
    /\ written line v
    /\ (v < 1000000)%Q.
Proof.
  intros Hf Hv.
  destruct (parse_amounts text lg) as (Pt & Pp & Pg & Pq & Ps & Ph).
  cbv zeta in Pt, Pp, Pg, Pq, Ps, Ph.
  assert (R : amounts_get field (_extract_amounts (_clean_lines text)) = Some v).
  { unfold AMOUNT_FIELDS in Hf. cbn [In] in Hf.
    destruct Hf as [E|[E|[E|[E|[E|[E|[]]]]]]]; subst field;
      cbn [get String.eqb Ascii.eqb Bool.eqb] in Hv;
      rewrite ?Pt, ?Pp, ?Pg, ?Pq, ?Ps, ?Ph in Hv;
      try (apply sane_tax_some in Hv); exact Hv. }
  apply (amounts_get_In field _ v (extract_amounts_NoDup _)) in R.
  destruct (resolved_is_best _ _ _ R) as [best [M [Ea _]]].
  destruct M as [line [pattern [I0 [Hn [Hc [Hfound [Hp _]]]]]]].
  rewrite Ea in Hp.
  destruct (parse_amount_text line v Hp) as [w [N V]].
  destruct (number_written line w v N V) as [W [_ B]].
  exists line, pattern, (priority best).
  split; [exact (nth_error_In _ _ Hn)|].
  split; [exact Hc|]. split; [exact Hfound|]. split; [exact Hp|].
  split; [exact W|exact B].
Qed.

Lemma parsed_amounts_written_witness :
  let text := unlines ["SOUS-TOTAL 41,53"; "TPS 2,08"; "TVQ 4,14"; "TOTAL 47,75"]%string in
  In "gst"%string AMOUNT_FIELDS
  /\ get (fst (parse text [])) "gst" = Some 2.08%Q
  /\ exists line, In line (_clean_lines text) /\ written line 2.08%Q.
Proof.
  intro text.
  assert (H1 : In "gst"%string AMOUNT_FIELDS) by (right; right; left; reflexivity).
  assert (H2 : get (fst (parse text [])) "gst" = Some 2.08%Q) by (vm_compute; reflexivity).
  destruct (parsed_amounts_written text [] "gst"%string 2.08%Q H1 H2)
    as [line [_ [_ [I [_ [_ [_ [W _]]]]]]]].
  exact (conj H1 (conj H2 (ex_intro _ line (conj I W)))).
Defined.

(** ** The texts of a pattern *)

Module LangFacts.

Import Text Regex RegexFacts.
Open Scope nat_scope.

Lemma consumes_nil (c : cursor) : consumes c c [].
Proof. split; [reflexivity|cbn; lia]. Qed.

Lemma consumes_app (c c1 c2 : cursor) (w1 w2 : list ascii) :
  consumes c c1 w1 -> consumes c1 c2 w2 -> consumes c c2 (w1 ++ w2).
Proof.
  intros [R1 P1] [R2 P2]. split.
  - rewrite R1, R2, app_assoc. reflexivity.
  - rewrite length_app. lia.
Qed.

(** A path consumes a text of the pattern. *)
Lemma spans_lang (r : re) :
  forall c cs c' cs', spans r c cs c' cs' -> exists w, consumes c c' w /\ lang r w.
Proof.
  induction r as [|cl|a IHa b IHb|a IHa b IHb|a IHa| | | |n a IHa|a IHa];
    intros c cs c' cs' H; cbn [spans] in H; cbn [lang].
  - destruct H as [-> _]. exists []. split; [apply consumes_nil|reflexivity].
  - destruct H as [x [xs [R [C [-> _]]]]]. exists [x].
    split; [split; [exact R|cbn; lia]|]. exists x. split; [reflexivity|exact C].
  - destruct H as [c1 [cs1 [H1 H2]]].
    apply IHa in H1. apply IHb in H2.
    destruct H1 as [w1 [C1 L1]]. destruct H2 as [w2 [C2 L2]].
    exists (w1 ++ w2)%list. split; [exact (consumes_app _ _ _ _ _ C1 C2)|].
    exists w1, w2. repeat split; assumption.
  - destruct H as [H|H]; [apply IHa in H|apply IHb in H];
      destruct H as [w [C L]]; exists w; (split; [exact C|]); [left|right]; exact L.
  - induction H as [c cs|c cs c1 cs1 c2 cs2 H1 _ IH].
    + exists []. split; [apply consumes_nil|constructor].
    + apply IHa in H1. destruct H1 as [w1 [C1 L1]]. destruct IH as [w2 [C2 L2]].
      exists (w1 ++ w2)%list. split; [exact (consumes_app _ _ _ _ _ C1 C2)|].
      constructor; assumption.
  - destruct H as [_ [-> _]]. exists []. split; [apply consumes_nil|reflexivity].
  - destruct H as [_ [-> _]]. exists []. split; [apply consumes_nil|reflexivity].
  - destruct H as [_ [-> _]]. exists []. split; [apply consumes_nil|reflexivity].
  - destruct H as [cs1 [H _]]. apply IHa in H. exact H.
  - destruct H as [-> _]. exists []. split; [apply consumes_nil|reflexivity].
Qed.

Lemma all_ascii_In (x : ascii) : In x all_ascii.
Proof.
  unfold all_ascii. rewrite <- (ascii_nat_embedding x).
  apply in_map. apply in_seq. pose proof (nat_ascii_bounded x). lia.
Qed.

Lemma class_members_In (cl : cclass) (x : ascii) :
  class_ok cl x = true -> In x (class_members cl).
Proof.
  intro H. unfold class_members. apply filter_In. split; [apply all_ascii_In|exact H].
Qed.

(** A group: its span is recorded, and the text inside is a text of its
    pattern. *)
Lemma spans_group (l : list ascii) (n : nat) (a : re) (c : cursor) (cs : captures)
                  (c' : cursor) (cs' : captures) :
  groupless a = true -> stands l c ->
  spans (Grp n a) c cs c' cs' ->
  exists w, consumes c c' w /\ lang a w /\ stands l c'
            /\ slice l (pos c) (pos c') = w
            /\ cs' = (n, (pos c, pos c')) :: cs.
Proof.
  intros G S [cs1 [H ->]].
  pose proof (spans_groupless a G _ _ _ _ H) as ->.
  destruct (spans_lang a _ _ _ _ H) as [w [C L]].
  destruct (consumes_stands l c c' w S C) as [S' E].
  exists w. split; [exact C|]. split; [exact L|]. split; [exact S'|].
  split; [exact E|reflexivity].
Qed.

Lemma spans_plain (l : list ascii) (a : re) (c : cursor) (cs : captures)
                  (c' : cursor) (cs' : captures) :
  groupless a = true -> stands l c ->
  spans a c cs c' cs' ->
  exists w, consumes c c' w /\ lang a w /\ stands l c' /\ cs' = cs.
Proof.
  intros G S H.
  pose proof (spans_groupless a G _ _ _ _ H) as ->.
  destruct (spans_lang a _ _ _ _ H) as [w [C L]].
  destruct (consumes_stands l c c' w S C) as [S' E].
  exists w. split; [exact C|]. split; [exact L|]. split; [exact S'|reflexivity].
Qed.

End LangFacts.

(** ** [_valid_iso] and the dates of [parse] *)

Module CalendarFacts.

Import Num NumFacts Text Regex RegexFacts LangFacts Logging.
Import DeterministicParser DateFacts CleanLinesFacts AmountFacts ParseFacts.
Open Scope string_scope.
Open Scope nat_scope.

Ltac members H :=
  apply class_members_In in H; vm_compute in H;
  repeat match type of H with
         | _ \/ _ => destruct H as [H|H]; [subst|]
         end;
  try (exfalso; exact H).

Lemma strptime_shape :
  STRPTIME_RE
  = Seq (Grp 1 DIRECTIVE_Y)
        (Seq HYPHEN (Seq (Grp 2 DIRECTIVE_m) (Seq HYPHEN (Grp 3 DIRECTIVE_d)))).
Proof. reflexivity. Qed.

Ltac break :=
  repeat match goal with
         | H : exists _, _ |- _ => destruct H
         | H : _ /\ _ |- _ => destruct H
         end; subst.

Ltac all_members :=
  repeat match goal with
         | H : class_ok _ _ = true |- _ => members H
         end.

Lemma year_lang (w : list ascii) :
  lang DIRECTIVE_Y w -> List.length w = 4 /\ Forall (fun x => is_digit x = true) w.
Proof.
  unfold DIRECTIVE_Y. cbn [lang]. intro H. break.
  repeat match goal with
         | H : class_ok _ _ = true |- _ => apply digit_class in H
         end.
  split; [reflexivity|]. repeat constructor; assumption.
Qed.

Lemma hyphen_lang (w : list ascii) : lang HYPHEN w -> w = ["-"%char].
Proof.
  unfold HYPHEN. cbn [lang]. intro H. break. all_members. reflexivity.
Qed.

Lemma month_lang (w : list ascii) :
  lang DIRECTIVE_m w ->
  1 <= List.length w <= 2 /\ (1 <= int_of_digits w <= 12)%Z.
Proof.
  unfold DIRECTIVE_m. cbn [lang]. intros [H|[H|H]]; break; all_members;
    vm_compute; (split; [split; lia|split; discriminate]).
Qed.

Lemma day_lang (w : list ascii) :
  lang DIRECTIVE_d w ->
  1 <= List.length w <= 2 /\ (1 <= int (strip (str w)))%Z.
Proof.
  unfold DIRECTIVE_d. cbn [lang]. intros [H|[H|[H|[H|H]]]]; break; all_members;
    vm_compute; (split; [split; lia|discriminate]).
Qed.

Lemma int_str (w : list ascii) : int (str w) = int_of_digits w.
Proof. unfold int. rewrite chars_str. reflexivity. Qed.

Lemma stands_start (l : list ascii) (prev : option ascii) : stands l (mkCursor prev l 0).
Proof. split; [cbn; lia|reflexivity]. Qed.

Lemma consumes_all (l : list ascii) (c c' : cursor) (w : list ascii) :
  stands l c -> consumes c c' w -> pos c' = List.length l -> rest c = w.
Proof.
  intros S C E. destruct (consumes_stands l c c' w S C) as [[_ R] _].
  destruct C as [Rw _]. rewrite Rw, R, E, skipn_all. apply app_nil_r.
Qed.

(** What [strptime] accepts for ["%Y-%m-%d"]. *)
Lemma strptime_spec (iso : string) (y mo d : Z) :
  strptime iso = Some (y, mo, d) ->
  exists wy wm wd : list ascii,
    chars iso = (wy ++ "-"%char :: wm ++ "-"%char :: wd)%list
    /\ List.length wy = 4
    /\ 1 <= List.length wm <= 2
    /\ 1 <= List.length wd <= 2
    /\ y = int_of_digits wy /\ mo = int_of_digits wm /\ d = int (strip (str wd))
    /\ (1 <= y)%Z /\ (1 <= mo <= 12)%Z /\ (1 <= d <= days_in_month y mo)%Z.
Proof.
  unfold strptime. cbv zeta.
  destruct (match_ STRPTIME_RE iso) as [m|] eqn:M; [|discriminate].
  apply match_sound in M. destruct M as [c' [_ [Pe H]]].
  rewrite strptime_shape in H.
  set (l := chars iso) in *.
  pose proof (stands_start l None) as S0.
  destruct H as [c1 [cs1 [H1 H]]].
  apply (spans_group l) in H1; [|reflexivity|exact S0].
  destruct H1 as [w1 [C1 [L1 [S1 [E1 ->]]]]].
  destruct H as [c2 [cs2 [H2 H]]].
  apply (spans_plain l) in H2; [|reflexivity|exact S1].
  destruct H2 as [w2 [C2 [L2 [S2 ->]]]].
  destruct H as [c3 [cs3 [H3 H]]].
  apply (spans_group l) in H3; [|reflexivity|exact S2].
  destruct H3 as [w3 [C3 [L3 [S3 [E3 ->]]]]].
  destruct H as [c4 [cs4 [H4 H5]]].
  apply (spans_plain l) in H4; [|reflexivity|exact S3].
  destruct H4 as [w4 [C4 [L4 [S4 ->]]]].
  apply (spans_group l) in H5; [|reflexivity|exact S4].
  destruct H5 as [w5 [C5 [L5 [S5 [E5 Ec]]]]].
  unfold grp, group. rewrite Ec. cbn [lookup Nat.eqb].
  fold l. rewrite E1, E3, E5.
  rewrite !int_str.
  apply hyphen_lang in L2, L4. subst w2 w4.
  destruct (year_lang w1 L1) as [Ly Fy].
  destruct (month_lang w3 L3) as [Lm Rm].
  destruct (day_lang w5 L5) as [Ld Rd].
  destruct (m_end m =? String.length iso) eqn:Eend; [|discriminate].
  apply Nat.eqb_eq in Eend.
  destruct (1 <=? int_of_digits w1)%Z eqn:Ey; [|discriminate].
  destruct (int (strip (str w5)) <=? days_in_month (int_of_digits w1) (int_of_digits w3))%Z
    eqn:Ed; [|discriminate].
  cbn [andb]. intro E. injection E as <- <- <-.
  apply Z.leb_le in Ey, Ed.
  exists w1, w3, w5.
  split.
  { pose proof (consumes_app _ _ _ _ _ C1
                  (consumes_app _ _ _ _ _ C2
                     (consumes_app _ _ _ _ _ C3 (consumes_app _ _ _ _ _ C4 C5)))) as C.
    assert (El : pos c' = List.length l).
    { rewrite Pe, Eend. unfold l, chars. clear.
      induction iso as [|a s IH]; [reflexivity|]. cbn. rewrite IH. reflexivity. }
    pose proof (consumes_all l _ _ _ S0 C El) as R. cbn [rest] in R.
    exact R. }
  repeat split; try assumption; try reflexivity; lia.
Qed.

Lemma valid_iso_day (iso : string) : _valid_iso iso = true -> calendar_day iso.
Proof.
  unfold _valid_iso. destruct (strptime iso) as [[[y mo] d]|] eqn:E; [|discriminate].
  intro H. apply andb_prop in H. destruct H as [H1 H2].
  apply Z.leb_le in H1, H2.
  apply strptime_spec in E.
  destruct E as [wy [wm [wd [El [Ly [Lm [Ld [-> [-> [-> [_ [Rm Rd]]]]]]]]]]]].
  exists wy, wm, wd. repeat split; try assumption; lia.
Qed.

Lemma set_keeps_date (r : result) (f : string) (v : option Q) : date (set r f v) = date r.
Proof.
  unfold set.
  repeat match goal with
         | |- context [if ?b then _ else _] => destruct b; [reflexivity|]
         end.
  reflexivity.
Qed.

Lemma sanity_keeps_date (t : option Q) (taxes : list string) (r : result) :
  date (fold_left
          (fun (r : result) (tax : string) =>
             let v := get r tax in
             if truthy v
                && Qle_bool (match t with Some x => x | None => 0%Q end)
                            (match v with Some x => x | None => 0%Q end)
             then set r tax None else r) taxes r)
  = date r.
Proof.
  revert r. induction taxes as [|tax taxes IH]; intro r; [reflexivity|].
  cbn [fold_left]. rewrite IH. cbv zeta.
  match goal with
  | |- context [if ?b then _ else _] => destruct b
  end; [apply set_keeps_date|reflexivity].
Qed.

(** The date of the result is the date [_extract_date] chose. *)
Lemma parse_date (text : string) (lg : logger) :
  exists lg1, date (fst (parse text lg)) = fst (_extract_date (_clean_lines text) lg1).
Proof.
  unfold parse, bind.
  destruct (_extract_vendor (_clean_lines text) text lg) as [v l1].
  exists l1.
  destruct (_extract_date (_clean_lines text) l1) as [d l2].
  cbv zeta. unfold log, ret. cbn [fst].
  match goal with
  | |- context [if ?b then _ else _] => destruct b
  end.
  - rewrite sanity_keeps_date.
    destruct (assign_text (_extract_amounts (_clean_lines text))
                (set_date (set_vendor empty_result v) d)) as [E _].
    rewrite E. reflexivity.
  - destruct (assign_text (_extract_amounts (_clean_lines text))
                (set_date (set_vendor empty_result v) d)) as [E _].
    rewrite E. reflexivity.
Qed.

Lemma extract_date_valid (lines : list string) (lg : logger) (iso : string) :
  fst (_extract_date lines lg) = Some iso -> _valid_iso iso = true.
Proof.
  unfold _extract_date.
  destruct (sort (date_candidates lines)) as [|best others] eqn:S; [discriminate|].
  intro H.
  assert (E : fst (fst best) = iso).
  { unfold bind, ret in H.
    destruct others; unfold ret, log in H; cbn [fst] in H; congruence. }
  destruct (sort_first _ _ _ S) as [Hin _].
  destruct best as [[bi bs] bx]. cbn [fst] in E. subst bi.
  apply date_candidates_spec in Hin.
  destruct Hin as [line [_ [_ [_ [[pattern [m [_ [_ [_ V]]]]] _]]]]]. exact V.
Qed.

End CalendarFacts.

Import Num NumFacts Text Regex Logging DeterministicParser CalendarFacts.


(** ** The matcher finds exactly the matches *)

Module MatcherFacts.

Import Text Regex RegexExact.
Open Scope nat_scope.

(** A match moves forward, by as much as it takes from the text. *)
Lemma reach_measure (r : re) :
  forall c c', reach r c c' ->
    pos c <= pos c' /\ List.length (rest c') + pos c' = List.length (rest c) + pos c.
Proof.
  induction r as [|cl|a IHa b IHb|a IHa b IHb|a IHa| | | |n a IHa|a IHa];
    intros c c' H; cbn [reach] in H.
  - subst c'. lia.
  - destruct H as [x [xs [R [_ ->]]]]. rewrite R. cbn. lia.
  - destruct H as [c1 [H1 H2]]. apply IHa in H1. apply IHb in H2. lia.
  - destruct H as [H|H]; [apply IHa in H|apply IHb in H]; exact H.
  - induction H as [c|c c1 c2 H1 _ IH]; [lia|]. apply IHa in H1. lia.
  - destruct H as [_ ->]. lia.
  - destruct H as [_ ->]. lia.
  - destruct H as [_ ->]. lia.
  - apply IHa in H. exact H.
  - destruct H as [-> _]. lia.
Qed.

(** A match that takes nothing ends where it began. *)
Lemma reach_still (r : re) :
  forall c c', reach r c c' -> pos c' = pos c -> c' = c.
Proof.
  induction r as [|cl|a IHa b IHb|a IHa b IHb|a IHa| | | |n a IHa|a IHa];
    intros c c' H E; cbn [reach] in H.
  - exact H.
  - destruct H as [x [xs [_ [_ ->]]]]. cbn in E. lia.
  - destruct H as [c1 [H1 H2]].
    pose proof (reach_measure a _ _ H1). pose proof (reach_measure b _ _ H2).
    assert (E1 : c1 = c) by (apply IHa; [exact H1|lia]). subst c1.
    apply IHb; assumption.
  - destruct H as [H|H]; [apply IHa|apply IHb]; assumption.
  - induction H as [c|c c1 c2 H1 H2 IH]; [reflexivity|].
    assert (M2 : pos c1 <= pos c2).
    { clear - H2 IHa. induction H2 as [c|c c1 c2 H1 _ IH]; [lia|].
      pose proof (reach_measure a _ _ H1). lia. }
    pose proof (reach_measure a _ _ H1).
    assert (E1 : c1 = c) by (apply IHa; [exact H1|lia]). subst c1.
    apply IH. exact E.
  - apply H.
  - apply H.
  - apply H.
  - apply IHa; assumption.
  - apply H.
Qed.

Section Star.

Variable a : re.
Variable k : cursor -> captures -> option answer.

Let loop : nat -> cursor -> captures -> option answer :=
  fix loop (fuel : nat) (c : cursor) (cs : captures) {struct fuel} : option answer :=
    match fuel with
    | 0 => k c cs
    | S fuel' =>
        match run a c cs (fun c' cs' =>
                            if pos c <? pos c' then loop fuel' c' cs' else None) with
        | Some res => Some res
        | None => k c cs
        end
    end.

Hypothesis sound_a :
  forall c cs k res, run a c cs k = Some res ->
    exists c' cs', reach a c c' /\ k c' cs' = Some res.

Hypothesis complete_a :
  forall c c' cs k, reach a c c' -> (forall cs', k c' cs' <> None) -> run a c cs k <> None.

Lemma loop_S (fuel : nat) (c : cursor) (cs : captures) :
  loop (S fuel) c cs
  = match run a c cs (fun c' cs' =>
                        if pos c <? pos c' then loop fuel c' cs' else None) with
    | Some res => Some res
    | None => k c cs
    end.
Proof. reflexivity. Qed.

Lemma star_exact_sound (res : answer) :
  forall fuel c cs, loop fuel c cs = Some res ->
    exists c' cs', hops (reach a) c c' /\ k c' cs' = Some res.
Proof.
  induction fuel as [|fuel IH]; intros c cs H.
  - exists c, cs. split; [constructor|exact H].
  - rewrite loop_S in H.
    match type of H with
    | match ?x with _ => _ end = _ => destruct x as [r1|] eqn:E
    end.
    + injection H as ->.
      apply sound_a in E. destruct E as [c1 [cs1 [S1 K1]]].
      destruct (pos c <? pos c1); [|discriminate].
      apply IH in K1. destruct K1 as [c2 [cs2 [S2 K2]]].
      exists c2, cs2. split; [econstructor; eassumption|exact K2].
    + exists c, cs. split; [constructor|exact H].
Qed.

Lemma star_exact_complete (c c' : cursor) :
  hops (reach a) c c' -> (forall cs', k c' cs' <> None) ->
  forall fuel cs, List.length (rest c) <= fuel -> loop fuel c cs <> None.
Proof.
  intros H K. induction H as [c|c c1 c2 H1 H2 IH]; intros fuel cs L.
  - destruct fuel as [|fuel]; [apply K|]. rewrite loop_S.
    match goal with
    | |- match ?x with _ => _ end <> _ => destruct x
    end; [discriminate|apply K].
  - pose proof (reach_measure a _ _ H1) as [M1 M2].
    destruct (Nat.eq_dec (pos c1) (pos c)) as [E|E].
    + apply (reach_still a _ _ H1) in E. subst c1. apply (IH K). exact L.
    + destruct fuel as [|fuel]; [lia|]. rewrite loop_S.
      match goal with
      | |- match ?x with _ => _ end <> _ => destruct x eqn:R
      end; [discriminate|].
      exfalso. revert R. apply (complete_a c c1).
      * exact H1.
      * intro cs'. assert (P : (pos c <? pos c1) = true) by (apply Nat.ltb_lt; lia).
        rewrite P. apply (IH K). lia.
Qed.

End Star.

(** The matcher finds exactly the matches: what it returns went along a
    match of the pattern, and where there is a match after which the
    continuation succeeds, it returns something. *)
Lemma run_exact (r : re) :
  (forall c cs k res, run r c cs k = Some res ->
     exists c' cs', reach r c c' /\ k c' cs' = Some res)
  /\ (forall c c' cs k, reach r c c' -> (forall cs', k c' cs' <> None) ->
        run r c cs k <> None).
Proof.
  induction r as [|cl|a [Sa Ca] b [Sb Cb]|a [Sa Ca] b [Sb Cb]|a [Sa Ca]| | |
                  |n a [Sa Ca]|a [Sa Ca]]; split.
  - intros c cs k res H. exists c, cs. split; [reflexivity|exact H].
  - intros c c' cs k H K. cbn in H. subst c'. apply K.
  - intros c cs k res H. cbn [run] in H.
    destruct (rest c) as [|x xs] eqn:R; [discriminate|].
    destruct (class_ok cl x) eqn:C; [|discriminate].
    eexists _, _. split; [|exact H]. exists x, xs. repeat split; assumption.
  - intros c c' cs k [x [xs [R [C ->]]]] K. cbn [run]. rewrite R, C. apply K.
  - intros c cs k res H. cbn [run] in H.
    apply Sa in H. destruct H as [c1 [cs1 [S1 H]]].
    apply Sb in H. destruct H as [c2 [cs2 [S2 H]]].
    exists c2, cs2. split; [exists c1; split; assumption|exact H].
  - intros c c' cs k [c1 [H1 H2]] K. cbn [run].
    apply (Ca c c1); [exact H1|]. intro cs'. apply (Cb c1 c'); assumption.
  - intros c cs k res H. cbn [run] in H.
    destruct (run a c cs k) as [r1|] eqn:E.
    + injection H as ->. apply Sa in E. destruct E as [c1 [cs1 [S1 K1]]].
      exists c1, cs1. split; [left; exact S1|exact K1].
    + apply Sb in H. destruct H as [c1 [cs1 [S1 K1]]].
      exists c1, cs1. split; [right; exact S1|exact K1].
  - intros c c' cs k H K. cbn [run].
    destruct (run a c cs k) eqn:E; [discriminate|].
    destruct H as [H|H].
    + exfalso. revert E. apply (Ca c c'); assumption.
    + apply (Cb c c'); assumption.
  - intros c cs k res H. cbn [run] in H.
    apply (star_exact_sound a k Sa res) in H. exact H.
  - intros c c' cs k H K. cbn [run].
    apply (star_exact_complete a k Ca c c' H K). apply Nat.le_refl.
  - intros c cs k res H. cbn [run] in H.
    destruct (pos c =? 0) eqn:E; [|discriminate]. apply Nat.eqb_eq in E.
    exists c, cs. split; [split; [exact E|reflexivity]|exact H].
  - intros c c' cs k [E ->] K. cbn [run]. apply Nat.eqb_eq in E. rewrite E. apply K.
  - intros c cs k res H. cbn [run] in H.
    destruct (at_end c) eqn:E; [|discriminate].
    exists c, cs. split; [split; [exact E|reflexivity]|exact H].
  - intros c c' cs k [E ->] K. cbn [run]. rewrite E. apply K.
  - intros c cs k res H. cbn [run] in H.
    destruct (at_word_boundary c) eqn:E; [|discriminate].
    exists c, cs. split; [split; [exact E|reflexivity]|exact H].
  - intros c c' cs k [E ->] K. cbn [run]. rewrite E. apply K.
  - intros c cs k res H. cbn [run] in H.
    apply Sa in H. destruct H as [c1 [cs1 [S1 K1]]].
    eexists _, _. split; [exact S1|exact K1].
  - intros c c' cs k H K. cbn [run]. cbn [reach] in H.
    apply (Ca c c'); [exact H|]. intro cs'. apply K.
  - intros c cs k res H. cbn [run] in H.
    destruct (run a c cs (fun c' cs' => Some (c', cs'))) eqn:E; [discriminate|].
    exists c, cs. split; [|exact H]. split; [reflexivity|].
    intros [c1 H1]. revert E. apply (Ca c c1); [exact H1|]. intros cs'. discriminate.
  - intros c c' cs k [-> N] K. cbn [run].
    destruct (run a c cs (fun c' cs' => Some (c', cs'))) eqn:E; [|apply K].
    exfalso. apply N. apply Sa in E. destruct E as [c1 [cs1 [S1 _]]].
    exists c1. exact S1.
Qed.

(** [pattern.match] at a cursor succeeds exactly where the pattern matches. *)
Lemma match_at_exact (r : re) (c : cursor) :
  match_at r c <> None <-> matches_at r c.
Proof.
  unfold match_at, matches_at. split.
  - destruct (run r c [] (fun c' cs' => Some (c', cs'))) as [[c' cs']|] eqn:R.
    + intros _. apply (proj1 (run_exact r)) in R.
      destruct R as [c1 [cs1 [S _]]]. exists c1. exact S.
    + intro H. exfalso. apply H. reflexivity.
  - intros [c' H].
    destruct (run r c [] (fun c' cs' => Some (c', cs'))) as [[c1 cs1]|] eqn:R;
      [discriminate|].
    exfalso. revert R. apply (proj2 (run_exact r) c c'); [exact H|].
    intros cs'. discriminate.
Qed.

Lemma scan_exact (r : re) (l : list ascii) :
  forall prev i, scan r prev l i <> None <-> somewhere (matches_at r) prev l i.
Proof.
  induction l as [|x l IH]; intros prev i; cbn [scan somewhere].
  - destruct (match_at r (mkCursor prev [] i)) eqn:M.
    + split; [intros _; left; apply match_at_exact; rewrite M; discriminate|discriminate].
    + split; [intro H; exfalso; apply H; reflexivity|].
      intros [H|[]]. apply match_at_exact in H. rewrite M in H. exact H.
  - destruct (match_at r (mkCursor prev (x :: l) i)) eqn:M.
    + split; [intros _; left; apply match_at_exact; rewrite M; discriminate|discriminate].
    + rewrite IH. split.
      * intro H. right. exact H.
      * intros [H|H]; [|exact H]. apply match_at_exact in H. exfalso. apply H. exact M.
Qed.

(** [pattern.search] finds something exactly when the pattern matches
    somewhere in the text. *)
Lemma found_exact (r : re) (s : string) :
  found r s = true <-> somewhere (matches_at r) None (chars s) 0.
Proof.
  unfold found, search. rewrite <- scan_exact.
  destruct (scan r None (chars s) 0); split; intro H;
    try discriminate; try reflexivity.
  exfalso. apply H. reflexivity.
Qed.

End MatcherFacts.

(** ** The date patterns and the vocabularies they stand for *)

Module LabelFacts.

Import Text Regex RegexExact MatcherFacts LangFacts DeterministicParser DateLabels.
Open Scope char_scope.
Open Scope nat_scope.

(** The three patterns are those of the vocabularies. *)
Lemma date_reject_labels :
  _DATE_REJECT
  = Grp 1 (alternatives (map (fun label => chain (label_tokens label))
                             NOT_TRANSACTION_LABELS)).
Proof. vm_compute. reflexivity. Qed.

Lemma date_confirm_labels :
  _DATE_CONFIRM
  = Grp 1 (alternatives
             (map (fun label => Seq Bol (chain (label_tokens label))) TRANSACTION_LABELS
              ++ [Seq Bol (chain (word_tokens "date"
                                  ++ [WordB;
                                      NegLook (alternatives
                                                 (map (fun ws => chain (words_tokens ws))
                                                      OTHER_DATE_WORDS))]))])).
Proof. vm_compute. reflexivity. Qed.

(** *** Characters *)

Lemma for_all_ascii (P : ascii -> bool) :
  forallb P all_ascii = true -> forall x, P x = true.
Proof.
  intros H x. rewrite forallb_forall in H. apply H. apply all_ascii_In.
Qed.

(** Under IGNORECASE a letter that is not a capital matches the characters
    whose lower case it is. *)
Lemma letter_class (a x : ascii) :
  is_upper a = false ->
  class_ok (mkClass false [One a] true) x = Ascii.eqb (lower_char x) a.
Proof.
  intro U.
  assert (H : forallb (fun a => forallb (fun x =>
                implb (negb (is_upper a))
                      (Bool.eqb (class_ok (mkClass false [One a] true) x)
                                (Ascii.eqb (lower_char x) a))) all_ascii) all_ascii = true)
    by (vm_compute; reflexivity).
  pose proof (for_all_ascii _ (for_all_ascii _ H a) x) as E. cbv beta in E.
  rewrite U in E. cbn [negb implb] in E. apply Bool.eqb_prop in E. exact E.
Qed.

Lemma blank_class (x : ascii) :
  class_ok (mkClass false [Space] true) x = is_space x.
Proof.
  assert (H : forallb (fun x => Bool.eqb (class_ok (mkClass false [Space] true) x)
                                         (is_space x)) all_ascii = true)
    by (vm_compute; reflexivity).
  apply Bool.eqb_prop. exact (for_all_ascii _ H x).
Qed.

Lemma digit_class_plain (x : ascii) :
  class_ok (mkClass false [Digit] false) x = is_digit x.
Proof.
  unfold class_ok. cbn. destruct (is_digit x); reflexivity.
Qed.

Lemma colon_class (x : ascii) :
  class_ok (mkClass false [One ":"] false) x = Ascii.eqb x ":".
Proof.
  unfold class_ok. cbn [negated items icase existsb item_ok xorb andb orb].
  destruct (Ascii.eqb x ":"); reflexivity.
Qed.

(** White space has no lower case of its own, and is no plain character. *)
Lemma space_not_letter (x a : ascii) :
  is_space x = true -> plain_char a = true -> Ascii.eqb (lower_char x) a = false.
Proof.
  intros S P.
  assert (H : forallb (fun a => forallb (fun x =>
                implb (is_space x && plain_char a)
                      (negb (Ascii.eqb (lower_char x) a))) all_ascii) all_ascii = true)
    by (vm_compute; reflexivity).
  pose proof (for_all_ascii _ (for_all_ascii _ H a) x) as E. cbv beta in E.
  rewrite S, P in E. cbn [andb implb] in E. apply negb_true_iff in E. exact E.
Qed.

Lemma plain_not_upper (a : ascii) : plain_char a = true -> is_upper a = false.
Proof.
  unfold plain_char. intro H. apply andb_prop in H. destruct H as [H _].
  apply negb_true_iff in H. exact H.
Qed.

(** *** Chains and alternatives *)

Lemma chain_cons (r : re) (rs : list re) (c c' : cursor) :
  reach (chain (r :: rs)) c c' <-> exists c1, reach r c c1 /\ reach (chain rs) c1 c'.
Proof.
  destruct rs as [|r' rs].
  - cbn [chain reach]. split.
    + intro H. exists c'. split; [exact H|reflexivity].
    + intros [c1 [H ->]]. exact H.
  - reflexivity.
Qed.

Lemma matches_chain_cons (r : re) (rs : list re) (c : cursor) :
  matches_at (chain (r :: rs)) c <-> exists c1, reach r c c1 /\ matches_at (chain rs) c1.
Proof.
  unfold matches_at. split.
  - intros [c' H]. apply chain_cons in H. destruct H as [c1 [H1 H2]].
    exists c1. split; [exact H1|exists c'; exact H2].
  - intros [c1 [H1 [c' H2]]]. exists c'. apply chain_cons. exists c1. split; assumption.
Qed.

Lemma matches_letter (a : ascii) (rs : list re) (c : cursor) :
  is_upper a = false ->
  (matches_at (chain (letter a :: rs)) c
   <-> exists x xs, rest c = x :: xs /\ Ascii.eqb (lower_char x) a = true
                    /\ matches_at (chain rs) (mkCursor (Some x) xs (S (pos c)))).
Proof.
  intro U. rewrite matches_chain_cons. unfold letter, single. cbn [reach IGNORECASE ignorecase].
  split.
  - intros [c1 [[x [xs [R [C ->]]]] M]]. rewrite (letter_class a x U) in C.
    exists x, xs. repeat split; assumption.
  - intros [x [xs [R [C M]]]]. eexists. split; [|exact M].
    exists x, xs. rewrite (letter_class a x U). repeat split; assumption.
Qed.

Lemma matches_alternatives (rs : list re) (c : cursor) :
  matches_at (alternatives rs) c <-> Exists (fun r => matches_at r c) rs.
Proof.
  induction rs as [|r rs IH].
  - cbn [alternatives]. split.
    + intros [c' [x [xs [_ [C _]]]]]. discriminate C.
    + intro H. inversion H.
  - rewrite Exists_cons. rewrite <- IH. destruct rs as [|r' rs].
    + cbn [alternatives]. split; [intro H; left; exact H|].
      intros [H|[c' [x [xs [_ [C _]]]]]]; [exact H|discriminate C].
    + change (alternatives (r :: r' :: rs)) with (Alt r (alternatives (r' :: rs))).
      unfold matches_at. cbn [reach]. split.
      * intros [c' [H|H]]; [left|right]; exists c'; exact H.
      * intros [[c' H]|[c' H]]; exists c'; [left|right]; exact H.
Qed.

(** *** Patterns decided by the text ahead *)


Lemma decides_ext (f g : list ascii -> bool) (r : re) :
  (forall l, f l = g l) -> decides f r -> decides g r.
Proof. intros E D c. rewrite <- E. apply D. Qed.

Lemma decides_nil : decides (fun _ => true) (chain []).
Proof.
  intro c. split; [reflexivity|]. intros _. exists c. reflexivity.
Qed.

Lemma decides_word (w : list ascii) (rs : list re) (f : list ascii -> bool) :
  forallb plain_char w = true ->
  decides f (chain rs) ->
  decides (fun l => match word_at w l with Some l' => f l' | None => false end)
          (chain (map letter w ++ rs)).
Proof.
  intros P D. induction w as [|a w IH].
  - intro c. cbn [map app word_at]. apply D.
  - cbn [forallb] in P. apply andb_prop in P. destruct P as [Pa Pw].
    specialize (IH Pw). intro c. cbn [map app].
    rewrite (matches_letter a _ c (plain_not_upper a Pa)). split.
    + intros [x [xs [R [C M]]]]. rewrite R. cbn [word_at]. rewrite C.
      apply IH in M. exact M.
    + intro H. destruct (rest c) as [|x xs] eqn:R; [discriminate H|].
      cbn [word_at] in H. destruct (Ascii.eqb (lower_char x) a) eqn:C; [|discriminate H].
      exists x, xs. split; [reflexivity|]. split; [exact C|].
      apply IH. exact H.
Qed.

(** White space: the blanks take all of it when what follows cannot begin
    with white space. *)
Lemma hops_blanks (c c' : cursor) :
  hops (reach (single ignorecase Space)) c c' ->
  exists sp, rest c = (sp ++ rest c')%list /\ forallb is_space sp = true.
Proof.
  intro H. induction H as [c|c c1 c2 H1 _ [sp [R S]]].
  - exists []. split; reflexivity.
  - unfold single in H1. cbn [reach IGNORECASE ignorecase] in H1.
    destruct H1 as [x [xs [Rc [C ->]]]]. rewrite blank_class in C.
    cbn [rest] in R. exists (x :: sp). split.
    + rewrite Rc, R. reflexivity.
    + cbn [forallb]. rewrite C, S. reflexivity.
Qed.

Lemma lstrip_blanks (sp l : list ascii) :
  forallb is_space sp = true -> lstrip_chars (sp ++ l) = lstrip_chars l.
Proof.
  induction sp as [|x sp IH]; intro H; [reflexivity|].
  cbn [forallb] in H. apply andb_prop in H. destruct H as [Hx Hs].
  cbn [app lstrip_chars]. rewrite Hx. apply IH. exact Hs.
Qed.

Lemma blanks_reach (l : list ascii) :
  forall prev i,
  exists c', hops (reach (single ignorecase Space)) (mkCursor prev l i) c'
             /\ rest c' = lstrip_chars l.
Proof.
  induction l as [|x l IH]; intros prev i.
  - eexists. split; [constructor|reflexivity].
  - cbn [lstrip_chars]. destruct (is_space x) eqn:Sx.
    + destruct (IH (Some x) (S i)) as [c' [H R]]. exists c'. split; [|exact R].
      econstructor; [|exact H]. unfold single. cbn [reach IGNORECASE ignorecase].
      exists x, l. rewrite blank_class. repeat split. exact Sx.
    + eexists. split; [constructor|reflexivity].
Qed.

Lemma decides_blanks (rs : list re) (f : list ascii -> bool) :
  (forall x l, is_space x = true -> f (x :: l) = false) ->
  decides f (chain rs) ->
  decides (fun l => f (lstrip_chars l)) (chain (blanks :: rs)).
Proof.
  intros N D c. rewrite matches_chain_cons. unfold blanks. cbn [reach]. split.
  - intros [c1 [H M]]. apply D in M.
    destruct (hops_blanks c c1 H) as [sp [R S]]. rewrite R, (lstrip_blanks sp _ S).
    destruct (rest c1) as [|x l] eqn:R1; [exact M|].
    cbn [lstrip_chars]. destruct (is_space x) eqn:Sx; [|exact M].
    rewrite (N x l Sx) in M. discriminate M.
  - intro H. destruct c as [prev l i]. cbn [rest] in H.
    destruct (blanks_reach l prev i) as [c' [Hh R]].
    exists c'. split; [exact Hh|]. apply D. rewrite R. exact H.
Qed.

Lemma word_at_space (w : list ascii) (x : ascii) (l : list ascii) :
  w <> [] -> forallb plain_char w = true -> is_space x = true ->
  word_at w (x :: l) = None.
Proof.
  intros Ne P S. destruct w as [|a w]; [contradiction|].
  cbn [forallb] in P. apply andb_prop in P. destruct P as [Pa _].
  cbn [word_at]. rewrite (space_not_letter x a S Pa). reflexivity.
Qed.

Lemma plain_word_chars (w : string) :
  plain_word w = true -> chars w <> [] /\ forallb plain_char (chars w) = true.
Proof.
  unfold plain_word. destruct (chars w) as [|a l]; [discriminate|].
  intro H. split; [discriminate|exact H].
Qed.

Lemma decides_words (ws : list string) (rs : list re) (f : list ascii -> bool) :
  forallb plain_word ws = true ->
  decides f (chain rs) ->
  decides (fun l => match words_at ws l with Some l' => f l' | None => false end)
          (chain (words_tokens ws ++ rs)).
Proof.
  intros P D. induction ws as [|w ws IH].
  - intro c. cbn [words_tokens app words_at]. apply D.
  - cbn [forallb] in P. apply andb_prop in P. destruct P as [Pw Pws].
    specialize (IH Pws). destruct (plain_word_chars w Pw) as [Ne Pc].
    cbn [words_tokens app]. rewrite <- app_assoc.
    apply (decides_ext
             (fun l => (fun l0 => match word_at (chars w) l0 with
                               | Some l1 => match words_at ws l1 with
                                            | Some l' => f l'
                                            | None => false
                                            end
                               | None => false
                               end) (lstrip_chars l))).
    + intro l. cbn [words_at]. destruct (word_at (chars w) (lstrip_chars l)); reflexivity.
    + apply (decides_blanks
               (word_tokens w ++ words_tokens ws ++ rs)
               (fun l0 => match word_at (chars w) l0 with
                          | Some l1 => match words_at ws l1 with
                                       | Some l' => f l'
                                       | None => false
                                       end
                          | None => false
                          end)).
      * intros x l S. rewrite (word_at_space (chars w) x l Ne Pc S). reflexivity.
      * unfold word_tokens. apply (decides_word (chars w) _ _ Pc IH).
Qed.

Lemma decides_label (label : list string) :
  forallb plain_word label = true ->
  decides (label_at label) (chain (label_tokens label)).
Proof.
  intro P. destruct label as [|w ws].
  - apply decides_nil.
  - cbn [forallb] in P. apply andb_prop in P. destruct P as [Pw Pws].
    destruct (plain_word_chars w Pw) as [_ Pc].
    cbn [label_tokens]. unfold word_tokens.
    apply (decides_ext
             (fun l => match word_at (chars w) l with
                       | Some l' => (fun l0 => is_some (words_at ws l0)) l'
                       | None => false
                       end)); [reflexivity|].
    apply (decides_word (chars w) _ _ Pc).
    apply (decides_ext
             (fun l => match words_at ws l with Some l' => (fun _ => true) l' | None => false end)).
    + intro l. destruct (words_at ws l); reflexivity.
    + rewrite <- (app_nil_r (words_tokens ws)).
      apply (decides_words ws [] _ Pws). apply decides_nil.
Qed.

Lemma decides_following (ws : list string) :
  forallb plain_word ws = true ->
  decides (fun l => is_some (words_at ws l)) (chain (words_tokens ws)).
Proof.
  intro P.
  apply (decides_ext
           (fun l => match words_at ws l with Some l' => (fun _ => true) l' | None => false end)).
  - intro l. destruct (words_at ws l); reflexivity.
  - rewrite <- (app_nil_r (words_tokens ws)).
    apply (decides_words ws [] _ P). apply decides_nil.
Qed.

Lemma decides_alternatives (A : Type) (F : A -> list ascii -> bool) (R : A -> re)
                           (labels : list A) :
  (forall label, In label labels -> decides (F label) (R label)) ->
  decides (fun l => existsb (fun label => F label l) labels) (alternatives (map R labels)).
Proof.
  intros D c. rewrite matches_alternatives, Exists_exists, existsb_exists. split.
  - intros [r [Hin M]]. apply in_map_iff in Hin. destruct Hin as [label [<- Hin]].
    exists label. split; [exact Hin|]. apply (D label Hin). exact M.
  - intros [label [Hin H]]. exists (R label). split; [apply in_map; exact Hin|].
    apply (D label Hin). exact H.
Qed.

(** *** Somewhere in the text *)


Lemma somewhere_ahead (A : cursor -> Prop) (g : list ascii -> bool) :
  (forall c, A c <-> g (rest c) = true) ->
  forall l prev i, somewhere A prev l i <-> anywhere g l = true.
Proof.
  intro D. induction l as [|x l IH]; intros prev i; cbn [somewhere anywhere].
  - rewrite D. cbn [rest]. rewrite orb_false_r. tauto.
  - rewrite D, IH. cbn [rest]. rewrite orb_true_iff. reflexivity.
Qed.

Lemma somewhere_start (A : cursor -> Prop) :
  (forall c, A c -> pos c = 0) ->
  forall l prev, somewhere A prev l 0 <-> A (mkCursor prev l 0).
Proof.
  intros Z l prev.
  assert (N : forall l prev i, 0 < i -> ~ somewhere A prev l i).
  { clear l prev. induction l as [|x l IH]; intros prev i Hi; cbn [somewhere].
    - intros [H|[]]. apply Z in H. cbn in H. lia.
    - intros [H|H]; [apply Z in H; cbn in H; lia|].
      exact (IH (Some x) (S i) ltac:(lia) H). }
  destruct l as [|x l]; cbn [somewhere].
  - tauto.
  - split; [|intro H; left; exact H].
    intros [H|H]; [exact H|]. exfalso. exact (N l (Some x) 1 ltac:(lia) H).
Qed.

Lemma existsb_same (A : Type) (f g : A -> bool) (l : list A) :
  (forall a, f a = g a) -> existsb f l = existsb g l.
Proof.
  intro E. induction l as [|a l IH]; [reflexivity|]. cbn [existsb]. rewrite E, IH. reflexivity.
Qed.

Lemma anywhere_exists (A : Type) (F : A -> list ascii -> bool) (labels : list A)
                      (l : list ascii) :
  anywhere (fun l0 => existsb (fun label => F label l0) labels) l
  = existsb (fun label => anywhere (F label) l) labels.
Proof.
  induction l as [|x l IH]; cbn [anywhere].
  - rewrite orb_false_r. apply existsb_same. intro a. rewrite orb_false_r. reflexivity.
  - rewrite IH. clear. induction labels as [|a labels IH]; [reflexivity|].
    cbn [existsb]. rewrite <- IH.
    destruct (F a (x :: l)), (anywhere (F a) l),
             (existsb (fun label => F label (x :: l)) labels),
             (existsb (fun label => anywhere (F label) l) labels); reflexivity.
Qed.

Lemma label_in_anywhere (label : list string) (l : list ascii) :
  label_in label l = anywhere (label_at label) l.
Proof.
  induction l as [|x l IH]; cbn [label_in anywhere]; [reflexivity|].
  rewrite IH. reflexivity.
Qed.

Lemma bool_eq_iff (a b : bool) : (a = true <-> b = true) -> a = b.
Proof. destruct a, b; intros [H1 H2]; try reflexivity; [symmetry; apply H1|apply H2]; reflexivity. Qed.

(** *** The three recognisers *)

(** [_DATE_REJECT.search] finds something exactly in the texts that carry a
    label of another date. *)
Lemma date_reject_exact (s : string) : found _DATE_REJECT s = names_other_date s.
Proof.
  apply bool_eq_iff. rewrite found_exact, date_reject_labels.
  rewrite (somewhere_ahead
             (matches_at (Grp 1 (alternatives (map (fun label => chain (label_tokens label))
                                                   NOT_TRANSACTION_LABELS))))
             (fun l => existsb (fun label => label_at label l) NOT_TRANSACTION_LABELS)).
  - rewrite anywhere_exists. unfold names_other_date.
    rewrite (existsb_same _ _ (fun label => label_in label (chars s))); [reflexivity|].
    intro label. symmetry. apply label_in_anywhere.
  - intro c.
    change (matches_at (Grp 1 ?a) c) with (matches_at a c).
    apply (decides_alternatives _ label_at (fun label => chain (label_tokens label))).
    intros label Hin. apply decides_label.
    revert label Hin. apply forallb_forall. vm_compute. reflexivity.
Qed.

(** *** The confirming labels *)

Lemma matches_bol (r : re) (c : cursor) :
  matches_at (Seq Bol r) c <-> pos c = 0 /\ matches_at r c.
Proof.
  unfold matches_at. cbn [reach]. split.
  - intros [c' [c1 [[Z ->] H]]]. split; [exact Z|exists c'; exact H].
  - intros [Z [c' H]]. exists c', c. split; [split; [exact Z|reflexivity]|exact H].
Qed.


Lemma lower_is_word (x a : ascii) :
  Ascii.eqb (lower_char x) a = true -> is_word a = true -> is_word x = true.
Proof.
  intros E W.
  assert (H : forallb (fun a => forallb (fun x =>
                implb (Ascii.eqb (lower_char x) a && is_word a) (is_word x))
                all_ascii) all_ascii = true)
    by (vm_compute; reflexivity).
  pose proof (for_all_ascii _ (for_all_ascii _ H a) x) as G. cbv beta in G.
  rewrite E, W in G. exact G.
Qed.

Lemma decides_word_after (w : list ascii) (rs : list re) (f : list ascii -> bool) :
  w <> [] -> forallb plain_char w = true -> forallb is_word w = true ->
  decides_after_word f (chain rs) ->
  decides (fun l => match word_at w l with Some l' => f l' | None => false end)
          (chain (map letter w ++ rs)).
Proof.
  intros Ne P W D. induction w as [|a w IH]; [contradiction|].
  cbn [forallb] in P, W. apply andb_prop in P. apply andb_prop in W.
  destruct P as [Pa Pw]. destruct W as [Wa Ww].
  intro c. cbn [map app].
  rewrite (matches_letter a _ c (plain_not_upper a Pa)).
  destruct w as [|a' w].
  - cbn [map app]. split.
    + intros [x [xs [R [C M]]]]. rewrite R. cbn [word_at]. rewrite C.
      apply (D _ x) in M; [exact M|reflexivity|exact (lower_is_word x a C Wa)].
    + intro H. destruct (rest c) as [|x xs] eqn:R; [discriminate H|].
      cbn [word_at] in H. destruct (Ascii.eqb (lower_char x) a) eqn:C; [|discriminate H].
      exists x, xs. split; [reflexivity|]. split; [exact C|].
      apply (D _ x); [reflexivity|exact (lower_is_word x a C Wa)|exact H].
  - specialize (IH ltac:(discriminate) Pw Ww). split.
    + intros [x [xs [R [C M]]]]. rewrite R.
      change (word_at (a :: a' :: w) (x :: xs))
        with (if Ascii.eqb (lower_char x) a then word_at (a' :: w) xs else None).
      rewrite C. apply IH in M. exact M.
    + intro H. destruct (rest c) as [|x xs] eqn:R; [discriminate H|].
      change (word_at (a :: a' :: w) (x :: xs))
        with (if Ascii.eqb (lower_char x) a then word_at (a' :: w) xs else None) in H.
      destruct (Ascii.eqb (lower_char x) a) eqn:C; [|discriminate H].
      exists x, xs. split; [reflexivity|]. split; [exact C|].
      apply IH. exact H.
Qed.

(** The end of a word, with none of the patterns of [X] ahead. *)
Lemma decides_word_end (X : re) (g : list ascii -> bool) :
  decides g X ->
  decides_after_word
    (fun l => negb (match l with x :: _ => is_word x | [] => false end) && negb (g l))
    (chain [WordB; NegLook X]).
Proof.
  intros D c x B W. unfold matches_at. cbn [chain reach]. split.
  - intros [c' [c1 [[Wb ->] [_ N]]]].
    unfold at_word_boundary in Wb. rewrite B, W in Wb.
    apply andb_true_intro. split.
    + destruct (rest c) as [|y l]; [reflexivity|].
      destruct (is_word y); [discriminate Wb|reflexivity].
    + apply negb_true_iff. destruct (g (rest c)) eqn:G; [|reflexivity].
      exfalso. apply N. apply D. exact G.
  - intro H. apply andb_prop in H. destruct H as [H1 H2].
    apply negb_true_iff in H2.
    exists c, c. split; [split; [|reflexivity]|split; [reflexivity|]].
    + unfold at_word_boundary. rewrite B, W.
      destruct (rest c) as [|y l]; [reflexivity|].
      apply negb_true_iff in H1. rewrite H1. reflexivity.
    + intro M. apply D in M. rewrite M in H2. discriminate H2.
Qed.

Lemma decides_bare_date :
  decides bare_date
          (chain (word_tokens "date"
                  ++ [WordB;
                      NegLook (alternatives (map (fun ws => chain (words_tokens ws))
                                                 OTHER_DATE_WORDS))])).
Proof.
  unfold word_tokens.
  apply (decides_ext
           (fun l => match word_at (chars "date") l with
                     | Some l' =>
                         (fun l0 =>
                            negb (match l0 with x :: _ => is_word x | [] => false end)
                            && negb ((fun l1 => existsb (fun ws => is_some (words_at ws l1))
                                                        OTHER_DATE_WORDS) l0)) l'
                     | None => false
                     end)); [reflexivity|].
  apply decides_word_after.
  - discriminate.
  - vm_compute. reflexivity.
  - vm_compute. reflexivity.
  - apply decides_word_end.
    apply (decides_alternatives _ (fun ws l => is_some (words_at ws l))
                                (fun ws => chain (words_tokens ws))).
    intros ws Hin. apply decides_following.
    revert ws Hin. apply forallb_forall. vm_compute. reflexivity.
Qed.

Lemma date_confirm_at (c : cursor) :
  matches_at _DATE_CONFIRM c
  <-> pos c = 0
      /\ (existsb (fun label => label_at label (rest c)) TRANSACTION_LABELS
          || bare_date (rest c)) = true.
Proof.
  rewrite date_confirm_labels.
  change (matches_at (Grp 1 ?a) c) with (matches_at a c).
  rewrite matches_alternatives, Exists_app, Exists_exists, orb_true_iff, existsb_exists.
  assert (Pl : forall label, In label TRANSACTION_LABELS -> forallb plain_word label = true)
    by (apply forallb_forall; vm_compute; reflexivity).
  split.
  - intros [[r [Hin M]]|H].
    + apply in_map_iff in Hin. destruct Hin as [label [<- Hin]].
      apply matches_bol in M. destruct M as [Z M]. split; [exact Z|].
      left. exists label. split; [exact Hin|].
      apply (decides_label label (Pl label Hin)). exact M.
    + apply Exists_cons in H. destruct H as [M|H]; [|inversion H].
      apply matches_bol in M. destruct M as [Z M]. split; [exact Z|].
      right. apply decides_bare_date. exact M.
  - intros [Z [[label [Hin H]]|H]].
    + left. exists (Seq Bol (chain (label_tokens label))).
      split; [apply (in_map (fun label => Seq Bol (chain (label_tokens label)))); exact Hin|].
      apply matches_bol. split; [exact Z|].
      apply (decides_label label (Pl label Hin)). exact H.
    + right. apply Exists_cons. left. apply matches_bol. split; [exact Z|].
      apply decides_bare_date. exact H.
Qed.

(** [_DATE_CONFIRM.search] finds something exactly in the texts that open
    with a label of the transaction date. *)
Lemma date_confirm_exact (s : string) : found _DATE_CONFIRM s = opens_with_label s.
Proof.
  apply bool_eq_iff. rewrite found_exact.
  rewrite (somewhere_start (matches_at _DATE_CONFIRM)).
  - rewrite date_confirm_at. cbn [pos rest]. unfold opens_with_label. tauto.
  - intros c M. apply date_confirm_at in M. apply M.
Qed.

(** *** The clock time *)


Lemma tracks_eps : tracks (fun g => g) Eps.
Proof.
  intros q g D c. cbv beta. rewrite <- (D c). unfold matches_at. cbn [reach]. split.
  - intros [c' [c1 [-> H]]]. exists c'. exact H.
  - intros [c' H]. exists c', c. split; [reflexivity|exact H].
Qed.

Lemma tracks_chr (cl : cclass) :
  tracks (fun g l => match l with x :: l' => class_ok cl x && g l' | [] => false end)
         (Chr cl).
Proof.
  intros q g D c. unfold matches_at. cbn [reach]. split.
  - intros [c' [c1 [[x [xs [R [C ->]]]] H]]]. rewrite R, C.
    apply (D (mkCursor (Some x) xs (S (pos c)))). exists c'. exact H.
  - intro H. destruct (rest c) as [|x xs] eqn:R; [discriminate H|].
    apply andb_prop in H. destruct H as [C G].
    apply (D (mkCursor (Some x) xs (S (pos c)))) in G. destruct G as [c' G].
    exists c'. eexists. split; [|exact G]. exists x, xs. repeat split. exact C.
Qed.

Lemma tracks_seq (Fa Fb : (list ascii -> bool) -> list ascii -> bool) (a b : re) :
  tracks Fa a -> tracks Fb b -> tracks (fun g => Fa (Fb g)) (Seq a b).
Proof.
  intros Ta Tb q g D c. cbv beta. rewrite <- (Ta (Seq b q) (Fb g) (Tb q g D) c).
  unfold matches_at. cbn [reach]. split.
  - intros [c' [c2 [[c1 [H1 H2]] H3]]]. exists c', c1. split; [exact H1|].
    exists c2. split; assumption.
  - intros [c' [c1 [H1 [c2 [H2 H3]]]]]. exists c', c2. split; [|exact H3].
    exists c1. split; assumption.
Qed.

Lemma tracks_alt (Fa Fb : (list ascii -> bool) -> list ascii -> bool) (a b : re) :
  tracks Fa a -> tracks Fb b -> tracks (fun g l => Fa g l || Fb g l) (Alt a b).
Proof.
  intros Ta Tb q g D c. cbv beta. rewrite orb_true_iff.
  rewrite <- (Ta q g D c), <- (Tb q g D c).
  unfold matches_at. cbn [reach]. split.
  - intros [c' [c1 [[H|H] H3]]]; [left|right]; exists c', c1; split; assumption.
  - intros [[c' [c1 [H H3]]]|[c' [c1 [H H3]]]]; exists c', c1; (split; [|exact H3]);
      [left|right]; exact H.
Qed.

Lemma tracks_decides (F : (list ascii -> bool) -> list ascii -> bool) (r : re) :
  tracks F r -> decides (F (fun _ => true)) r.
Proof.
  intros T c. rewrite <- (T Eps (fun _ => true) ltac:(intro c0; split; [reflexivity|intros _; exists c0; reflexivity]) c).
  - unfold matches_at. cbn [reach]. split.
    + intros [c' H]. exists c', c'. split; [exact H|reflexivity].
    + intros [c' [c1 [H ->]]]. exists c1. exact H.
Qed.


Lemma clock_at_exact : decides clock_at CLOCK_RE.
Proof.
  unfold CLOCK_RE.
  eapply decides_ext; [|apply tracks_decides;
    repeat first [apply tracks_seq | apply tracks_alt | apply tracks_chr | apply tracks_eps]].
  intro l. cbv beta. unfold clock_at, time_at.
  destruct l as [|a [|b [|c0 [|d [|e l]]]]];
    rewrite ?digit_class_plain, ?colon_class;
    repeat match goal with
           | |- context [is_digit ?x] => destruct (is_digit x)
           | |- context [Ascii.eqb ?x ":"] => destruct (Ascii.eqb x ":")
           end; reflexivity.
Qed.

Lemma anywhere_clock (l : list ascii) : anywhere clock_at l = has_clock_chars l.
Proof.
  induction l as [|x l IH]; [reflexivity|].
  cbn [anywhere has_clock_chars]. rewrite IH. unfold clock_at at 1.
  assert (A : time_at l = true -> has_clock_chars l = true).
  { destruct l; cbn [has_clock_chars]; intro H; rewrite H; reflexivity. }
  destruct (time_at (x :: l)); [reflexivity|]. cbn [orb].
  destruct (is_digit x); [|reflexivity]. cbn [andb].
  destruct (time_at l); [|reflexivity]. rewrite (A eq_refl). reflexivity.
Qed.

(** The clock pattern finds something exactly on the lines with a digit, a
    colon and two digits in a row. *)
Lemma clock_exact (line : string) : found CLOCK_RE line = has_clock line.
Proof.
  apply bool_eq_iff. rewrite found_exact.
  rewrite (somewhere_ahead (matches_at CLOCK_RE) clock_at clock_at_exact).
  unfold has_clock. rewrite anywhere_clock. reflexivity.
Qed.

End LabelFacts.

(** ** [DeterministicParser._extract_date]: which date is taken *)

Import Text Regex Logging DeterministicParser DateFacts DateLabels LabelFacts.


